(** * A fixed-capacity arena, its allocator adaptor, and a sentinel ring list

    Shallow embedding of [list.hpp]: [StackStorage<N>] (a bump arena),
    [StackAllocator<T, N>] (a rebindable view of one arena) and
    [List<T, Alloc>] (a circular doubly linked list with an embedded
    sentinel), followed by the properties of the specification.

    Conventions.
    - [size_t] is a 64-bit unsigned integer: a [Z] in [0, 2^64) with the
      wrap-around of every [+=] written out ([wrap]).
    - A pointer into an arena's buffer is the pair of the arena's identity
      and the byte offset inside [buffer_]; pointer arithmetic is done on
      the offset in [Z].
    - Undefined behaviour of the C++ program (division by zero, a read
      through a pointer to no object) is an explicit outcome. *)

From stdpp Require Import base numbers option list gmap sets fin_maps.
From Stdlib Require Import ZArith Lia Znumtheory.

Local Open Scope Z_scope.

(** ** [StackStorage<N>] *)

Module Arena.

(** [size_t] arithmetic. *)
Definition size_max : Z := 2 ^ 64.
Definition wrap (z : Z) : Z := z mod size_max.

(** The arena object: [buffer_] is the byte range [0, N) addressed by
    offset, [start_index_] is the bump cursor. *)
Record StackStorage := { start_index_ : Z }.

(** [StackStorage() = default;] with [size_t start_index_{0};]. *)
Definition fresh : StackStorage := {| start_index_ := 0 |}.

(** Result of [allocate]: the offset of the returned [char*] inside
    [buffer_] and the arena afterwards, or [std::bad_alloc] with the arena
    afterwards, or undefined behaviour ([% 0]). *)
Inductive alloc_result :=
| Region (offset : Z) (s' : StackStorage)
| BadAlloc (s' : StackStorage)
| Undefined.

(** [char* allocate(size_t count, size_t alignment)], lines 18-28.
    [alignment - start_index_ % alignment] cannot wrap (the remainder is
    below [alignment]); the two [+=] can. The returned pointer is
    [buffer_ + start_index_ - count]: the two [size_t] operands move the
    address modulo [2^64], so the offset of the result from [buffer_] is
    [start_index_ - count] taken as a [size_t]. *)
Definition allocate (N : Z) (s : StackStorage) (count alignment : Z)
  : alloc_result :=
  if alignment =? 0 then Undefined else
  let at_start := start_index_ s in
  let advanced := wrap (at_start + count) in
  let padded :=
    wrap (advanced + (alignment - advanced mod alignment) mod alignment) in
  let at_end := padded in
  if at_end >=? N
  then BadAlloc {| start_index_ := at_start |}
  else Region (wrap (at_end - count)) {| start_index_ := at_end |}.

(** The arena after a call, whatever its result. *)
Definition state_after (s : StackStorage) (r : alloc_result) : StackStorage :=
  match r with
  | Region _ s' => s'
  | BadAlloc s' => s'
  | Undefined => s
  end.

(** A request, and the region a successful call hands out: [count] bytes
    from [offset]. *)
Record request := { req_count : Z; req_alignment : Z }.
Record region := { reg_offset : Z; reg_count : Z; reg_alignment : Z }.

Definition reg_end (r : region) : Z := reg_offset r + reg_count r.

(** A sequence of [allocate] calls on one arena, all of which succeed:
    the regions returned, in call order, and the final arena. [None] when
    some call does not return a region. *)
Fixpoint allocate_all (N : Z) (s : StackStorage) (reqs : list request)
  : option (list region * StackStorage) :=
  match reqs with
  | [] => Some ([], s)
  | q :: reqs' =>
      match allocate N s (req_count q) (req_alignment q) with
      | Region off s' =>
          match allocate_all N s' reqs' with
          | Some (rs, s'') =>
              Some ({| reg_offset := off; reg_count := req_count q;
                       reg_alignment := req_alignment q |} :: rs, s'')
          | None => None
          end
      | _ => None
      end
  end.

(** Two byte ranges share no byte. *)
Definition disjoint (r1 r2 : region) : Prop :=
  reg_end r1 <= reg_offset r2 \/ reg_end r2 <= reg_offset r1.

(** Pairwise disjointness of the regions of a call sequence. *)
Definition pairwise_disjoint (rs : list region) : Prop :=
  forall i j r1 r2, (i < j)%nat ->
    rs !! i = Some r1 -> rs !! j = Some r2 -> disjoint r1 r2.

(** Alignment of a region's first byte and of the byte after its last. *)
Definition start_aligned (r : region) : Prop :=
  reg_offset r mod reg_alignment r = 0.
Definition end_aligned (r : region) : Prop :=
  reg_end r mod reg_alignment r = 0.

(** A request whose arithmetic stays inside [size_t] for every cursor up to
    the capacity. *)
Definition in_range (N : Z) (q : request) : Prop :=
  0 <= req_count q /\ 0 < req_alignment q /\
  N + req_count q + req_alignment q <= size_max.

(** Where the cursor would stand after a request, computed over the
    integers: past [count] bytes and the padding. *)
Definition padded_end (s : StackStorage) (q : request) : Z :=
  start_index_ s + req_count q
  + (req_alignment q - (start_index_ s + req_count q) mod req_alignment q)
      mod req_alignment q.

End Arena.

(** ** [StackAllocator<T, N>] *)

Module Alloc.
Import Arena.

(** The identity of a [StackStorage] object is its address; [buffer_] is
    its first member, so byte [off] of the buffer is at address
    [id + off]. *)
Definition storage_id := Z.

(** A [T*] obtained from an arena: the arena and the offset in [buffer_]. *)
Definition arena_ptr : Type := storage_id * Z.

Definition address (p : arena_ptr) : Z := fst p + snd p.

(** [sizeof(T)] and [alignof(T)]. *)
Class Layout (T : Type) := { sizeof : Z; alignof : Z }.
Arguments sizeof T {_}.
Arguments alignof T {_}.

(** What the language guarantees of every object type: the alignment is a
    power of two and the size a positive multiple of it. *)
Definition layout_ok (T : Type) `{Layout T} : Prop :=
  (exists k, 0 <= k < 64 /\ alignof T = 2 ^ k) /\
  0 < sizeof T < size_max /\ sizeof T mod alignof T = 0.

(** The one data member, [StackStorage<N>* stack_storage_]; [None] is a
    pointer to no arena (null, or the value the defaulted default
    constructor leaves). The element type only selects [sizeof] and
    [alignof]. *)
Record StackAllocator (T : Type) := { stack_storage_ : option storage_id }.
Arguments stack_storage_ {T} _.

(** [StackAllocator(StackStorage<N>& stack_storage)], lines 47-48. *)
Definition from_storage {T} (id : storage_id) : StackAllocator T :=
  {| stack_storage_ := Some id |}.

(** The converting constructor from [StackAllocator<U, N>], lines 50-52;
    with [U = T] it is the copy constructor. *)
Definition convert {U} T (a : StackAllocator U) : StackAllocator T :=
  {| stack_storage_ := stack_storage_ a |}.

(** [get_storage()], line 79. *)
Definition get_storage {T} (a : StackAllocator T) : option storage_id :=
  stack_storage_ a.

(** [operator==] and [operator!=], lines 69-77. *)
Definition op_eq {T U} (a : StackAllocator T) (b : StackAllocator U) : bool :=
  bool_decide (get_storage a = get_storage b).

Definition op_ne {T U} (a : StackAllocator T) (b : StackAllocator U) : bool :=
  bool_decide (get_storage a <> get_storage b).

(** Result of the adaptor's [allocate] over the arenas of the program,
    which are kept by identity: the pointer or [std::bad_alloc], with the
    arenas afterwards, or undefined behaviour. *)
Inductive alloc_outcome :=
| Returns (p : arena_ptr) (m : gmap storage_id StackStorage)
| Throws (m : gmap storage_id StackStorage)
| UB.

(** [T* allocate(size_t count)], lines 54-57. The product
    [count * sizeof(T)] is a [size_t]. A null or dangling
    [stack_storage_] is undefined behaviour. *)
Definition allocate {T} `{Layout T} (N : Z) (a : StackAllocator T)
    (count : Z) (m : gmap storage_id StackStorage) : alloc_outcome :=
  match stack_storage_ a with
  | None => UB
  | Some id =>
      match m !! id with
      | None => UB
      | Some s =>
          match Arena.allocate N s (wrap (count * sizeof T)) (alignof T) with
          | Region off s' => Returns (id, off) (<[id := s']> m)
          | BadAlloc s' => Throws (<[id := s']> m)
          | Undefined => UB
          end
      end
  end.

(** [void deallocate(T* ptr, size_t count)], lines 59-62: both arguments
    are ignored. *)
Definition deallocate {T} (a : StackAllocator T) (ptr : arena_ptr)
    (count : Z) (m : gmap storage_id StackStorage)
  : gmap storage_id StackStorage := m.

(** [std::allocator_traits] members that [StackAllocator] does not declare
    take their defaults: a copy of the allocator, and [false_type]. *)
Definition select_on_container_copy_construction {T}
    (a : StackAllocator T) : StackAllocator T := convert T a.

Definition propagate_on_container_copy_assignment : bool := false.

End Alloc.

(** ** [List<T, StackAllocator<T, N>>] *)

Module ListModel.
Import Arena Alloc.

(** A [BaseNode*]: null, the [head_] member of the [List] object at an
    address, or the [BaseNode] base of a payload [Node] in an arena. *)
Inductive ptr :=
| nullptr
| PHead (l : Z)
| PNode (p : arena_ptr).

#[export] Instance ptr_eq_dec : EqDecision ptr.
Proof. solve_decision. Defined.

(** [struct BaseNode], lines 88-95. *)
Record BaseNode := { next : ptr; prev : ptr }.

#[export] Instance BaseNode_eq_dec : EqDecision BaseNode.
Proof. solve_decision. Defined.

(** [struct Node : BaseNode], lines 97-105. *)
Record Node (T : Type) := { base : BaseNode; value : T }.
Arguments base {T} _.
Arguments value {T} _.

(** The data members of [List], lines 337-339, after the private base
    [Alloc]. *)
Record List (T : Type) := {
  alloc : StackAllocator T;
  size_ : Z;
  head_ : BaseNode;
  node_allocator_ : StackAllocator (Node T)
}.
Arguments alloc {T} _.
Arguments size_ {T} _.
Arguments head_ {T} _.
Arguments node_allocator_ {T} _.

(** The store. [nodes] holds the payload nodes constructed in arena
    buffers and [lists] the [List] objects, by address. Two components
    observe the program without influencing it: [live] is the set of node
    regions handed out by [allocate] and not yet given to [deallocate],
    and [ctor_calls] counts the constructions of a [T] attempted so far. *)
Record World (T : Type) := {
  arenas : gmap storage_id StackStorage;
  nodes : gmap arena_ptr (Node T);
  lists : gmap Z (List T);
  live : gset arena_ptr;
  ctor_calls : nat
}.
Arguments arenas {T} _.
Arguments nodes {T} _.
Arguments lists {T} _.
Arguments live {T} _.
Arguments ctor_calls {T} _.

(** The two errors a list operation lets through: [std::bad_alloc] from
    the arena and whatever a constructor of [T] throws. *)
Inductive exn := bad_alloc | ctor_error.

Inductive outcome (T A : Type) :=
| Ok (a : A) (w : World T)
| Throw (e : exn) (w : World T)
| UB
| OutOfFuel.
Arguments Ok {T A} _ _.
Arguments Throw {T A} _ _.
Arguments UB {T A}.
Arguments OutOfFuel {T A}.

Definition M (T A : Type) : Type := World T -> outcome T A.

Definition ret {T A} (a : A) : M T A := fun w => Ok a w.

Definition bind {T A B} (m : M T A) (k : A -> M T B) : M T B :=
  fun w =>
    match m w with
    | Ok a w' => k a w'
    | Throw e w' => Throw e w'
    | UB => UB
    | OutOfFuel => OutOfFuel
    end.

Definition throw {T A} (e : exn) : M T A := fun w => Throw e w.

(** [try { m } catch (...) { h }]. *)
Definition try_catch {T A} (m : M T A) (h : exn -> M T A) : M T A :=
  fun w =>
    match m w with
    | Throw e w' => h e w'
    | r => r
    end.

#[local] Notation "'let*' x := m 'in' k" := (bind m (fun x => k))
  (at level 10, x name, m at level 100, k at level 200).
#[local] Notation "m ;;; k" := (bind m (fun _ => k))
  (at level 100, k at level 200, right associativity).

Section Store.
Context {T : Type}.

Definition set_arenas (m : gmap storage_id StackStorage) (w : World T) :=
  {| arenas := m; nodes := nodes w; lists := lists w; live := live w;
     ctor_calls := ctor_calls w |}.
Definition set_nodes (m : gmap arena_ptr (Node T)) (w : World T) :=
  {| arenas := arenas w; nodes := m; lists := lists w; live := live w;
     ctor_calls := ctor_calls w |}.
Definition set_lists (m : gmap Z (List T)) (w : World T) :=
  {| arenas := arenas w; nodes := nodes w; lists := m; live := live w;
     ctor_calls := ctor_calls w |}.
Definition set_live (s : gset arena_ptr) (w : World T) :=
  {| arenas := arenas w; nodes := nodes w; lists := lists w; live := s;
     ctor_calls := ctor_calls w |}.
Definition set_ctor_calls (n : nat) (w : World T) :=
  {| arenas := arenas w; nodes := nodes w; lists := lists w; live := live w;
     ctor_calls := n |}.

Definition with_head (b : BaseNode) (l : List T) : List T :=
  {| alloc := alloc l; size_ := size_ l; head_ := b;
     node_allocator_ := node_allocator_ l |}.
Definition with_size (n : Z) (l : List T) : List T :=
  {| alloc := alloc l; size_ := n; head_ := head_ l;
     node_allocator_ := node_allocator_ l |}.
Definition with_base (b : BaseNode) (n : Node T) : Node T :=
  {| base := b; value := value n |}.

(** The [BaseNode] a pointer designates, if it designates one. *)
Definition get_base (w : World T) (p : ptr) : option BaseNode :=
  match p with
  | nullptr => None
  | PHead l => head_ <$> lists w !! l
  | PNode q => base <$> nodes w !! q
  end.

(** The store after [f] has been applied to the [BaseNode] at [p]. *)
Definition update_base (f : BaseNode -> BaseNode) (p : ptr) (w : World T)
  : World T :=
  match p with
  | nullptr => w
  | PHead l =>
      set_lists (alter (fun o => with_head (f (head_ o)) o) l (lists w)) w
  | PNode q =>
      set_nodes (alter (fun n => with_base (f (base n)) n) q (nodes w)) w
  end.

Definition set_next (v : ptr) (b : BaseNode) : BaseNode :=
  {| next := v; prev := prev b |}.
Definition set_prev (v : ptr) (b : BaseNode) : BaseNode :=
  {| next := next b; prev := v |}.

(** [p->next], [p->prev] as rvalues. *)
Definition read_next (p : ptr) : M T ptr :=
  fun w => match get_base w p with Some b => Ok (next b) w | None => UB end.
Definition read_prev (p : ptr) : M T ptr :=
  fun w => match get_base w p with Some b => Ok (prev b) w | None => UB end.

(** [p->next = v], [p->prev = v]. *)
Definition write_next (p v : ptr) : M T unit :=
  fun w =>
    match get_base w p with
    | Some _ => Ok tt (update_base (set_next v) p w)
    | None => UB
    end.
Definition write_prev (p v : ptr) : M T unit :=
  fun w =>
    match get_base w p with
    | Some _ => Ok tt (update_base (set_prev v) p w)
    | None => UB
    end.

(** [*this] of a member function. *)
Definition get_list (this : Z) : M T (List T) :=
  fun w => match lists w !! this with Some l => Ok l w | None => UB end.
Definition put_list (this : Z) (l : List T) : M T unit :=
  fun w => Ok tt (set_lists (<[this := l]> (lists w)) w).

(** [static_cast<Node*>(node_)], used where the node is then accessed. *)
Definition as_node (p : ptr) : M T arena_ptr :=
  fun w =>
    match p with
    | PNode q => match nodes w !! q with Some _ => Ok q w | None => UB end
    | _ => UB
    end.

End Store.

Section Operations.
Context {T : Type} {node_layout : Layout (Node T)}.

(** The template parameter [N] of [StackAllocator<T, N>]. *)
Variable N : Z.
(** Whether the construction of a [T] that follows [n] earlier ones
    throws. *)
Variable ctor_throws : nat -> bool.
(** The value of a value-initialised [T]. *)
Variable default_value : T.

(** *** The rebound node allocator *)

(** [NodeAllocTraits::allocate(node_allocator_, count)]. *)
Definition node_allocate (a : StackAllocator (Node T)) (count : Z)
  : M T arena_ptr :=
  fun w =>
    match Alloc.allocate N a count (arenas w) with
    | Returns p m => Ok p (set_live ({[p]} ∪ live w) (set_arenas m w))
    | Throws m => Throw bad_alloc (set_arenas m w)
    | Alloc.UB => UB
    end.

(** [NodeAllocTraits::deallocate(node_allocator_, p, count)]. *)
Definition node_deallocate (a : StackAllocator (Node T)) (p : arena_ptr)
    (count : Z) : M T unit :=
  fun w =>
    Ok tt (set_live (live w ∖ {[p]})
             (set_arenas (Alloc.deallocate a p count (arenas w)) w)).

(** [NodeAllocTraits::construct(node_allocator_, p, args...)]: placement
    new of [Node()] ([arg = None]) or [Node(const T&)]; the links of the
    new node are null. *)
Definition construct (p : arena_ptr) (arg : option T) : M T unit :=
  fun w =>
    let w1 := set_ctor_calls (S (ctor_calls w)) w in
    if ctor_throws (ctor_calls w) then Throw ctor_error w1
    else
      let n := {| base := {| next := nullptr; prev := nullptr |};
                  value := default default_value arg |} in
      Ok tt (set_nodes (<[p := n]> (nodes w1)) w1).

(** [NodeAllocTraits::destroy(node_allocator_, p)]. *)
Definition destroy (p : arena_ptr) : M T unit :=
  fun w => Ok tt (set_nodes (delete p (nodes w)) w).

(** *** Iterators, lines 117-197 *)

(** [begin()], [end()]: an iterator is its [node_]. *)
Definition begin (this : Z) : M T ptr := read_next (PHead this).
Definition end_ (this : Z) : ptr := PHead this.

(** [operator++], [operator--], [operator*]. *)
Definition incr (it : ptr) : M T ptr := read_next it.
Definition decr (it : ptr) : M T ptr := read_prev it.
Definition deref (it : ptr) : M T T :=
  let* q := as_node it in
  fun w => match nodes w !! q with Some n => Ok (value n) w | None => UB end.

(** [std::reverse_iterator<iterator>]: it holds [current]; dereferencing
    reads the element before [current], incrementing decrements
    [current]. *)
Record reverse_iterator := { current : ptr }.

Definition rbegin (this : Z) : M T reverse_iterator :=
  ret {| current := end_ this |}.
Definition rend (this : Z) : M T reverse_iterator :=
  let* b := begin this in ret {| current := b |}.
Definition rev_deref (r : reverse_iterator) : M T T :=
  let* tmp := decr (current r) in deref tmp.
Definition rev_incr (r : reverse_iterator) : M T reverse_iterator :=
  let* c := decr (current r) in ret {| current := c |}.

(** *** Single-element mutation *)

Definition add_size (this : Z) (d : Z) : M T unit :=
  let* l := get_list this in
  put_list this (with_size (wrap (size_ l + d)) l).

(** [InsertHelper(it, args...)], lines 296-319. [StackAllocator] derives
    from [do_not_slow], so the [if constexpr] block is discarded. *)
Definition InsertHelper (this : Z) (it : ptr) (arg : option T) : M T unit :=
  let* l := get_list this in
  let* new_node := node_allocate (node_allocator_ l) 1 in
  try_catch (construct new_node arg)
    (fun e => node_deallocate (node_allocator_ l) new_node 1 ;;; throw e) ;;;
  let* prev := read_prev it in
  let next := it in
  write_prev (PNode new_node) prev ;;;
  write_next (PNode new_node) next ;;;
  write_prev next (PNode new_node) ;;;
  write_next prev (PNode new_node) ;;;
  add_size this 1.

(** [insert], [push_back], [push_front], lines 266-270. *)
Definition insert (this : Z) (it : ptr) (v : T) : M T unit :=
  InsertHelper this it (Some v).
Definition push_back (this : Z) (v : T) : M T unit :=
  insert this (end_ this) v.
Definition push_front (this : Z) (v : T) : M T unit :=
  let* b := begin this in insert this b v.

(** [erase(it)], lines 276-289. *)
Definition erase (this : Z) (it : ptr) : M T unit :=
  let* p := read_prev it in
  let* n := read_next it in
  write_prev n p ;;;
  let* n' := read_next it in
  let* p' := read_prev it in
  write_next p' n' ;;;
  let* l := get_list this in
  let* q := as_node it in
  destroy q ;;;
  node_deallocate (node_allocator_ l) q 1 ;;;
  add_size this (-1).

(** [pop_back], [pop_front], lines 272-274. *)
Definition pop_back (this : Z) : M T unit :=
  let* it := decr (end_ this) in erase this it.
Definition pop_front (this : Z) : M T unit :=
  let* it := begin this in erase this it.

Definition size (this : Z) : M T Z :=
  let* l := get_list this in ret (size_ l).

Definition get_allocator (this : Z) : M T (StackAllocator T) :=
  let* l := get_list this in ret (convert T (alloc l)).

(** [Destroy(size)], lines 330-334. *)
Fixpoint repeat_pop_back (this : Z) (n : nat) : M T unit :=
  match n with
  | O => ret tt
  | S n' => pop_back this ;;; repeat_pop_back this n'
  end.
Definition Destroy (this : Z) (size : Z) : M T unit :=
  repeat_pop_back this (Z.to_nat size).

(** *** Construction and destruction *)

(** [List(const Alloc& alloc)], line 206: the base [Alloc], [size_{0}],
    [node_allocator_{get_allocator()}], then the sentinel is closed on
    itself. *)
Definition List_alloc (this : Z) (a : StackAllocator T) : M T unit :=
  put_list this
    {| alloc := convert T a; size_ := 0;
       head_ := {| next := PHead this; prev := PHead this |};
       node_allocator_ := convert (Node T) a |}.

(** [List()], line 200: the allocator is default-initialised. *)
Definition List_default (this : Z) : M T unit :=
  List_alloc this {| stack_storage_ := None |}.

(** The end of the object's lifetime. *)
Definition end_lifetime (this : Z) : M T unit :=
  fun w => Ok tt (set_lists (delete this (lists w)) w).

(** [~List()], line 251, followed by the release of the object. *)
Definition destructor (this : Z) : M T unit :=
  let* l := get_list this in
  Destroy this (size_ l) ;;;
  end_lifetime this.

(** A loop that maintains the local [count]: its value when the loop is
    left, normally or not, and the outcome. *)
Definition counted (A : Type) : Type := World T -> Z * outcome T A.

(** [try { loop } catch (...) { Destroy(count); throw; }] in the body of a
    constructor that delegated to [List(alloc)]: the rethrown exception
    leaves a constructor whose target constructor has completed, so the
    destructor of the object runs before the exception propagates. *)
Definition guarded (this : Z) (loop : counted unit) : M T unit :=
  fun w =>
    match loop w with
    | (count, Throw e w') =>
        (Destroy this count ;;; destructor this ;;; throw e) w'
    | (_, r) => r
    end.

(** [while (count < size) { body; ++count; }], entered with [todo] rounds
    to go. *)
Fixpoint fill (body : M T unit) (todo : nat) (count : Z) : counted unit :=
  fun w =>
    match todo with
    | O => (count, Ok tt w)
    | S todo' =>
        match body w with
        | Ok _ w' => fill body todo' (count + 1) w'
        | r => (count, r)
        end
    end.

(** [List(size_t size, const Alloc& alloc)], lines 208-219. *)
Definition List_size_alloc (this : Z) (size : Z) (a : StackAllocator T)
  : M T unit :=
  List_alloc this a ;;;
  guarded this
    (fill (InsertHelper this (end_ this) None) (Z.to_nat size) 0).

(** [List(size_t size, const T& value, const Alloc& alloc)],
    lines 221-232. *)
Definition List_size_value_alloc (this : Z) (size : Z) (v : T)
    (a : StackAllocator T) : M T unit :=
  List_alloc this a ;;;
  guarded this (fill (push_back this v) (Z.to_nat size) 0).

(** [for (const auto& value : other) { push_back(value); ++count; }] from
    the iterator [it] up to [last]. The traversal follows the links of
    the store, so it is bounded by [fuel]. *)
Fixpoint copy_elements (fuel : nat) (this : Z) (it last : ptr) (count : Z)
  : counted unit :=
  fun w =>
    match fuel with
    | O => (count, OutOfFuel)
    | S fuel' =>
        if decide (it = last) then (count, Ok tt w)
        else
          match (let* v := deref it in
                 push_back this v ;;; incr it) w with
          | Ok it' w' => copy_elements fuel' this it' last (count + 1) w'
          | Throw e w' => (count, Throw e w')
          | UB => (count, UB)
          | OutOfFuel => (count, OutOfFuel)
          end
    end.

(** [List(const List& other)], lines 236-249. *)
Definition List_copy (fuel : nat) (this other : Z) : M T unit :=
  let* o := get_list other in
  List_alloc this (select_on_container_copy_construction (alloc o)) ;;;
  let* b := begin other in
  guarded this (copy_elements fuel this b (end_ other) 0).

(** *** Copy assignment *)

(** [std::swap] of two [prev] members, and of two [next] members. *)
Definition swap_prev (x y : ptr) : M T unit :=
  let* vx := read_prev x in
  let* vy := read_prev y in
  write_prev x vy ;;;
  write_prev y vx.
Definition swap_next (x y : ptr) : M T unit :=
  let* vx := read_next x in
  let* vy := read_next y in
  write_next x vy ;;;
  write_next y vx.

(** [Swap(other)], lines 321-328. Lines 322-325 exchange the four members
    of the two objects; lines 326 and 327 then exchange one link of the
    node after each sentinel and one link of the node before it. *)
Definition Swap (this other : Z) : M T unit :=
  let* a := get_list this in
  let* b := get_list other in
  put_list this b ;;;
  put_list other a ;;;
  let* x := read_next (PHead this) in
  let* y := read_next (PHead other) in
  swap_prev x y ;;;
  let* x' := read_prev (PHead this) in
  let* y' := read_prev (PHead other) in
  swap_next x' y'.

(** [operator=(const List& other)], lines 253-262. [new_list] is the
    address of the local list; it is destroyed when the scope is left,
    also by an exception of the loop. *)
Definition copy_assign (fuel : nat) (this other new_list : Z) : M T unit :=
  let* a := (if propagate_on_container_copy_assignment
             then get_allocator other else get_allocator this) in
  List_alloc new_list a ;;;
  let* b := begin other in
  try_catch
    (fun w => snd (copy_elements fuel new_list b (end_ other) 0 w))
    (fun e => destructor new_list ;;; throw e) ;;;
  Swap this new_list ;;;
  destructor new_list.

(** *** Traversals by a client *)

(** The number of [++it] that take [it] to [last]. *)
Fixpoint steps (fuel : nat) (it last : ptr) : M T nat :=
  match fuel with
  | O => fun _ => OutOfFuel
  | S fuel' =>
      if decide (it = last) then ret O
      else let* it' := incr it in
           let* n := steps fuel' it' last in ret (S n)
  end.

(** The elements a [for (; it != last; ++it)] loop reads through [it]. *)
Fixpoint visit (fuel : nat) (it last : ptr) : M T (list T) :=
  match fuel with
  | O => fun _ => OutOfFuel
  | S fuel' =>
      if decide (it = last) then ret []
      else let* v := deref it in
           let* it' := incr it in
           let* vs := visit fuel' it' last in ret (v :: vs)
  end.

(** The same loop over reverse iterators; two of them are equal when
    their [current] are. *)
Fixpoint rev_visit (fuel : nat) (r last : reverse_iterator) : M T (list T) :=
  match fuel with
  | O => fun _ => OutOfFuel
  | S fuel' =>
      if decide (current r = current last) then ret []
      else let* v := rev_deref r in
           let* r' := rev_incr r in
           let* vs := rev_visit fuel' r' last in ret (v :: vs)
  end.

(** The elements from [begin()] to [end()], and from [rbegin()] to
    [rend()]. *)
Definition forward (fuel : nat) (this : Z) : M T (list T) :=
  let* b := begin this in visit fuel b (end_ this).
Definition backward (fuel : nat) (this : Z) : M T (list T) :=
  let* rb := rbegin this in
  let* re := rend this in
  rev_visit fuel rb re.
Definition distance (fuel : nat) (this : Z) : M T nat :=
  let* b := begin this in steps fuel b (end_ this).

End Operations.

(** *** The ring and the store invariant *)

Section Invariants.
Context {T : Type} {node_layout : Layout (Node T)}.

Definition next_of (w : World T) (p : ptr) : option ptr :=
  next <$> get_base w p.
Definition prev_of (w : World T) (p : ptr) : option ptr :=
  prev <$> get_base w p.

(** Each element of [l] but the last is sent by [f] to its successor. *)
Fixpoint chain {A : Type} (f : A -> option A) (l : list A) : Prop :=
  match l with
  | a :: l' =>
      match l' with
      | b :: _ => f a = Some b /\ chain f l'
      | [] => True
      end
  | [] => True
  end.

(** The sentinel at [s] and the payload nodes [ps], in this order, form
    one ring: [next] leads through [s, ps, s] and [prev] through the same
    cycle backwards. *)
Definition ring (w : World T) (s : Z) (ps : list arena_ptr) : Prop :=
  chain (next_of w) (PHead s :: (PNode <$> ps) ++ [PHead s]) /\
  chain (prev_of w) (PHead s :: (PNode <$> reverse ps) ++ [PHead s]).

(** The ring invariant as the data model words it, at one node [X]:
    [X.next.prev == X] and [X.prev.next == X]. *)
Definition closed_at (w : World T) (X : ptr) : Prop :=
  (exists n, next_of w X = Some n /\ prev_of w n = Some X) /\
  (exists p, prev_of w X = Some p /\ next_of w p = Some X).

(** The [List] object at [this] is well formed and holds the values [vs]
    in the payload nodes [ps]: the ring, distinct nodes that the list
    obtained from its allocator and has not given back, and a size field
    equal to their number. *)
Record is_list (w : World T) (this : Z) (ps : list arena_ptr)
    (vs : list T) : Prop := {
  il_ring : ring w this ps;
  il_nodup : NoDup ps;
  il_values : Forall2 (fun p v => value <$> nodes w !! p = Some v) ps vs;
  il_size : size_ <$> lists w !! this = Some (Z.of_nat (length ps));
  il_bound : Z.of_nat (length ps) < size_max;
  il_live : forall p, p ∈ ps -> p ∈ live w
}.

(** The node allocator of the list at [this] views the arena [id], which
    exists. *)
Definition allocates_from (w : World T) (this : Z) (id : storage_id) : Prop :=
  node_allocator_ <$> lists w !! this = Some {| stack_storage_ := Some id |} /\
  is_Some (arenas w !! id).

(** An arena pointer lies in the part of its arena the cursor has
    passed. *)
Definition below_cursor (w : World T) (p : arena_ptr) : Prop :=
  exists s, arenas w !! p.1 = Some s /\ p.2 < start_index_ s.

(** The store invariant for capacity [N]: cursors stay within the buffer,
    and every constructed node and every outstanding region lies below
    the cursor of its arena. *)
Record wf_world (N : Z) (w : World T) : Prop := {
  wf_cursor : forall id s, arenas w !! id = Some s -> 0 <= start_index_ s <= N;
  wf_nodes : forall p, is_Some (nodes w !! p) -> below_cursor w p;
  wf_live : forall p, p ∈ live w -> below_cursor w p
}.

(** A node request stays inside [size_t] and asks for at least a byte. *)
Definition node_fits (N : Z) : Prop :=
  0 < sizeof (Node T) /\
  in_range N {| req_count := sizeof (Node T);
                req_alignment := alignof (Node T) |}.

(** The node after the sentinel and the node before it. *)
Definition first_of (s : Z) (ps : list arena_ptr) : ptr :=
  default (PHead s) (PNode <$> head ps).
Definition last_of (s : Z) (ps : list arena_ptr) : ptr :=
  default (PHead s) (PNode <$> last ps).

(** The allocator base of the list at [l] views the arena [id], which
    exists. *)
Definition base_allocator (w : World T) (l : Z) (id : storage_id) : Prop :=
  alloc <$> lists w !! l = Some {| stack_storage_ := Some id |} /\
  is_Some (arenas w !! id).

(** [w'] differs from [w] at most in the list objects [Ls], in the nodes
    [Qs], and in what is outstanding among [Qs]; no arena appears or
    disappears. *)
Record only_changes (Ls : list Z) (Qs : list arena_ptr) (w w' : World T)
  : Prop := {
  oc_lists : forall l, l ∉ Ls -> lists w' !! l = lists w !! l;
  oc_nodes : forall q, q ∉ Qs -> nodes w' !! q = nodes w !! q;
  oc_live : forall q, q ∉ Qs -> q ∈ live w' <-> q ∈ live w;
  oc_arenas : forall id, is_Some (arenas w' !! id) <-> is_Some (arenas w !! id)
}.

(** The list at [this] has been built in [w] from a store [w0] in which it
    was empty: its nodes [qs] were all obtained since, and nothing else
    has changed. *)
Record built (N : Z) (w0 w : World T) (this : Z) (id : storage_id)
    (qs : list arena_ptr) (us : list T) : Prop := {
  b_list : is_list w this qs us;
  b_wf : wf_world N w;
  b_alloc : allocates_from w this id;
  b_fresh : forall q, q ∈ qs -> nodes w0 !! q = None /\ q ∉ live w0;
  b_changes : only_changes [this] qs w0 w;
  b_live : live w = list_to_set qs ∪ live w0
}.

(** The store a failed operation leaves is the one it found, up to the
    arena cursors and the count of constructions: the same nodes, the same
    list objects and the same outstanding regions. *)
Definition restored (N : Z) (w w' : World T) : Prop :=
  nodes w' = nodes w /\ lists w' = lists w /\ live w' = live w /\
  wf_world N w'.

(** Operations that let no exception through. *)
Definition never_throws {A} (m : M T A) : Prop :=
  forall w e w', m w <> Throw e w'.

(** The invariants in a form that is decided by computation on a concrete
    store. *)
Definition is_list_check (w : World T) (s : Z) (ps : list arena_ptr)
    (vs : list T) : Prop :=
  ring w s ps /\ NoDup ps /\
  Forall2 (fun p v => value <$> nodes w !! p = Some v) ps vs /\
  size_ <$> lists w !! s = Some (Z.of_nat (length ps)) /\
  Z.of_nat (length ps) < size_max /\
  Forall (fun p => p ∈ live w) ps.

Definition wf_world_check (N : Z) (w : World T) : Prop :=
  map_Forall (fun _ s => 0 <= start_index_ s <= N) (arenas w) /\
  map_Forall (fun p _ => below_cursor w p) (nodes w) /\
  set_Forall (below_cursor w) (live w).

#[export] Instance chain_dec {A} `{EqDecision A} (f : A -> option A) l :
  Decision (chain f l).
Proof.
  induction l as [|a l IH]; [left; exact I|].
  destruct l as [|b l]; [left; exact I|].
  simpl. simpl in IH. apply _.
Defined.

#[export] Instance ring_dec (w : World T) s ps : Decision (ring w s ps).
Proof. unfold ring. apply _. Defined.

#[export] Instance below_cursor_dec (w : World T) p :
  Decision (below_cursor w p).
Proof.
  unfold below_cursor. destruct (arenas w !! p.1) as [s|].
  - destruct (decide (p.2 < start_index_ s)) as [H|H].
    + left. exists s. split; [reflexivity|exact H].
    + right. intros (s' & [= <-] & H'). contradiction.
  - right. intros (s' & E & _). discriminate.
Defined.

#[export] Instance is_list_check_dec `{EqDecision T} w s ps vs :
  Decision (is_list_check w s ps vs).
Proof. unfold is_list_check. apply _. Defined.

#[export] Instance wf_world_check_dec N w : Decision (wf_world_check N w).
Proof. unfold wf_world_check. apply _. Defined.

(** Operations that, when they return, have changed neither an arena nor
    the node allocator of a list. *)
Definition keeps_allocators {A} (m : M T A) : Prop :=
  forall w a w', m w = Ok a w' ->
    arenas w' = arenas w /\
    forall l, node_allocator_ <$> lists w' !! l
              = node_allocator_ <$> lists w !! l.

End Invariants.

End ListModel.

(** ** Concrete stores: [List<int, StackAllocator<int, N>>] on one arena *)

Module Scenario.
Import Arena Alloc ListModel.

(** [Node] of an [int] on a 64-bit target: two pointers and the value,
    padded to the alignment of a pointer. *)
#[export] Instance int_node_layout : Layout (Node Z) :=
  {| sizeof := 24; alignof := 8 |}.

(** The arena object sits at address 4096. *)
Definition arena : storage_id := 4096.
Definition A : StackAllocator Z := from_storage arena.

(** No constructor of [int] throws; [throws_at k] makes the construction
    that follows [k] earlier ones throw. *)
Definition never : nat -> bool := fun _ => false.
Definition throws_at (k : nat) : nat -> bool := fun n => Nat.eqb n k.

(** A fresh arena and nothing else. *)
Definition empty_store : World Z :=
  {| arenas := {[ arena := fresh ]}; nodes := ∅; lists := ∅; live := ∅;
     ctor_calls := 0 |}.

Definition int_node (nx pv : ptr) (v : Z) : Node Z :=
  {| base := {| next := nx; prev := pv |}; value := v |}.

Definition int_list (n : Z) (first last : ptr) : List Z :=
  {| alloc := A; size_ := n; head_ := {| next := first; prev := last |};
     node_allocator_ := from_storage arena |}.

(** The list [5, 10] at address 100, in the first 48 bytes of the arena. *)
Definition two_elements : World Z :=
  {| arenas := {[ arena := {| start_index_ := 48 |} ]};
     nodes := <[ (arena, 0) := int_node (PNode (arena, 24)) (PHead 100) 5 ]>
                (<[ (arena, 24) :=
                      int_node (PHead 100) (PNode (arena, 0)) 10 ]> ∅);
     lists := {[ 100 := int_list 2 (PNode (arena, 0)) (PNode (arena, 24)) ]};
     live := {[ (arena, 0); (arena, 24) ]};
     ctor_calls := 2 |}.

(** An empty list at address 100 and the list [7] at address 200. *)
Definition empty_and_one : World Z :=
  {| arenas := {[ arena := {| start_index_ := 24 |} ]};
     nodes := {[ (arena, 0) := int_node (PHead 200) (PHead 200) 7 ]};
     lists := <[ 100 := int_list 0 (PHead 100) (PHead 100) ]>
                {[ 200 := int_list 1 (PNode (arena, 0)) (PNode (arena, 0)) ]};
     live := {[ (arena, 0) ]};
     ctor_calls := 1 |}.

(** Three requests on a fresh arena of 64 bytes and the regions they get. *)
Definition three_requests : list request :=
  [ {| req_count := 3; req_alignment := 4 |};
    {| req_count := 8; req_alignment := 8 |};
    {| req_count := 1; req_alignment := 1 |} ].
Definition three_regions : list region :=
  [ {| reg_offset := 1; reg_count := 3; reg_alignment := 4 |};
    {| reg_offset := 8; reg_count := 8; reg_alignment := 8 |};
    {| reg_offset := 16; reg_count := 1; reg_alignment := 1 |} ].

(** The store after [l100 = l200] on [empty_and_one], with the temporary
    at address 300: the copy of 7 at offset 24 is linked to the sentinel of
    the temporary, not to that of the target. *)
Definition after_assignment : World Z :=
  {| arenas := {[ arena := {| start_index_ := 48 |} ]};
     nodes := <[ (arena, 0) := int_node (PHead 200) (PHead 200) 7 ]>
                {[ (arena, 24) := int_node (PHead 300) (PNode (arena, 24)) 7 ]};
     lists := <[ 100 := int_list 1 (PHead 100) (PHead 300) ]>
                {[ 200 := int_list 1 (PNode (arena, 0)) (PNode (arena, 0)) ]};
     live := {[ (arena, 0); (arena, 24) ]};
     ctor_calls := 2 |}.

(** The store after [List(5, 9, A)] at address 100 has failed at its
    third element. *)
Definition after_failed_constructor : World Z :=
  {| arenas := {[ arena := {| start_index_ := 72 |} ]};
     nodes := ∅; lists := ∅; live := ∅; ctor_calls := 3 |}.

(** The store after [l = l] on [two_elements] with the temporary at
    address 300: the elements now live in two new nodes. *)
Definition after_self_assignment : World Z :=
  {| arenas := {[ arena := {| start_index_ := 96 |} ]};
     nodes := <[ (arena, 48) := int_node (PNode (arena, 72)) (PHead 100) 5 ]>
                {[ (arena, 72) :=
                     int_node (PHead 100) (PNode (arena, 48)) 10 ]};
     lists := {[ 100 := int_list 2 (PNode (arena, 48)) (PNode (arena, 72)) ]};
     live := {[ (arena, 48); (arena, 72) ]};
     ctor_calls := 4 |}.

(** The list [1, 5, 10] at address 100, and what [pop_back] leaves of it. *)
Definition three_elements : World Z :=
  {| arenas := {[ arena := {| start_index_ := 72 |} ]};
     nodes :=
       <[ (arena, 0) := int_node (PNode (arena, 24)) (PNode (arena, 48)) 5 ]>
         (<[ (arena, 24) := int_node (PHead 100) (PNode (arena, 0)) 10 ]>
            {[ (arena, 48) := int_node (PNode (arena, 0)) (PHead 100) 1 ]});
     lists := {[ 100 := int_list 3 (PNode (arena, 48)) (PNode (arena, 24)) ]};
     live := {[ (arena, 0); (arena, 24); (arena, 48) ]};
     ctor_calls := 3 |}.

Definition after_pop_back : World Z :=
  {| arenas := {[ arena := {| start_index_ := 72 |} ]};
     nodes :=
       <[ (arena, 0) := int_node (PHead 100) (PNode (arena, 48)) 5 ]>
         {[ (arena, 48) := int_node (PNode (arena, 0)) (PHead 100) 1 ]};
     lists := {[ 100 := int_list 2 (PNode (arena, 48)) (PNode (arena, 0)) ]};
     live := {[ (arena, 0); (arena, 48) ]};
     ctor_calls := 3 |}.

(** An [int] on the same target. *)
#[export] Instance int_layout : Layout Z := {| sizeof := 4; alignof := 4 |}.

(** An element type aligned to 32 bytes, more than [std::max_align_t]
    asks for, and the address of an arena object that is a multiple of
    16 and not of 32. *)
Inductive Wide := wide (lanes : Z).

#[export] Instance wide_layout : Layout Wide :=
  {| sizeof := 32; alignof := 32 |}.

Definition arena_at_4112 : storage_id := 4112.

(** A second arena object, at address 8192. *)
Definition arena_b : storage_id := 8192.

(** An empty list at address 100 and the list [5, 10] at address 200. *)
Definition empty_and_two : World Z :=
  {| arenas := {[ arena := {| start_index_ := 48 |} ]};
     nodes := <[ (arena, 0) := int_node (PNode (arena, 24)) (PHead 200) 5 ]>
                {[ (arena, 24) :=
                     int_node (PHead 200) (PNode (arena, 0)) 10 ]};
     lists := <[ 100 := int_list 0 (PHead 100) (PHead 100) ]>
                {[ 200 := int_list 2 (PNode (arena, 0)) (PNode (arena, 24)) ]};
     live := {[ (arena, 0); (arena, 24) ]};
     ctor_calls := 2 |}.

(** The list [5] at address 100 on [arena] and the list [7] at address
    200 on [arena_b], each with the allocator of its own arena. *)
Definition two_arenas : World Z :=
  {| arenas := <[ arena := {| start_index_ := 24 |} ]>
                 {[ arena_b := {| start_index_ := 24 |} ]};
     nodes := <[ (arena, 0) := int_node (PHead 100) (PHead 100) 5 ]>
                {[ (arena_b, 0) := int_node (PHead 200) (PHead 200) 7 ]};
     lists :=
       <[ 100 := int_list 1 (PNode (arena, 0)) (PNode (arena, 0)) ]>
         {[ 200 := {| alloc := from_storage arena_b; size_ := 1;
                      head_ := {| next := PNode (arena_b, 0);
                                  prev := PNode (arena_b, 0) |};
                      node_allocator_ := from_storage arena_b |} ]};
     live := {[ (arena, 0); (arena_b, 0) ]};
     ctor_calls := 2 |}.

(** The lists [5] at address 100 and [7] at address 200 on one arena. *)
Definition two_lists : World Z :=
  {| arenas := {[ arena := {| start_index_ := 48 |} ]};
     nodes := <[ (arena, 0) := int_node (PHead 100) (PHead 100) 5 ]>
                {[ (arena, 24) := int_node (PHead 200) (PHead 200) 7 ]};
     lists := <[ 100 := int_list 1 (PNode (arena, 0)) (PNode (arena, 0)) ]>
                {[ 200 := int_list 1 (PNode (arena, 24)) (PNode (arena, 24)) ]};
     live := {[ (arena, 0); (arena, 24) ]};
     ctor_calls := 2 |}.

End Scenario.


(** ** Facts about [StackStorage::allocate] *)

Module ArenaFacts.
Import Arena.

(** The padding [(alignment - x % alignment) % alignment] is below the
    alignment and brings [x] to the next multiple of it. *)
Lemma padding_bounds x a :
  0 < a -> 0 <= (a - x mod a) mod a < a.
Proof. intros Ha. apply Z.mod_pos_bound. exact Ha. Qed.

Lemma padding_aligns x a :
  0 < a -> (x + (a - x mod a) mod a) mod a = 0.
Proof.
  intros Ha.
  rewrite Zplus_mod_idemp_r.
  replace (x + (a - x mod a)) with ((x / a + 1) * a)
    by (pose proof (Z.div_mod x a); lia).
  apply Z_mod_mult.
Qed.

Lemma wrap_small z : 0 <= z < size_max -> wrap z = z.
Proof. intros H. unfold wrap. apply Z.mod_small. exact H. Qed.

(** Inside [size_t] the function is the one over the integers. *)
Lemma allocate_in_range N s count alignment :
  0 <= start_index_ s <= N ->
  in_range N {| req_count := count; req_alignment := alignment |} ->
  allocate N s count alignment =
    let at_end := start_index_ s + count
                  + (alignment - (start_index_ s + count) mod alignment)
                      mod alignment in
    if at_end >=? N then BadAlloc s
    else Region (at_end - count) {| start_index_ := at_end |}.
Proof.
  intros Hs (Hc & Ha & Hfit). simpl in *.
  unfold allocate.
  destruct (Z.eqb_spec alignment 0) as [->|_]; [lia|].
  pose proof (padding_bounds (start_index_ s + count) alignment Ha) as Hp.
  rewrite (wrap_small (start_index_ s + count)) by lia.
  rewrite wrap_small by lia.
  match goal with
  | |- context [wrap (?x - count)] => rewrite (wrap_small (x - count)) by lia
  end.
  cbv zeta. destruct s as [c]. reflexivity.
Qed.

(** One successful call: where the region lies and what it costs. *)
Lemma allocate_region N s count alignment off s' :
  0 <= start_index_ s <= N ->
  in_range N {| req_count := count; req_alignment := alignment |} ->
  allocate N s count alignment = Region off s' ->
  start_index_ s <= off /\
  off + count = start_index_ s' /\
  start_index_ s' < N /\
  (start_index_ s' mod alignment = 0).
Proof.
  intros Hs Hq H.
  rewrite (allocate_in_range N s count alignment Hs Hq) in H.
  destruct Hq as (Hc & Ha & Hfit). simpl in *.
  pose proof (padding_bounds (start_index_ s + count) alignment Ha) as Hp.
  pose proof (padding_aligns (start_index_ s + count) alignment Ha) as Hal.
  cbv zeta in H.
  destruct (Z.geb_spec
    (start_index_ s + count
     + (alignment - (start_index_ s + count) mod alignment) mod alignment) N)
    as [Hge|Hlt]; [discriminate|].
  injection H as <- <-. simpl. repeat split; first [lia | exact Hal].
Qed.

(** A failed call restores the cursor (line 24). *)
Lemma allocate_bad_alloc N s count alignment s' :
  allocate N s count alignment = BadAlloc s' -> s' = s.
Proof.
  unfold allocate. destruct (alignment =? 0); [discriminate|].
  cbv zeta.
  destruct (_ >=? N); [|discriminate].
  intros H. injection H as <-. destruct s. reflexivity.
Qed.

Lemma allocate_all_cursor N s reqs rs s' :
  0 <= start_index_ s <= N ->
  Forall (in_range N) reqs ->
  allocate_all N s reqs = Some (rs, s') ->
  start_index_ s <= start_index_ s' <= N /\
  Forall (fun r => start_index_ s <= reg_offset r /\
                   reg_end r <= start_index_ s') rs.
Proof.
  revert s rs s'. induction reqs as [|q reqs IH]; intros s rs s' Hs Hall H.
  - injection H as <- <-. split; [lia|constructor].
  - simpl in H. inversion Hall as [|? ? Hq Hall']; subst.
    destruct (allocate N s (req_count q) (req_alignment q))
      as [off s1| |] eqn:Ha; try discriminate.
    destruct (allocate_all N s1 reqs) as [[rs1 s2]|] eqn:Hrest;
      [|discriminate].
    injection H as <- <-.
    destruct q as [c a].
    destruct (allocate_region _ _ _ _ _ _ Hs Hq Ha) as (H1 & H2 & H3 & _).
    assert (0 <= c) as Hc0 by (destruct Hq as (? & _); assumption).
    simpl in *.
    destruct (IH s1 rs1 s2 ltac:(lia) Hall' Hrest) as (Hc & Hrs).
    split; [lia|]. constructor.
    + unfold reg_end. simpl. lia.
    + eapply Forall_impl; [exact Hrs|]. simpl. intros r [? ?]. lia.
Qed.

Lemma allocate_all_aligned N s reqs rs s' :
  0 <= start_index_ s <= N ->
  Forall (in_range N) reqs ->
  allocate_all N s reqs = Some (rs, s') ->
  Forall (fun r => end_aligned r /\
                   (reg_count r mod reg_alignment r = 0 -> start_aligned r))
         rs.
Proof.
  revert s rs s'. induction reqs as [|q reqs IH]; intros s rs s' Hs Hall H.
  - injection H as <- <-. constructor.
  - simpl in H. inversion Hall as [|? ? Hq Hall']; subst.
    destruct (allocate N s (req_count q) (req_alignment q))
      as [off s1| |] eqn:Ha; try discriminate.
    destruct (allocate_all N s1 reqs) as [[rs1 s2]|] eqn:Hrest;
      [|discriminate].
    injection H as <- <-.
    destruct q as [c a].
    destruct (allocate_region _ _ _ _ _ _ Hs Hq Ha) as (H1 & H2 & H3 & H4).
    assert (0 <= c /\ 0 < a) as [Hc0 Ha0]
      by (destruct Hq as (? & ? & _); split; assumption).
    simpl in *. constructor.
    + unfold end_aligned, start_aligned, reg_end. simpl. rewrite H2.
      split; [exact H4|]. intros Hc.
      replace off with (start_index_ s1 - c) by lia.
      rewrite Zminus_mod, H4, Hc. reflexivity.
    + apply (IH s1 rs1 s2); [lia|assumption..].
Qed.

Lemma regions_pairwise_disjoint N s reqs rs s' :
  0 <= start_index_ s <= N ->
  Forall (in_range N) reqs ->
  allocate_all N s reqs = Some (rs, s') ->
  pairwise_disjoint rs.
Proof.
  revert s rs s'. induction reqs as [|q reqs IH]; intros s rs s' Hs Hall H.
  - injection H as <- <-. intros i j r1 r2 _ Hi. discriminate Hi.
  - simpl in H. inversion Hall as [|? ? Hq Hall']; subst.
    destruct (allocate N s (req_count q) (req_alignment q))
      as [off s1| |] eqn:Ha; try discriminate.
    destruct (allocate_all N s1 reqs) as [[rs1 s2]|] eqn:Hrest;
      [|discriminate].
    injection H as <- <-.
    destruct q as [c a].
    destruct (allocate_region _ _ _ _ _ _ Hs Hq Ha) as (H1 & H2 & H3 & _).
    assert (0 <= c) as Hc0 by (destruct Hq as (? & _); assumption).
    simpl in *.
    assert (0 <= start_index_ s1 <= N) as Hs1 by lia.
    destruct (allocate_all_cursor N s1 reqs rs1 s2 Hs1 Hall' Hrest)
      as (_ & Hlater).
    intros i j r1 r2 Hij Hi Hj.
    destruct j as [|j]; [lia|]. simpl in Hj.
    destruct i as [|i]; simpl in Hi.
    + injection Hi as <-. left. unfold reg_end. simpl.
      rewrite Forall_lookup in Hlater.
      destruct (Hlater j r2 Hj) as [Hlo _]. lia.
    + eapply (IH s1 rs1 s2 Hs1 Hall' Hrest i j); [lia|eassumption..].
Qed.

End ArenaFacts.

(** ** Facts about the list *)

Module ListFacts.
Import Arena Alloc ListModel ArenaFacts.

Section Chains.
Context {A : Type}.
Implicit Types (f g : A -> option A) (l : list A).

Lemma chain_cons f a b l :
  chain f (a :: b :: l) <-> f a = Some b /\ chain f (b :: l).
Proof. reflexivity. Qed.

(** A chain through [l1 ++ x :: l2] is a chain up to [x] and one from [x]. *)
Lemma chain_app f l1 x l2 :
  chain f (l1 ++ x :: l2) <-> chain f (l1 ++ [x]) /\ chain f (x :: l2).
Proof.
  induction l1 as [|a l1 IH].
  - simpl. tauto.
  - destruct l1 as [|b l1].
    + simpl. destruct l2; tauto.
    + change (chain f ((a :: b :: l1) ++ x :: l2))
        with (f a = Some b /\ chain f ((b :: l1) ++ x :: l2)).
      change (chain f ((a :: b :: l1) ++ [x]))
        with (f a = Some b /\ chain f ((b :: l1) ++ [x])).
      tauto.
Qed.

(** A chain only depends on [f] at the elements that have a successor. *)
Lemma chain_ext f g l x :
  (forall a, a ∈ l -> g a = f a) ->
  chain f (l ++ [x]) -> chain g (l ++ [x]).
Proof.
  induction l as [|a l IH]; intros Hfg H.
  - exact I.
  - assert (g a = f a) as Ha by (apply Hfg; left).
    assert (forall a', a' ∈ l -> g a' = f a') as Hl
      by (intros a' Ha'; apply Hfg; right; exact Ha').
    destruct l as [|b l].
    + simpl in *. rewrite Ha. exact H.
    + change (f a = Some b /\ chain f ((b :: l) ++ [x])) in H.
      change (g a = Some b /\ chain g ((b :: l) ++ [x])).
      destruct H as [H1 H2]. split; [congruence|]. apply IH; assumption.
Qed.

Lemma chain_lookup f l i a b :
  chain f l -> l !! i = Some a -> l !! S i = Some b -> f a = Some b.
Proof.
  revert i. induction l as [|x l IH]; intros i H Ha Hb; [discriminate|].
  destruct l as [|y l]; [discriminate|].
  destruct H as [H1 H2].
  destruct i as [|i]; simpl in *.
  - congruence.
  - eapply IH; eassumption.
Qed.

(** The chain through [l ++ [x]] extends the one through [l]. *)
Lemma chain_snoc f l x :
  chain f (l ++ [x]) <->
  chain f l /\ match last l with Some y => f y = Some x | None => True end.
Proof.
  induction l as [|a l IH].
  - simpl. tauto.
  - destruct l as [|b l].
    + simpl. tauto.
    + change (chain f ((a :: b :: l) ++ [x]))
        with (f a = Some b /\ chain f ((b :: l) ++ [x])).
      change (chain f (a :: b :: l)) with (f a = Some b /\ chain f (b :: l)).
      change (last (a :: b :: l)) with (last (b :: l)).
      tauto.
Qed.

Lemma chain_head f a l :
  chain f (a :: l) <->
  match head l with Some b => f a = Some b | None => True end /\ chain f l.
Proof. destruct l; simpl; tauto. Qed.

(** A chain from [a] through [l] to [z], by its two ends and its middle. *)
Lemma chain_ends f a l z :
  chain f (a :: l ++ [z]) <->
  f a = Some (default z (head l)) /\ chain f l /\
  match last l with Some y => f y = Some z | None => True end.
Proof.
  rewrite chain_head, chain_snoc.
  destruct l as [|b l]; simpl; tauto.
Qed.

(** Away from the last element a chain only depends on [f] pointwise. *)
Lemma chain_ext_nodup f g l :
  NoDup l ->
  (forall a, a ∈ l -> last l <> Some a -> g a = f a) ->
  chain f l -> chain g l.
Proof.
  destruct (decide (l = [])) as [->|Hne]; [intros; exact I|].
  destruct (exists_last Hne) as (l0 & x & ->).
  intros Hnd Hfg. apply chain_ext. intros a Ha.
  apply Hfg.
  - apply elem_of_app. left. exact Ha.
  - rewrite last_snoc. intros [= Hx]. subst x.
    apply NoDup_app in Hnd as (_ & Hdis & _).
    apply (Hdis a Ha). left.
Qed.

Lemma chain_ext_all f g l :
  (forall a, a ∈ l -> g a = f a) -> chain f l -> chain g l.
Proof.
  induction l as [|a l IH]; intros Hfg H; [exact I|].
  destruct l as [|b l]; [exact I|].
  destruct H as [H1 H2]. split.
  - rewrite Hfg by left. exact H1.
  - apply IH; [|exact H2]. intros a' Ha'. apply Hfg. right. exact Ha'.
Qed.

End Chains.

Section StoreFacts.
Context {T : Type}.
Implicit Types (w : World T) (p c : ptr) (q : arena_ptr) (l : Z).

Lemma get_base_update_base f p w c :
  get_base (update_base f p w) c =
    if decide (c = p) then f <$> get_base w c else get_base w c.
Proof.
  destruct (decide (c = p)) as [->|Hne].
  - destruct p as [|l|q]; simpl; rewrite ?lookup_alter_eq.
    + reflexivity.
    + destruct (lists w !! l); reflexivity.
    + destruct (nodes w !! q); reflexivity.
  - destruct p as [|l|q], c as [|l'|q']; simpl; try reflexivity;
      rewrite lookup_alter_ne by congruence; reflexivity.
Qed.

Lemma next_of_set_next v p w c :
  next_of (update_base (set_next v) p w) c =
    if decide (c = p) then (fun _ => v) <$> get_base w c else next_of w c.
Proof.
  unfold next_of. rewrite get_base_update_base.
  case_decide; [|reflexivity]. destruct (get_base w c); reflexivity.
Qed.

Lemma prev_of_set_next v p w c :
  prev_of (update_base (set_next v) p w) c = prev_of w c.
Proof.
  unfold prev_of. rewrite get_base_update_base.
  case_decide; [|reflexivity]. destruct (get_base w c); reflexivity.
Qed.

Lemma next_of_set_prev v p w c :
  next_of (update_base (set_prev v) p w) c = next_of w c.
Proof.
  unfold next_of. rewrite get_base_update_base.
  case_decide; [|reflexivity]. destruct (get_base w c); reflexivity.
Qed.

Lemma prev_of_set_prev v p w c :
  prev_of (update_base (set_prev v) p w) c =
    if decide (c = p) then (fun _ => v) <$> get_base w c else prev_of w c.
Proof.
  unfold prev_of. rewrite get_base_update_base.
  case_decide; [|reflexivity]. destruct (get_base w c); reflexivity.
Qed.

Lemma value_update_base f p w q :
  value <$> nodes (update_base f p w) !! q = value <$> nodes w !! q.
Proof.
  destruct p as [|l|q']; simpl; try reflexivity.
  rewrite lookup_alter. case_decide; [subst|reflexivity].
  destruct (nodes w !! q); reflexivity.
Qed.

Lemma size_update_base f p w l :
  size_ <$> lists (update_base f p w) !! l = size_ <$> lists w !! l.
Proof.
  destruct p as [|l'|q']; simpl; try reflexivity.
  rewrite lookup_alter. case_decide; [subst|reflexivity].
  destruct (lists w !! l); reflexivity.
Qed.

Lemma node_allocator_update_base f p w l :
  node_allocator_ <$> lists (update_base f p w) !! l =
  node_allocator_ <$> lists w !! l.
Proof.
  destruct p as [|l'|q']; simpl; try reflexivity.
  rewrite lookup_alter. case_decide; [subst|reflexivity].
  destruct (lists w !! l); reflexivity.
Qed.

Lemma alloc_update_base f p w l :
  alloc <$> lists (update_base f p w) !! l = alloc <$> lists w !! l.
Proof.
  destruct p as [|l'|q']; simpl; try reflexivity.
  rewrite lookup_alter. case_decide; [subst|reflexivity].
  destruct (lists w !! l); reflexivity.
Qed.

Lemma arenas_update_base f p w : arenas (update_base f p w) = arenas w.
Proof. destruct p; reflexivity. Qed.
Lemma live_update_base f p w : live (update_base f p w) = live w.
Proof. destruct p; reflexivity. Qed.
Lemma ctor_calls_update_base f p w :
  ctor_calls (update_base f p w) = ctor_calls w.
Proof. destruct p; reflexivity. Qed.

Lemma lists_update_base_ne f p w l :
  p <> PHead l -> lists (update_base f p w) !! l = lists w !! l.
Proof.
  destruct p as [|l'|q']; simpl; try reflexivity.
  intros Hne. rewrite lookup_alter_ne by congruence. reflexivity.
Qed.

Lemma nodes_update_base_ne f p w q :
  p <> PNode q -> nodes (update_base f p w) !! q = nodes w !! q.
Proof.
  destruct p as [|l'|q']; simpl; try reflexivity.
  intros Hne. rewrite lookup_alter_ne by congruence. reflexivity.
Qed.

Lemma nodes_update_base_is_Some f p w q :
  is_Some (nodes (update_base f p w) !! q) <-> is_Some (nodes w !! q).
Proof.
  rewrite <- !(fmap_is_Some value). rewrite value_update_base. reflexivity.
Qed.

(** Stores built by the constructors of nodes and lists. *)
Lemma get_base_insert_node q n w c :
  get_base (set_nodes (<[q := n]> (nodes w)) w) c =
    if decide (c = PNode q) then Some (base n) else get_base w c.
Proof.
  destruct (decide (c = PNode q)) as [->|Hne].
  - simpl. rewrite lookup_insert_eq. reflexivity.
  - destruct c; simpl; try reflexivity;
      rewrite lookup_insert_ne by congruence; reflexivity.
Qed.

Lemma get_base_delete_node q w c :
  get_base (set_nodes (delete q (nodes w)) w) c =
    if decide (c = PNode q) then None else get_base w c.
Proof.
  destruct (decide (c = PNode q)) as [->|Hne].
  - simpl. rewrite lookup_delete_eq. reflexivity.
  - destruct c; simpl; try reflexivity;
      rewrite lookup_delete_ne by congruence; reflexivity.
Qed.

Lemma get_base_insert_list l o w c :
  get_base (set_lists (<[l := o]> (lists w)) w) c =
    if decide (c = PHead l) then Some (head_ o) else get_base w c.
Proof.
  destruct (decide (c = PHead l)) as [->|Hne].
  - simpl. rewrite lookup_insert_eq. reflexivity.
  - destruct c; simpl; try reflexivity;
      rewrite lookup_insert_ne by congruence; reflexivity.
Qed.

Lemma get_base_delete_list l w c :
  get_base (set_lists (delete l (lists w)) w) c =
    if decide (c = PHead l) then None else get_base w c.
Proof.
  destruct (decide (c = PHead l)) as [->|Hne].
  - simpl. rewrite lookup_delete_eq. reflexivity.
  - destruct c; simpl; try reflexivity;
      rewrite lookup_delete_ne by congruence; reflexivity.
Qed.

Lemma get_base_resize l o n w c :
  lists w !! l = Some o ->
  get_base (set_lists (<[l := with_size n o]> (lists w)) w) c = get_base w c.
Proof.
  intros Hl. rewrite get_base_insert_list.
  case_decide; [subst; simpl; rewrite Hl|]; reflexivity.
Qed.

Lemma get_base_set_arenas m w c : get_base (set_arenas m w) c = get_base w c.
Proof. destruct c; reflexivity. Qed.
Lemma get_base_set_live g w c : get_base (set_live g w) c = get_base w c.
Proof. destruct c; reflexivity. Qed.
Lemma get_base_set_ctor_calls n w c :
  get_base (set_ctor_calls n w) c = get_base w c.
Proof. destruct c; reflexivity. Qed.

(** Running the primitives. *)
Lemma bind_Ok {A B} (m : M T A) (k : A -> M T B) w a w' :
  m w = Ok a w' -> bind m k w = k a w'.
Proof. unfold bind. intros ->. reflexivity. Qed.

Lemma read_next_run p w x :
  next_of w p = Some x -> read_next p w = Ok x w.
Proof.
  unfold next_of, read_next. destruct (get_base w p); [|discriminate].
  intros [= <-]. reflexivity.
Qed.
Lemma read_prev_run p w x :
  prev_of w p = Some x -> read_prev p w = Ok x w.
Proof.
  unfold prev_of, read_prev. destruct (get_base w p); [|discriminate].
  intros [= <-]. reflexivity.
Qed.
Lemma write_next_run p v w :
  is_Some (get_base w p) ->
  write_next p v w = Ok tt (update_base (set_next v) p w).
Proof. unfold write_next. intros [b ->]. reflexivity. Qed.
Lemma write_prev_run p v w :
  is_Some (get_base w p) ->
  write_prev p v w = Ok tt (update_base (set_prev v) p w).
Proof. unfold write_prev. intros [b ->]. reflexivity. Qed.
Lemma get_list_run l w o :
  lists w !! l = Some o -> get_list l w = Ok o w.
Proof. unfold get_list. intros ->. reflexivity. Qed.
Lemma add_size_run l d w o :
  lists w !! l = Some o ->
  add_size l d w =
    Ok tt (set_lists (<[l := with_size (wrap (size_ o + d)) o]> (lists w)) w).
Proof. intros H. unfold add_size, bind, get_list. rewrite H. reflexivity. Qed.

Lemma next_of_is_Some w p x : next_of w p = Some x -> is_Some (get_base w p).
Proof. unfold next_of. destruct (get_base w p); [eauto|discriminate]. Qed.
Lemma prev_of_is_Some w p x : prev_of w p = Some x -> is_Some (get_base w p).
Proof. unfold prev_of. destruct (get_base w p); [eauto|discriminate]. Qed.

End StoreFacts.

Lemma Forall2_impl_elem {A B} (P Q : A -> B -> Prop) l k :
  Forall2 P l k ->
  (forall x y, x ∈ l -> P x y -> Q x y) ->
  Forall2 Q l k.
Proof.
  induction 1 as [|x y l k Hxy _ IH]; intros HPQ; constructor.
  - apply HPQ; [left|exact Hxy].
  - apply IH. intros x' y' Hx'. apply HPQ. right. exact Hx'.
Qed.

Section RingFacts.
Context {T : Type} {node_layout : Layout (Node T)}.
Implicit Types (w : World T) (c : ptr) (p q : arena_ptr) (l : Z)
  (ps : list arena_ptr) (vs : list T).


Lemma first_of_snoc s ps q :
  first_of s (ps ++ [q]) = match ps with [] => PNode q | _ => first_of s ps end.
Proof. destruct ps; reflexivity. Qed.
Lemma last_of_snoc s ps q : last_of s (ps ++ [q]) = PNode q.
Proof. unfold last_of. rewrite last_snoc. reflexivity. Qed.

Lemma first_of_elem s ps : first_of s ps ∈ PHead s :: (PNode <$> ps).
Proof.
  destruct ps as [|q ps]; simpl; [left|right; left].
Qed.
Lemma last_of_elem s ps : last_of s ps ∈ PHead s :: (PNode <$> ps).
Proof.
  unfold last_of. destruct (last ps) as [q|] eqn:Hl; simpl; [|left].
  right. apply list_elem_of_fmap_2. apply last_Some_elem_of. exact Hl.
Qed.

Lemma chain_ends_ring (f : ptr -> option ptr) s ps :
  chain f (PHead s :: (PNode <$> ps) ++ [PHead s]) <->
  f (PHead s) = Some (first_of s ps) /\ chain f (PNode <$> ps) /\
  f (last_of s ps) = Some (PHead s).
Proof.
  rewrite chain_ends. unfold first_of, last_of. rewrite fmap_last.
  destruct ps as [|q ps]; [simpl; tauto|].
  change (head (PNode <$> q :: ps)) with (Some (PNode q)).
  destruct (last (q :: ps)) eqn:Hl; simpl; [tauto|].
  apply last_None in Hl. discriminate.
Qed.

(** A ring, by what the sentinel points to, the links among the payload
    nodes, and the links back to the sentinel. *)
Lemma ring_ends w s ps :
  ring w s ps <->
  (next_of w (PHead s) = Some (first_of s ps) /\
   chain (next_of w) (PNode <$> ps) /\
   next_of w (last_of s ps) = Some (PHead s)) /\
  (prev_of w (PHead s) = Some (last_of s ps) /\
   chain (prev_of w) (PNode <$> reverse ps) /\
   prev_of w (first_of s ps) = Some (PHead s)).
Proof.
  unfold ring. rewrite !chain_ends_ring.
  unfold first_of at 2, last_of at 2.
  rewrite head_reverse, last_reverse. reflexivity.
Qed.

(** The ring invariant at every node of a ring. *)
Lemma ring_closed_at w s ps X :
  ring w s ps -> X ∈ PHead s :: (PNode <$> ps) -> closed_at w X.
Proof.
  intros [Hn Hp] HX.
  apply list_elem_of_lookup in HX as [i Hi].
  set (cyc := PHead s :: (PNode <$> ps)) in *.
  assert (forall j a b, (cyc ++ [PHead s]) !! j = Some a ->
            (cyc ++ [PHead s]) !! S j = Some b ->
            next_of w a = Some b /\ prev_of w b = Some a) as Hadj.
  { intros j a b Ha Hb. split.
    - eapply (chain_lookup _ _ j); [exact Hn|exact Ha|exact Hb].
    - (* the same pair read backwards in the reversed cycle *)
      assert (length (cyc ++ [PHead s]) = S (S (length ps))) as Hlen
        by (unfold cyc; simpl; rewrite length_app, length_fmap; simpl; lia).
      assert (S j < length (cyc ++ [PHead s]))%nat as Hj
        by (eapply lookup_lt_Some; exact Hb).
      assert (reverse (cyc ++ [PHead s])
              = PHead s :: (PNode <$> reverse ps) ++ [PHead s]) as Hrev.
      { unfold cyc. rewrite reverse_snoc, reverse_cons, fmap_reverse.
        reflexivity. }
      rewrite <- Hrev in Hp.
      eapply (chain_lookup _ _ (length ps - j)%nat); [exact Hp| |].
      + rewrite reverse_lookup by lia. rewrite <- Hb. f_equal. lia.
      + rewrite reverse_lookup by lia. rewrite <- Ha. f_equal. lia. }
  assert (length cyc = S (length ps)) as Hc
    by (unfold cyc; simpl; rewrite length_fmap; reflexivity).
  assert (i < length cyc)%nat as Hi' by (eapply lookup_lt_Some; exact Hi).
  assert (cyc !! 0%nat = Some (PHead s)) as H0 by reflexivity.
  clearbody cyc.
  split.
  - (* the successor of X *)
    destruct ((cyc ++ [PHead s]) !! S i) as [n|] eqn:Hsucc.
    + exists n. apply (Hadj i); [rewrite lookup_app_l by lia; exact Hi|exact Hsucc].
    + apply lookup_ge_None in Hsucc. rewrite length_app in Hsucc.
      simpl in Hsucc. lia.
  - (* the predecessor of X *)
    destruct i as [|i].
    + (* X is the sentinel: its predecessor is the last node *)
      assert (X = PHead s) as -> by congruence.
      destruct ((cyc ++ [PHead s]) !! length ps) as [p|] eqn:Hpred.
      * exists p.
        assert ((cyc ++ [PHead s]) !! S (length ps) = Some (PHead s)) as Hs.
        { rewrite lookup_app_r by lia. rewrite Hc, Nat.sub_diag. reflexivity. }
        destruct (Hadj _ _ _ Hpred Hs). split; assumption.
      * apply lookup_ge_None in Hpred. rewrite length_app in Hpred. lia.
    + destruct (cyc !! i) as [p|] eqn:Hpred.
      * exists p.
        destruct (Hadj i p X); [rewrite lookup_app_l by lia; exact Hpred
                               |rewrite lookup_app_l by lia; exact Hi|].
        split; assumption.
      * apply lookup_ge_None in Hpred. lia.
Qed.

(** A list only depends on its own cells. *)
Lemma is_list_frame w w' this ps vs :
  is_list w this ps vs ->
  (forall c, c ∈ PHead this :: (PNode <$> ps) -> get_base w' c = get_base w c) ->
  (forall q, q ∈ ps -> value <$> nodes w' !! q = value <$> nodes w !! q) ->
  size_ <$> lists w' !! this = size_ <$> lists w !! this ->
  (forall q, q ∈ ps -> q ∈ live w -> q ∈ live w') ->
  is_list w' this ps vs.
Proof.
  intros [[Hn Hp] Hnd Hv Hs Hb Hl] Hbase Hval Hsize Hlive.
  split; try assumption.
  - split.
    + eapply chain_ext_all; [|exact Hn]. intros a Ha. unfold next_of.
      rewrite Hbase; [reflexivity|].
      rewrite app_comm_cons in Ha. apply elem_of_app in Ha as [Ha|Ha]; [exact Ha|].
      apply list_elem_of_singleton in Ha as ->. left.
    + eapply chain_ext_all; [|exact Hp]. intros a Ha. unfold prev_of.
      rewrite Hbase; [reflexivity|].
      rewrite app_comm_cons in Ha. apply elem_of_app in Ha as [Ha|Ha].
      * rewrite fmap_reverse in Ha. 
        apply elem_of_cons in Ha as [->|Ha]; [left|right].
        rewrite elem_of_reverse in Ha. exact Ha.
      * apply list_elem_of_singleton in Ha as ->. left.
  - eapply Forall2_impl_elem; [exact Hv|].
    intros q v Hq Hin. simpl. rewrite Hval; assumption.
  - rewrite Hsize. exact Hs.
  - intros q Hq. apply Hlive; [exact Hq|]. apply Hl. exact Hq.
Qed.

(** *** The node allocator *)

Lemma node_request_size N :
  node_fits (T:=T) N -> 0 <= N ->
  wrap (1 * sizeof (Node T)) = sizeof (Node T).
Proof.
  intros (Hpos & Hc & Ha & Hfit) HN. simpl in *.
  rewrite Z.mul_1_l. apply wrap_small. lia.
Qed.

(** One node request on a well-formed store: either the arena is full and
    nothing changes, or a region past the old cursor is returned. *)
Lemma node_allocate_cases N w a id (s : StackStorage) :
  wf_world N w -> node_fits (T:=T) N ->
  stack_storage_ a = Some id -> arenas w !! id = Some s ->
  node_allocate N a 1 w = Throw bad_alloc w \/
  exists off s',
    node_allocate N a 1 w =
      Ok (id, off)
         (set_live ({[(id, off)]} ∪ live w)
            (set_arenas (<[id := s']> (arenas w)) w)) /\
    start_index_ s <= off < start_index_ s' /\ start_index_ s' <= N.
Proof.
  intros Hwf Hfit Ha Hid.
  pose proof (wf_cursor N w Hwf id s Hid) as Hcur.
  unfold node_allocate, Alloc.allocate. rewrite Ha, Hid.
  rewrite (node_request_size N Hfit) by lia.
  destruct Hfit as (Hpos & Hrange).
  destruct (Arena.allocate N s (sizeof (Node T)) (alignof (Node T)))
    as [off s'|s'|] eqn:Hal.
  - right. exists off, s'.
    destruct (allocate_region _ _ _ _ _ _ Hcur Hrange Hal) as (H1 & H2 & H3 & _).
    split; [reflexivity|]. lia.
  - left. apply allocate_bad_alloc in Hal as ->.
    rewrite insert_id by exact Hid. destruct w; reflexivity.
  - exfalso. unfold Arena.allocate in Hal.
    destruct Hrange as (_ & Hal0 & _). simpl in Hal0.
    destruct (Z.eqb_spec (alignof (Node T)) 0) as [E|_]; [lia|].
    cbv zeta in Hal. destruct (_ >=? N); discriminate.
Qed.

(** A region past the cursor is fresh. *)
Lemma past_cursor_fresh N w id (s : StackStorage) off :
  wf_world N w -> arenas w !! id = Some s -> start_index_ s <= off ->
  nodes w !! (id, off) = None /\ (id, off) ∉ live w.
Proof.
  intros Hwf Hid Hle. split.
  - destruct (nodes w !! (id, off)) eqn:Hn; [|reflexivity].
    destruct (wf_nodes N w Hwf (id, off)) as (s0 & Hs0 & Hlt); [eauto|].
    simpl in *. rewrite Hid in Hs0. injection Hs0 as <-. lia.
  - intros Hin.
    destruct (wf_live N w Hwf (id, off) Hin) as (s0 & Hs0 & Hlt).
    simpl in *. rewrite Hid in Hs0. injection Hs0 as <-. lia.
Qed.

(** The store invariant survives a move of one cursor forward, with nodes
    and outstanding regions added only below the new cursor. *)
Lemma wf_world_advance N w w' id (s s' : StackStorage) :
  wf_world N w ->
  arenas w !! id = Some s ->
  start_index_ s <= start_index_ s' <= N ->
  arenas w' = <[id := s']> (arenas w) ->
  (forall p, is_Some (nodes w' !! p) ->
             is_Some (nodes w !! p) \/ below_cursor w' p) ->
  (forall p, p ∈ live w' -> p ∈ live w \/ below_cursor w' p) ->
  wf_world N w'.
Proof.
  intros Hwf Hid Hle Har Hn Hl.
  assert (forall p, below_cursor w p -> below_cursor w' p) as Hmono.
  { intros p (s0 & Hs0 & Hlt). unfold below_cursor. rewrite Har.
    destruct (decide (p.1 = id)) as [Heq|Hne].
    - exists s'. rewrite Heq, lookup_insert_eq. split; [reflexivity|].
      rewrite Heq, Hid in Hs0. injection Hs0 as <-. lia.
    - exists s0. rewrite lookup_insert_ne by congruence. split; assumption. }
  split.
  - intros id0 s0. rewrite Har. intros H0.
    destruct (decide (id0 = id)) as [->|Hne].
    + rewrite lookup_insert_eq in H0. injection H0 as <-.
      pose proof (wf_cursor N w Hwf id s Hid). lia.
    + rewrite lookup_insert_ne in H0 by congruence.
      exact (wf_cursor N w Hwf id0 s0 H0).
  - intros p Hp. destruct (Hn p Hp) as [H|H]; [|exact H].
    apply Hmono. exact (wf_nodes N w Hwf p H).
  - intros p Hp. destruct (Hl p Hp) as [H|H]; [|exact H].
    apply Hmono. exact (wf_live N w Hwf p H).
Qed.

(** The same with the arenas untouched. *)
Lemma wf_world_shrink N w w' :
  wf_world N w ->
  arenas w' = arenas w ->
  (forall p, is_Some (nodes w' !! p) -> is_Some (nodes w !! p)) ->
  (forall p, p ∈ live w' -> p ∈ live w) ->
  wf_world N w'.
Proof.
  intros Hwf Har Hn Hl.
  assert (forall p, below_cursor w p -> below_cursor w' p) as Hmono.
  { intros p (s0 & Hs0 & Hlt). exists s0. rewrite Har. split; assumption. }
  split.
  - intros id0 s0. rewrite Har. apply (wf_cursor N w Hwf).
  - intros p Hp. apply Hmono, (wf_nodes N w Hwf), Hn, Hp.
  - intros p Hp. apply Hmono, (wf_live N w Hwf), Hl, Hp.
Qed.


Lemma only_changes_refl Ls Qs w : only_changes Ls Qs w w.
Proof. split; intros; reflexivity. Qed.

Lemma only_changes_trans Ls Qs w1 w2 w3 :
  only_changes Ls Qs w1 w2 -> only_changes Ls Qs w2 w3 ->
  only_changes Ls Qs w1 w3.
Proof.
  intros [A1 B1 C1 D1] [A2 B2 C2 D2]. split.
  - intros l Hl. rewrite A2, A1 by exact Hl. reflexivity.
  - intros q Hq. rewrite B2, B1 by exact Hq. reflexivity.
  - intros q Hq. rewrite C2, C1 by exact Hq. reflexivity.
  - intros id. rewrite D2, D1. reflexivity.
Qed.

Lemma only_changes_weaken Ls Ls' Qs Qs' w w' :
  (forall l, l ∈ Ls -> l ∈ Ls') -> (forall q, q ∈ Qs -> q ∈ Qs') ->
  only_changes Ls Qs w w' -> only_changes Ls' Qs' w w'.
Proof.
  intros HL HQ [A B C D]. split; [| | |exact D].
  - intros l Hl. apply A. intros H. apply Hl, HL, H.
  - intros q Hq. apply B. intros H. apply Hq, HQ, H.
  - intros q Hq. apply C. intros H. apply Hq, HQ, H.
Qed.

(** A list outside the changed part is untouched. *)
Lemma is_list_only_changes Ls Qs w w' o qs us :
  is_list w o qs us -> only_changes Ls Qs w w' ->
  o ∉ Ls -> (forall q, q ∈ qs -> q ∉ Qs) ->
  is_list w' o qs us.
Proof.
  intros Hl [A B C D] Ho Hq.
  apply (is_list_frame w); [exact Hl| | | |].
  - intros c Hc. apply elem_of_cons in Hc as [->|Hc].
    + simpl. rewrite A by exact Ho. reflexivity.
    + apply list_elem_of_fmap in Hc as (q & -> & Hin).
      simpl. rewrite B by (apply Hq, Hin). reflexivity.
  - intros q Hin. rewrite B by (apply Hq, Hin). reflexivity.
  - rewrite A by exact Ho. reflexivity.
  - intros q Hin Hlive. apply C; [apply Hq, Hin|exact Hlive].
Qed.

Lemma allocates_from_only_changes Ls Qs w w' o id :
  allocates_from w o id -> only_changes Ls Qs w w' -> o ∉ Ls ->
  allocates_from w' o id.
Proof.
  intros [Ha Hs] [A B C D] Ho. split.
  - rewrite A by exact Ho. exact Ha.
  - apply D. exact Hs.
Qed.

End RingFacts.

Section PushBack.
Context {T : Type} {node_layout : Layout (Node T)}.
Variable N : Z.
Variable ctor_throws : nat -> bool.
Variable default_value : T.
Implicit Types (w : World T) (c : ptr) (p q : arena_ptr) (l : Z)
  (ps : list arena_ptr) (vs : list T).

Ltac store_simpl :=
  unfold next_of, prev_of;
  repeat first
    [ rewrite get_base_update_base
    | rewrite get_base_insert_node
    | rewrite get_base_set_arenas
    | rewrite get_base_set_live
    | rewrite get_base_set_ctor_calls ].

Lemma InsertHelper_end w this ps vs id arg :
  wf_world N w -> node_fits (T:=T) N ->
  is_list w this ps vs -> allocates_from w this id ->
  Z.of_nat (length ps) + 1 < size_max ->
  match InsertHelper N ctor_throws default_value this (PHead this) arg w with
  | Ok _ w' =>
      exists p,
        nodes w !! p = None /\ (p ∉ live w) /\
        is_list w' this (ps ++ [p]) (vs ++ [default default_value arg]) /\
        wf_world N w' /\
        only_changes [this] (ps ++ [p]) w w' /\
        live w' = {[p]} ∪ live w /\
        allocates_from w' this id
  | Throw e w' =>
      wf_world N w' /\ nodes w' = nodes w /\ lists w' = lists w /\
      live w' = live w /\
      (forall id', is_Some (arenas w' !! id') <-> is_Some (arenas w !! id'))
  | _ => False
  end.
Proof.
  intros Hwf Hfit Hlist [Hna [st Hst]] Hbound.
  destruct (lists w !! this) as [o|] eqn:Ho; [|discriminate Hna].
  simpl in Hna. injection Hna as Hna.
  unfold InsertHelper.
  rewrite (bind_Ok _ _ _ _ _ (get_list_run _ _ _ Ho)).
  destruct (node_allocate_cases N w (node_allocator_ o) id st Hwf Hfit
              ltac:(rewrite Hna; reflexivity) Hst)
    as [Hthrow|(off & st' & Hok & Hoff & Hcap)].
  { unfold bind. rewrite Hthrow.
    split; [assumption|]. repeat split; auto. }
  rewrite (bind_Ok _ _ _ _ _ Hok). clear Hok.
  set (p := (id, off)).
  set (w1 := set_live _ _).
  destruct (past_cursor_fresh N w id st off Hwf Hst ltac:(lia)) as [Hfresh Hnl].
  fold p in Hfresh, Hnl.
  assert (wf_world N w1) as Hwf1.
  { apply (wf_world_advance N w w1 id st st'); try assumption.
    - pose proof (wf_cursor N w Hwf id st Hst). lia.
    - reflexivity.
    - intros q Hq. left. exact Hq.
    - intros q Hq. simpl in Hq. apply elem_of_union in Hq as [Hq|Hq]; [|left; exact Hq].
      apply elem_of_singleton in Hq as ->. right.
      exists st'. simpl. rewrite lookup_insert_eq. split; [reflexivity|lia]. }
  unfold bind at 1. unfold try_catch, construct.
  destruct (ctor_throws (ctor_calls w1)) eqn:Hct.
  { (* the constructor throws: the region is given back *)
    simpl.
    split; [|repeat split].
    - apply (wf_world_shrink N w1); [exact Hwf1|reflexivity| |].
      + intros q Hq. exact Hq.
      + intros q Hq. simpl in *. set_solver.
    - apply set_eq. intros q. set_solver.
    - unfold deallocate. rewrite lookup_insert_is_Some'.
      intros [?|?]; [subst; eauto|assumption].
    - intros H. unfold deallocate. rewrite lookup_insert_is_Some'.
      right. exact H. }
  (* the node is constructed and spliced in before the sentinel *)
  set (n0 := {| base := {| next := nullptr; prev := nullptr |};
                value := default default_value arg |}).
  set (w2 := set_nodes _ _).
  pose proof Hlist as [Hring Hnd Hvals Hsize Hlen Hlive].
  apply ring_ends in Hring as [(Hn1 & Hn2 & Hn3) (Hp1 & Hp2 & Hp3)].
  assert (forall c, get_base w2 c =
            if decide (c = PNode p) then Some (base n0) else get_base w c)
    as Hgb2.
  { intros c. unfold w2, w1. store_simpl. reflexivity. }
  assert (forall q, q ∈ ps -> q <> p) as Hps.
  { intros q Hq ->. apply Hlive in Hq. contradiction. }
  assert (last_of this ps <> PNode p) as Hlastp.
  { unfold last_of. destruct (last ps) as [q|] eqn:Hl; simpl; [|discriminate].
    intros [= ->]. apply (Hps p); [|reflexivity].
    apply last_Some_elem_of. exact Hl. }
  rewrite (bind_Ok _ _ _ _ _
            (read_prev_run (PHead this) w2 (last_of this ps)
               ltac:(unfold prev_of; rewrite Hgb2, decide_False by discriminate;
                     exact Hp1))).
  rewrite (bind_Ok _ _ _ _ _
            (write_prev_run (PNode p) (last_of this ps) w2
               ltac:(rewrite Hgb2, decide_True by reflexivity; eauto))).
  set (w3 := update_base _ _ w2).
  rewrite (bind_Ok _ _ _ _ _
            (write_next_run (PNode p) (PHead this) w3
               ltac:(unfold w3; rewrite get_base_update_base, Hgb2,
                       !decide_True by reflexivity; eauto))).
  set (w4 := update_base _ _ w3).
  assert (forall c, get_base w4 c =
            if decide (c = PNode p)
            then Some {| next := PHead this; prev := last_of this ps |}
            else get_base w c) as Hgb4.
  { intros c. unfold w4, w3. rewrite !get_base_update_base, Hgb2.
    case_decide; reflexivity. }
  rewrite (bind_Ok _ _ _ _ _
            (write_prev_run (PHead this) (PNode p) w4
               ltac:(rewrite Hgb4, decide_False by discriminate;
                     eapply prev_of_is_Some; exact Hp1))).
  set (w5 := update_base _ _ w4).
  rewrite (bind_Ok _ _ _ _ _
            (write_next_run (last_of this ps) (PNode p) w5
               ltac:(unfold w5; rewrite get_base_update_base, Hgb4;
                     rewrite (decide_False (P := last_of this ps = PNode p))
                       by exact Hlastp;
                     case_decide;
                     [apply fmap_is_Some|]; eapply next_of_is_Some; exact Hn3))).
  set (w6 := update_base _ _ w5).
  remember (last_of this ps) as lst eqn:Hlst_def.
  assert (is_Some (get_base w lst)) as Hlst_ok
    by (eapply next_of_is_Some; exact Hn3).
  assert (forall c, next_of w6 c =
            if decide (c = lst) then Some (PNode p)
            else if decide (c = PNode p) then Some (PHead this)
            else next_of w c) as Hnext6.
  { intros c. unfold w6, w5, next_of.
    rewrite !get_base_update_base, Hgb4.
    destruct (next_of_is_Some _ _ _ Hn1) as [b Hb].
    destruct Hlst_ok as [b' Hb'].
    repeat case_decide; subst; try congruence; rewrite ?Hb, ?Hb';
      try reflexivity; destruct (get_base w _); reflexivity. }
  assert (forall c, prev_of w6 c =
            if decide (c = PHead this) then Some (PNode p)
            else if decide (c = PNode p) then Some lst
            else prev_of w c) as Hprev6.
  { intros c. unfold w6, w5, prev_of.
    rewrite !get_base_update_base, Hgb4.
    destruct (prev_of_is_Some _ _ _ Hp1) as [b Hb].
    destruct Hlst_ok as [b' Hb'].
    repeat case_decide; subst; try congruence; rewrite ?Hb, ?Hb';
      try reflexivity; destruct (get_base w _); reflexivity. }
  assert (forall q, value <$> nodes w6 !! q =
            if decide (q = p) then Some (default default_value arg)
            else value <$> nodes w !! q) as Hval6.
  { intros q. unfold w6, w5, w4, w3. rewrite !value_update_base.
    unfold w2. simpl. destruct (decide (q = p)) as [->|Hq].
    - rewrite lookup_insert_eq. reflexivity.
    - rewrite lookup_insert_ne by congruence. reflexivity. }
  assert (forall l, size_ <$> lists w6 !! l = size_ <$> lists w !! l) as Hsz6.
  { intros l. unfold w6, w5, w4, w3. rewrite !size_update_base. reflexivity. }
  assert (forall l, node_allocator_ <$> lists w6 !! l
                    = node_allocator_ <$> lists w !! l) as Hna6.
  { intros l. unfold w6, w5, w4, w3. rewrite !node_allocator_update_base.
    reflexivity. }
  assert (forall l, l <> this -> lists w6 !! l = lists w !! l) as Hl6.
  { intros l Hl. unfold w6, w5, w4, w3.
    rewrite lists_update_base_ne.
    2:{ rewrite Hlst_def; unfold last_of. destruct (last ps); simpl; congruence. }
    rewrite lists_update_base_ne by congruence.
    rewrite !lists_update_base_ne by discriminate. reflexivity. }
  assert (forall q, q <> p -> q ∉ ps -> nodes w6 !! q = nodes w !! q) as Hn6.
  { intros q Hq Hin. unfold w6, w5, w4, w3.
    rewrite nodes_update_base_ne.
    2:{ rewrite Hlst_def; unfold last_of. destruct (last ps) as [q'|] eqn:Hl'; simpl;
          [|discriminate].
        intros [= ->]. apply Hin. apply last_Some_elem_of. exact Hl'. }
    rewrite nodes_update_base_ne by discriminate.
    rewrite !nodes_update_base_ne by congruence.
    unfold w2. simpl. rewrite lookup_insert_ne by congruence. reflexivity. }
  assert (live w6 = {[p]} ∪ live w) as Hlive6.
  { unfold w6, w5, w4, w3. rewrite !live_update_base. reflexivity. }
  assert (arenas w6 = <[id := st']> (arenas w)) as Har6.
  { unfold w6, w5, w4, w3. rewrite !arenas_update_base. reflexivity. }
  destruct (lists w6 !! this) as [o6|] eqn:Ho6.
  2:{ specialize (Hsz6 this). rewrite Ho6, Ho in Hsz6. discriminate. }
  rewrite (add_size_run this 1 w6 o6 Ho6).
  set (w7 := set_lists _ w6).
  assert (size_ o6 = Z.of_nat (length ps)) as Hsize6.
  { specialize (Hsz6 this). rewrite Ho6, Hsize in Hsz6. simpl in Hsz6. congruence. }
  assert (forall c, get_base w7 c = get_base w6 c) as Hgb7.
  { intros c. unfold w7. apply get_base_resize. exact Ho6. }
  exists p. split; [exact Hfresh|]. split; [exact Hnl|].
  assert (forall c, next_of w7 c = next_of w6 c) as Hnext7
    by (intros c; unfold next_of; rewrite Hgb7; reflexivity).
  assert (forall c, prev_of w7 c = prev_of w6 c) as Hprev7
    by (intros c; unfold prev_of; rewrite Hgb7; reflexivity).
  assert (forall q, q ∈ ps -> PNode q <> lst -> next_of w7 (PNode q)
                                               = next_of w (PNode q)) as Hnext_in.
  { intros q Hq Hne. rewrite Hnext7, Hnext6.
    rewrite decide_False by exact Hne.
    rewrite decide_False; [reflexivity|]. intros [= ->]. eapply Hps; eauto. }
  assert (forall q, q ∈ ps -> prev_of w7 (PNode q) = prev_of w (PNode q))
    as Hprev_in.
  { intros q Hq. rewrite Hprev7, Hprev6.
    rewrite decide_False by discriminate.
    rewrite decide_False; [reflexivity|]. intros [= ->]. eapply Hps; eauto. }
  assert (last (PNode <$> ps) = Some lst \/ ps = [] /\ lst = PHead this)
    as Hlast_cases.
  { rewrite fmap_last, Hlst_def. unfold last_of.
    destruct (last ps) eqn:Hl'; simpl; [left; reflexivity|right].
    apply last_None in Hl'. split; [exact Hl'|reflexivity]. }
  split; [|split; [|split; [|split]]].
  - (* the ring and the contents *)
    split.
    + apply ring_ends. rewrite last_of_snoc, first_of_snoc, fmap_snoc.
      rewrite reverse_snoc, fmap_cons.
      split; [split; [|split]|split; [|split]].
      * rewrite Hnext7, Hnext6.
        destruct ps as [|q0 ps0].
        -- rewrite decide_True by (rewrite Hlst_def; reflexivity). reflexivity.
        -- rewrite decide_False
             by (rewrite Hlst_def; unfold last_of;
                 destruct (last (q0 :: ps0)) eqn:E; simpl;
                 [discriminate|apply last_None in E; discriminate]).
           rewrite decide_False by discriminate. exact Hn1.
      * apply chain_snoc. split.
        -- apply (chain_ext_nodup (next_of w)); [| |exact Hn2].
           ++ apply NoDup_fmap_2; [|exact Hnd]. intros ? ? [= ->]. reflexivity.
           ++ intros a Ha Hlast.
              apply list_elem_of_fmap in Ha as (q & -> & Hq).
              apply Hnext_in; [exact Hq|].
              intros Heq. destruct Hlast_cases as [Hl'|[-> _]];
                [|inversion Hq]. congruence.
        -- destruct Hlast_cases as [->|[-> _]]; [|exact I].
           rewrite Hnext7, Hnext6, decide_True by reflexivity. reflexivity.
      * rewrite Hnext7, Hnext6.
        rewrite decide_False by (intros E; apply Hlastp; symmetry; exact E).
        rewrite decide_True by reflexivity. reflexivity.
      * rewrite Hprev7, Hprev6, decide_True by reflexivity. reflexivity.
      * apply chain_head. split.
        -- rewrite fmap_reverse, head_reverse.
           destruct Hlast_cases as [->|[-> ->]]; [|exact I].
           rewrite Hprev7, Hprev6, decide_False by discriminate.
           rewrite decide_True by reflexivity. reflexivity.
        -- apply (chain_ext_all (prev_of w)); [|exact Hp2].
           intros a Ha. apply list_elem_of_fmap in Ha as (q & -> & Hq).
           apply Hprev_in. apply elem_of_reverse. exact Hq.
      * destruct ps as [|q0 ps0].
        -- rewrite Hprev7, Hprev6, decide_False by discriminate.
           rewrite decide_True by reflexivity. rewrite Hlst_def. reflexivity.
        -- change (prev_of w7 (PNode q0) = Some (PHead this)).
           rewrite Hprev_in by left. exact Hp3.
    + apply NoDup_app. split; [exact Hnd|]. split; [|apply NoDup_singleton].
      intros q Hq Hin. apply list_elem_of_singleton in Hin. eapply Hps; eauto.
    + apply Forall2_app.
      * eapply Forall2_impl_elem; [exact Hvals|]. intros q v Hq Hv. simpl.
        unfold w7. simpl. rewrite Hval6.
        rewrite decide_False by (eapply Hps; eauto). exact Hv.
      * constructor; [|constructor]. unfold w7. simpl.
        rewrite Hval6, decide_True by reflexivity. reflexivity.
    + unfold w7. simpl. rewrite lookup_insert_eq. simpl.
      rewrite Hsize6, length_app. simpl.
      rewrite wrap_small by lia. f_equal. lia.
    + rewrite length_app. simpl. lia.
    + intros q Hq. unfold w7. simpl. rewrite Hlive6.
      apply elem_of_app in Hq as [Hq|Hq].
      * apply elem_of_union. right. apply Hlive. exact Hq.
      * apply list_elem_of_singleton in Hq as ->. set_solver.
  - (* the store invariant *)
    apply (wf_world_advance N w w7 id st st'); try assumption.
    + pose proof (wf_cursor N w Hwf id st Hst). lia.
    + intros q Hq. unfold w7 in Hq. simpl in Hq.
      apply (fmap_is_Some value) in Hq. rewrite Hval6 in Hq.
      destruct (decide (q = p)) as [->|Hne].
      * right. exists st'. unfold w7. simpl. rewrite Har6.
        simpl. rewrite lookup_insert_eq. split; [reflexivity|simpl; lia].
      * left. apply (fmap_is_Some value). exact Hq.
    + intros q Hq. unfold w7 in Hq. simpl in Hq. rewrite Hlive6 in Hq.
      apply elem_of_union in Hq as [Hq|Hq]; [|left; exact Hq].
      apply elem_of_singleton in Hq as ->. right.
      exists st'. unfold w7. simpl. rewrite Har6.
      simpl. rewrite lookup_insert_eq. split; [reflexivity|simpl; lia].
  - split.
    + intros l Hl. unfold w7. simpl.
      assert (l <> this) as Hne by (intros ->; apply Hl; left).
      rewrite lookup_insert_ne by congruence. apply Hl6. exact Hne.
    + intros q Hq. unfold w7. simpl. apply Hn6.
      * intros ->. apply Hq. apply elem_of_app. right. left.
      * intros Hin. apply Hq. apply elem_of_app. left. exact Hin.
    + intros q Hq. unfold w7. simpl. rewrite Hlive6.
      assert (q <> p) by (intros ->; apply Hq; apply elem_of_app; right; left).
      set_solver.
    + intros id'. unfold w7. simpl. rewrite Har6.
      rewrite lookup_insert_is_Some'. split; [|tauto].
      intros [->|H]; [eauto|exact H].
  - unfold w7. simpl. exact Hlive6.
  - split.
    + unfold w7. simpl. rewrite lookup_insert_eq. simpl.
      specialize (Hna6 this). rewrite Ho6, Ho in Hna6. simpl in Hna6.
      congruence.
    + unfold w7. simpl. rewrite Har6, lookup_insert_eq. eauto.
Qed.

End PushBack.

Section PopBack.
Context {T : Type} {node_layout : Layout (Node T)}.
Implicit Types (w : World T) (c : ptr) (p q : arena_ptr) (l : Z)
  (ps : list arena_ptr) (vs : list T).

Lemma as_node_run w q n : nodes w !! q = Some n -> as_node (PNode q) w = Ok q w.
Proof. unfold as_node. intros ->. reflexivity. Qed.

Lemma pop_back_spec w this ps p vs v :
  is_list w this (ps ++ [p]) (vs ++ [v]) ->
  exists w',
    pop_back this w = Ok tt w' /\
    is_list w' this ps vs /\
    only_changes [this] (ps ++ [p]) w w' /\
    nodes w' !! p = None /\
    live w' = live w ∖ {[p]} /\
    arenas w' = arenas w /\
    ctor_calls w' = ctor_calls w /\
    (forall q, is_Some (nodes w' !! q) -> is_Some (nodes w !! q)) /\
    node_allocator_ <$> lists w' !! this = node_allocator_ <$> lists w !! this.
Proof.
  intros [Hring Hnd Hvals Hsize Hlen Hlive].
  apply ring_ends in Hring as [(Hn1 & Hn2 & Hn3) (Hp1 & Hp2 & Hp3)].
  rewrite last_of_snoc in Hn3, Hp1.
  rewrite fmap_snoc in Hn2. apply chain_snoc in Hn2 as [Hn2 Hn2'].
  rewrite reverse_snoc, fmap_cons in Hp2.
  apply chain_head in Hp2 as [Hp2' Hp2].
  apply NoDup_app in Hnd as (Hnd & Hdis & _).
  assert (forall q, q ∈ ps -> q <> p) as Hps.
  { intros q Hq ->. apply (Hdis p Hq). left. }
  apply Forall2_app_inv_l in Hvals as (vs1 & vs2 & Hv1 & Hv2 & Heq).
  inversion Hv2 as [|? v' ? ? Hvp Hnil]; subst. inversion Hnil; subst.
  apply app_inj_tail in Heq as [<- <-].
  destruct (nodes w !! p) as [np|] eqn:Hnp; [|discriminate Hvp].
  destruct (lists w !! this) as [o|] eqn:Ho; [|discriminate Hsize].
  remember (last_of this ps) as lst eqn:Hlst_def.
  assert (last (PNode <$> ps) = Some lst \/ ps = [] /\ lst = PHead this)
    as Hlast_cases.
  { rewrite fmap_last, Hlst_def. unfold last_of.
    destruct (last ps) eqn:Hl'; simpl; [left; reflexivity|right].
    apply last_None in Hl'. split; [exact Hl'|reflexivity]. }
  assert (lst <> PNode p) as Hlastp.
  { rewrite Hlst_def. unfold last_of.
    destruct (last ps) as [q|] eqn:Hl; simpl; [|discriminate].
    intros [= ->]. apply (Hps p); [|reflexivity].
    apply last_Some_elem_of. exact Hl. }
  assert (prev_of w (PNode p) = Some lst) as Hpp.
  { destruct Hlast_cases as [Hl'|[-> ->]].
    - rewrite fmap_reverse, head_reverse, Hl' in Hp2'. exact Hp2'.
    - exact Hp3. }
  unfold pop_back, decr, end_.
  rewrite (bind_Ok _ _ _ _ _ (read_prev_run _ _ _ Hp1)).
  unfold erase.
  rewrite (bind_Ok _ _ _ _ _ (read_prev_run _ _ _ Hpp)).
  rewrite (bind_Ok _ _ _ _ _ (read_next_run _ _ _ Hn3)).
  rewrite (bind_Ok _ _ _ _ _
            (write_prev_run (PHead this) lst w
               ltac:(eapply prev_of_is_Some; exact Hp1))).
  set (w1 := update_base _ _ w).
  rewrite (bind_Ok _ _ _ _ _
            (read_next_run (PNode p) w1 (PHead this)
               ltac:(unfold w1; rewrite next_of_set_prev; exact Hn3))).
  rewrite (bind_Ok _ _ _ _ _
            (read_prev_run (PNode p) w1 lst
               ltac:(unfold w1; rewrite prev_of_set_prev;
                     rewrite decide_False by discriminate; exact Hpp))).
  assert (is_Some (get_base w lst)) as Hlst_ok.
  { destruct Hlast_cases as [Hl'|[_ ->]].
    - destruct (last (PNode <$> ps)) as [y|]; [|discriminate].
      injection Hl' as ->. eapply next_of_is_Some. exact Hn2'.
    - eapply prev_of_is_Some. exact Hp1. }
  rewrite (bind_Ok _ _ _ _ _
            (write_next_run lst (PHead this) w1
               ltac:(unfold w1; rewrite get_base_update_base;
                     case_decide; [apply fmap_is_Some|]; exact Hlst_ok))).
  set (w2 := update_base _ _ w1).
  assert (forall l, size_ <$> lists w2 !! l = size_ <$> lists w !! l) as Hsz2.
  { intros l. unfold w2, w1. rewrite !size_update_base. reflexivity. }
  assert (forall l, node_allocator_ <$> lists w2 !! l
                    = node_allocator_ <$> lists w !! l) as Hna2.
  { intros l. unfold w2, w1. rewrite !node_allocator_update_base.
    reflexivity. }
  destruct (lists w2 !! this) as [o2|] eqn:Ho2.
  2:{ specialize (Hsz2 this). rewrite Ho2, Ho in Hsz2. discriminate. }
  rewrite (bind_Ok _ _ _ _ _ (get_list_run _ _ _ Ho2)).
  assert (forall q, value <$> nodes w2 !! q = value <$> nodes w !! q) as Hval2.
  { intros q. unfold w2, w1. rewrite !value_update_base. reflexivity. }
  destruct (nodes w2 !! p) as [np2|] eqn:Hnp2.
  2:{ specialize (Hval2 p). rewrite Hnp2, Hnp in Hval2. discriminate. }
  rewrite (bind_Ok _ _ _ _ _ (as_node_run _ _ _ Hnp2)).
  unfold destroy at 1. unfold bind at 1.
  unfold node_deallocate at 1. unfold bind at 1.
  set (w4 := set_live _ _).
  assert (lists w4 !! this = Some o2) as Ho4 by exact Ho2.
  rewrite (add_size_run this (-1) w4 o2 Ho4).
  set (w5 := set_lists _ w4).
  assert (forall c, get_base w5 c =
            if decide (c = PNode p) then None else get_base w2 c) as Hgb5.
  { intros c. unfold w5. rewrite (get_base_resize _ _ _ _ _ Ho4).
    unfold w4. rewrite get_base_set_live, get_base_set_arenas.
    apply get_base_delete_node. }
  assert (forall c, next_of w5 c =
            if decide (c = PNode p) then None
            else if decide (c = lst) then Some (PHead this)
            else next_of w c) as Hnext5.
  { intros c. unfold next_of. rewrite Hgb5. unfold w2, w1.
    rewrite !get_base_update_base.
    destruct Hlst_ok as [b' Hb'].
    destruct (prev_of_is_Some _ _ _ Hp1) as [b Hb].
    repeat case_decide; subst; try congruence; rewrite ?Hb, ?Hb';
      try reflexivity;
      repeat match goal with
             | |- context [get_base w ?x] => destruct (get_base w x)
             end; reflexivity. }
  assert (forall c, prev_of w5 c =
            if decide (c = PNode p) then None
            else if decide (c = PHead this) then Some lst
            else prev_of w c) as Hprev5.
  { intros c. unfold prev_of. rewrite Hgb5. unfold w2, w1.
    rewrite !get_base_update_base.
    destruct Hlst_ok as [b' Hb'].
    destruct (prev_of_is_Some _ _ _ Hp1) as [b Hb].
    repeat case_decide; subst; try congruence; rewrite ?Hb, ?Hb';
      try reflexivity;
      repeat match goal with
             | |- context [get_base w ?x] => destruct (get_base w x)
             end; reflexivity. }
  assert (forall q, nodes w5 !! q =
            if decide (q = p) then None else nodes w2 !! q) as Hnodes5.
  { intros q. unfold w5, w4. simpl. case_decide.
    - subst. apply lookup_delete_eq.
    - apply lookup_delete_ne. congruence. }
  exists w5. split; [reflexivity|].
  split; [|split; [|split; [|split; [|split; [|split; [|split]]]]]].
  - split.
    + apply ring_ends. rewrite <- Hlst_def.
      split; [split; [|split]|split; [|split]].
      * rewrite Hnext5, decide_False by discriminate.
        destruct ps as [|q0 ps0].
        -- rewrite decide_True by (rewrite Hlst_def; reflexivity). reflexivity.
        -- rewrite decide_False
             by (rewrite Hlst_def; unfold last_of;
                 destruct (last (q0 :: ps0)) eqn:E; simpl;
                 [discriminate|apply last_None in E; discriminate]).
           exact Hn1.
      * apply (chain_ext_nodup (next_of w)); [| |exact Hn2].
        -- apply NoDup_fmap_2; [|exact Hnd]. intros ? ? [= ->]. reflexivity.
        -- intros a Ha Hlast.
           apply list_elem_of_fmap in Ha as (q & -> & Hq).
           rewrite Hnext5.
           rewrite decide_False by (intros [= ->]; eapply Hps; eauto).
           rewrite decide_False; [reflexivity|].
           intros Heq. destruct Hlast_cases as [Hl'|[-> _]];
             [|inversion Hq]. congruence.
      * rewrite Hnext5, decide_False by exact Hlastp.
        rewrite decide_True by reflexivity. reflexivity.
      * rewrite Hprev5, decide_False by discriminate.
        rewrite decide_True by reflexivity. reflexivity.
      * apply (chain_ext_all (prev_of w)); [|exact Hp2].
        intros a Ha. apply list_elem_of_fmap in Ha as (q & -> & Hq).
        rewrite elem_of_reverse in Hq.
        rewrite Hprev5.
        rewrite decide_False by (intros [= ->]; eapply Hps; eauto).
        rewrite decide_False by discriminate. reflexivity.
      * destruct ps as [|q0 ps0].
        -- change (prev_of w5 (PHead this) = Some (PHead this)).
           rewrite Hprev5, decide_False by discriminate.
           rewrite decide_True by reflexivity. rewrite Hlst_def. reflexivity.
        -- change (prev_of w5 (PNode q0) = Some (PHead this)).
           rewrite Hprev5.
           rewrite decide_False
             by (intros [= ->]; apply (Hps p); [left|reflexivity]).
           rewrite decide_False by discriminate. exact Hp3.
    + exact Hnd.
    + eapply Forall2_impl_elem; [exact Hv1|]. intros q v0 Hq Hv. simpl.
      rewrite Hnodes5, decide_False by (eapply Hps; eauto).
      rewrite Hval2. exact Hv.
    + unfold w5. simpl. rewrite lookup_insert_eq. simpl.
      specialize (Hsz2 this). rewrite Ho2, Ho in Hsz2.
      simpl in Hsz2, Hsize. injection Hsz2 as Hsz2. injection Hsize as Hsize.
      rewrite Hsz2, Hsize.
      rewrite length_app. simpl.
      rewrite length_app in Hlen. simpl in Hlen.
      rewrite wrap_small by lia. f_equal. lia.
    + rewrite length_app in Hlen. simpl in Hlen. lia.
    + intros q Hq. unfold w5, w4. simpl. unfold w2, w1.
      rewrite !live_update_base.
      apply elem_of_difference. split.
      * apply Hlive. apply elem_of_app. left. exact Hq.
      * intros Hin. apply elem_of_singleton in Hin. eapply Hps; eauto.
  - split.
    + intros l Hl. unfold w5. simpl.
      assert (l <> this) as Hne by (intros ->; apply Hl; left).
      rewrite lookup_insert_ne by congruence.
      unfold w2, w1.
      rewrite lists_update_base_ne.
      2:{ rewrite Hlst_def; unfold last_of.
          destruct (last ps); simpl; congruence. }
      rewrite lists_update_base_ne by congruence. reflexivity.
    + intros q Hq. rewrite Hnodes5.
      rewrite decide_False
        by (intros ->; apply Hq; apply elem_of_app; right; left).
      unfold w2, w1.
      rewrite nodes_update_base_ne.
      2:{ rewrite Hlst_def; unfold last_of.
          destruct (last ps) as [q'|] eqn:Hl'; simpl; [|discriminate].
          intros [= ->]. apply Hq. apply elem_of_app. left.
          apply last_Some_elem_of. exact Hl'. }
      rewrite nodes_update_base_ne by discriminate. reflexivity.
    + intros q Hq. unfold w5, w4. simpl. unfold w2, w1.
      rewrite !live_update_base.
      assert (q <> p) by (intros ->; apply Hq; apply elem_of_app; right; left).
      set_solver.
    + intros id'. unfold w5, w4. simpl. unfold deallocate, w2, w1.
      rewrite !arenas_update_base. reflexivity.
  - rewrite Hnodes5, decide_True by reflexivity. reflexivity.
  - unfold w5, w4. simpl. unfold w2, w1. rewrite !live_update_base.
    reflexivity.
  - unfold w5, w4. simpl. unfold deallocate, w2, w1.
    rewrite !arenas_update_base. reflexivity.
  - unfold w5, w4. simpl. unfold w2, w1.
    rewrite !ctor_calls_update_base. reflexivity.
  - intros q. rewrite Hnodes5. case_decide; [intros [? ?]; discriminate|].
    unfold w2, w1. rewrite !nodes_update_base_is_Some. tauto.
  - unfold w5. simpl. rewrite lookup_insert_eq. simpl.
    specialize (Hna2 this). rewrite Ho2, Ho in Hna2. exact Hna2.
Qed.

Lemma is_list_snoc_values w this ps p us :
  is_list w this (ps ++ [p]) us -> exists vs v, us = vs ++ [v].
Proof.
  intros [_ _ Hv _ _ _].
  apply Forall2_app_inv_l in Hv as (vs1 & vs2 & _ & Hv2 & ->).
  inversion Hv2 as [|? v ? ? _ Hnil]; subst. inversion Hnil; subst.
  eauto.
Qed.

(** Popping as many times as there are elements empties the list and
    gives every node back. *)
Lemma repeat_pop_back_all w this ps vs :
  is_list w this ps vs ->
  exists w',
    repeat_pop_back this (length ps) w = Ok tt w' /\
    is_list w' this [] [] /\
    only_changes [this] ps w w' /\
    (forall q, q ∈ ps -> nodes w' !! q = None) /\
    live w' = live w ∖ list_to_set ps /\
    arenas w' = arenas w /\
    ctor_calls w' = ctor_calls w /\
    (forall q, is_Some (nodes w' !! q) -> is_Some (nodes w !! q)) /\
    node_allocator_ <$> lists w' !! this = node_allocator_ <$> lists w !! this.
Proof.
  revert w vs. induction ps as [|p ps IH] using rev_ind; intros w vs Hl.
  - exists w. simpl.
    assert (vs = []) as ->.
    { destruct Hl as [_ _ Hv _ _ _]. inversion Hv. reflexivity. }
    split; [reflexivity|]. split; [exact Hl|].
    split; [apply only_changes_refl|].
    split; [intros q Hq; inversion Hq|].
    split; [set_solver|]. repeat split; auto.
  - destruct (is_list_snoc_values _ _ _ _ _ Hl) as (vs0 & v & ->).
    destruct (pop_back_spec w this ps p vs0 v Hl)
      as (w1 & Hrun & Hl1 & Hoc1 & Hp1 & Hlive1 & Har1 & Hct1 & Hdom1 & Hna1).
    destruct (IH w1 vs0 Hl1)
      as (w' & Hrun' & Hl' & Hoc' & Hnone' & Hlive' & Har' & Hct' & Hdom' & Hna').
    exists w'. rewrite length_app, Nat.add_comm. simpl.
    rewrite (bind_Ok _ _ _ _ _ Hrun).
    split; [exact Hrun'|]. split; [exact Hl'|].
    split; [|split; [|split; [|split; [|split; [|split]]]]].
    + eapply only_changes_trans; [exact Hoc1|].
      eapply only_changes_weaken; [| |exact Hoc']; [auto|].
      intros q Hq. apply elem_of_app. left. exact Hq.
    + intros q Hq. apply elem_of_app in Hq as [Hq|Hq]; [auto|].
      apply list_elem_of_singleton in Hq as ->.
      destruct (nodes w' !! p) eqn:E; [|reflexivity].
      destruct (Hdom' p) as [x Hx]; [eauto|]. congruence.
    + rewrite Hlive', Hlive1. rewrite list_to_set_app_L. simpl. set_solver.
    + congruence.
    + congruence.
    + intros q Hq. apply Hdom1, Hdom', Hq.
    + congruence.
Qed.

End PopBack.

Section Building.
Context {T : Type} {node_layout : Layout (Node T)}.
Variable N : Z.
Variable ctor_throws : nat -> bool.
Variable default_value : T.
Implicit Types (w : World T) (c : ptr) (p q : arena_ptr) (l : Z)
  (ps qs : list arena_ptr) (vs us : list T).


Lemma built_start w0 this id :
  wf_world N w0 -> is_list w0 this [] [] -> allocates_from w0 this id ->
  built N w0 w0 this id [] [].
Proof.
  intros Hwf Hl Ha. split; try assumption.
  - intros q Hq. inversion Hq.
  - apply only_changes_refl.
  - set_solver.
Qed.

(** One [InsertHelper(end(), ...)] on a list being built. *)
Lemma built_step w0 w this id qs us arg :
  node_fits (T:=T) N ->
  built N w0 w this id qs us ->
  Z.of_nat (length qs) + 1 < size_max ->
  match InsertHelper N ctor_throws default_value this (PHead this) arg w with
  | Ok _ w' =>
      exists p, built N w0 w' this id (qs ++ [p])
                  (us ++ [default default_value arg])
  | Throw e w' => built N w0 w' this id qs us
  | _ => False
  end.
Proof.
  intros Hfit [Hl Hwf Ha Hfr Hch Hlv] Hlen.
  pose proof (InsertHelper_end N ctor_throws default_value w this qs us id arg
                Hwf Hfit Hl Ha Hlen) as H.
  destruct (InsertHelper _ _ _ _ _ _ w) as [[] w'|e w'| |]; try exact H.
  - destruct H as (p & Hnone & Hnl & Hl' & Hwf' & Hoc & Hlive & Ha').
    exists p.
    assert (p ∉ qs) as Hpq.
    { intros Hin. apply Hnl. apply (il_live _ _ _ _ Hl). exact Hin. }
    split; try assumption.
    + intros q Hq. apply elem_of_app in Hq as [Hq|Hq]; [auto|].
      apply list_elem_of_singleton in Hq as ->. split.
      * rewrite <- (oc_nodes _ _ _ _ Hch p Hpq). exact Hnone.
      * intros Hin. apply Hnl. apply (oc_live _ _ _ _ Hch p Hpq). exact Hin.
    + eapply only_changes_trans; [|exact Hoc].
      eapply only_changes_weaken; [| |exact Hch]; [auto|].
      intros q Hq. apply elem_of_app. left. exact Hq.
    + rewrite Hlive, Hlv, list_to_set_app_L. simpl. set_solver.
  - destruct H as (Hwf' & Hn & Hls & Hlive & Har).
    split.
    + apply (is_list_frame w); [exact Hl| | | |].
      * intros c _. destruct c; simpl; rewrite ?Hn, ?Hls; reflexivity.
      * intros q _. rewrite Hn. reflexivity.
      * rewrite Hls. reflexivity.
      * intros q _. rewrite Hlive. auto.
    + exact Hwf'.
    + destruct Ha as [Ha1 Ha2]. split; [rewrite Hls; exact Ha1|].
      apply Har. exact Ha2.
    + exact Hfr.
    + destruct Hch as [A B C D]. split.
      * intros l Hl'. rewrite Hls. auto.
      * intros q Hq. rewrite Hn. auto.
      * intros q Hq. rewrite Hlive. auto.
      * intros id'. rewrite Har. auto.
    + rewrite Hlive. exact Hlv.
Qed.

(** [~List()] on a well-formed list gives every node back and ends the
    object. *)
Lemma destructor_spec w this qs us :
  is_list w this qs us ->
  exists w',
    destructor this w = Ok tt w' /\
    (forall l, l <> this -> lists w' !! l = lists w !! l) /\
    lists w' !! this = None /\
    (forall q, q ∉ qs -> nodes w' !! q = nodes w !! q) /\
    (forall q, q ∈ qs -> nodes w' !! q = None) /\
    live w' = live w ∖ list_to_set qs /\
    arenas w' = arenas w /\
    ctor_calls w' = ctor_calls w.
Proof.
  intros Hl.
  destruct (lists w !! this) as [o|] eqn:Ho;
    [|pose proof (il_size _ _ _ _ Hl) as E; rewrite Ho in E; discriminate].
  pose proof (il_size _ _ _ _ Hl) as Hsz. rewrite Ho in Hsz.
  simpl in Hsz. injection Hsz as Hsz.
  destruct (repeat_pop_back_all w this qs us Hl)
    as (w1 & Hrun & Hl1 & Hoc & Hnone & Hlive & Har & Hct & Hdom & Hna).
  unfold destructor.
  rewrite (bind_Ok _ _ _ _ _ (get_list_run _ _ _ Ho)).
  unfold Destroy. rewrite Hsz, Nat2Z.id.
  rewrite (bind_Ok _ _ _ _ _ Hrun).
  unfold end_lifetime. eexists. split; [reflexivity|]. simpl.
  split; [|split; [|split; [|split; [|split; [|split]]]]].
  - intros l Hne. rewrite lookup_delete_ne by congruence.
    apply (oc_lists _ _ _ _ Hoc). intros Hin.
    apply list_elem_of_singleton in Hin. congruence.
  - apply lookup_delete_eq.
  - intros q Hq. apply (oc_nodes _ _ _ _ Hoc). exact Hq.
  - exact Hnone.
  - exact Hlive.
  - exact Har.
  - exact Hct.
Qed.

(** What the handler of a constructor does with a list that has been
    built so far: after [Destroy(count)] and the destructor, the nodes,
    the other lists and the outstanding regions are those of the store
    the list was built from. *)
Lemma built_unwind w0 w this id qs us e :
  built N w0 w this id qs us ->
  exists w',
    bind (Destroy this (Z.of_nat (length qs)))
      (fun _ => bind (destructor this) (fun _ => throw (A:=unit) e)) w
      = Throw e w' /\
    nodes w' = nodes w0 /\
    (forall l, l <> this -> lists w' !! l = lists w0 !! l) /\
    lists w' !! this = None /\
    live w' = live w0 /\
    wf_world N w'.
Proof.
  intros [Hl Hwf Ha Hfr Hch Hlv].
  destruct (repeat_pop_back_all w this qs us Hl)
    as (w1 & Hrun & Hl1 & Hoc & Hnone & Hlive & Har & Hct & Hdom & Hna).
  destruct (destructor_spec w1 this [] [] Hl1)
    as (w2 & Hrun2 & Hls2 & Hthis2 & Hn2 & _ & Hlive2 & Har2 & Hct2).
  exists w2. unfold Destroy. rewrite Nat2Z.id.
  rewrite (bind_Ok _ _ _ _ _ Hrun), (bind_Ok _ _ _ _ _ Hrun2).
  split; [reflexivity|].
  assert (nodes w2 = nodes w0) as Hnodes.
  { apply map_eq. intros q. rewrite Hn2 by (intros H; inversion H).
    destruct (decide (q ∈ qs)) as [Hq|Hq].
    - rewrite (Hnone q Hq). symmetry. apply Hfr. exact Hq.
    - rewrite (oc_nodes _ _ _ _ Hoc q Hq). apply (oc_nodes _ _ _ _ Hch q Hq). }
  assert (live w2 = live w0) as Hlive0.
  { rewrite Hlive2, Hlive, Hlv. simpl.
    apply set_eq. intros q. 
    assert (q ∈ qs -> q ∉ live w0) by (intros Hq; apply Hfr; exact Hq).
    rewrite !elem_of_difference, elem_of_union, elem_of_list_to_set.
    split; [intros [[[?|?] ?] _]; tauto|].
    intros Hq. split; [|set_solver]. split; [right; exact Hq|].
    intros Hin. tauto. }
  split; [exact Hnodes|].
  split.
  { intros l Hne. rewrite Hls2 by exact Hne.
    assert (l ∉ [this]) as Hnin
      by (intros Hin; apply list_elem_of_singleton in Hin; congruence).
    rewrite (oc_lists _ _ _ _ Hoc l Hnin). apply (oc_lists _ _ _ _ Hch l Hnin). }
  split; [exact Hthis2|]. split; [exact Hlive0|].
  apply (wf_world_shrink N w); [exact Hwf|congruence| |].
  - intros q Hq. rewrite Hnodes in Hq.
    destruct (decide (q ∈ qs)) as [Hin|Hin].
    + destruct Hq as [x Hx]. rewrite (proj1 (Hfr q Hin)) in Hx. discriminate.
    + rewrite (oc_nodes _ _ _ _ Hch q Hin). exact Hq.
  - intros q Hq. rewrite Hlive0 in Hq. rewrite Hlv. set_solver.
Qed.

(** [List(alloc)] at a free address. *)
Lemma List_alloc_spec w this a id :
  wf_world N w -> lists w !! this = None ->
  stack_storage_ a = Some id -> is_Some (arenas w !! id) ->
  exists w0,
    List_alloc this a w = Ok tt w0 /\
    built N w0 w0 this id [] [] /\
    nodes w0 = nodes w /\ live w0 = live w /\ arenas w0 = arenas w /\
    ctor_calls w0 = ctor_calls w /\
    lists w0 !! this <> None /\
    (forall l, l <> this -> lists w0 !! l = lists w !! l).
Proof.
  intros Hwf Hfree Ha Hid. unfold List_alloc, put_list.
  eexists. split; [reflexivity|].
  set (w0 := set_lists _ w).
  assert (wf_world N w0) as Hwf0.
  { apply (wf_world_shrink N w); auto. }
  split; [|repeat split].
  - apply built_start; [exact Hwf0| |].
    + split.
      * apply ring_ends. unfold first_of, last_of, next_of, prev_of. simpl.
        rewrite !lookup_insert_eq. simpl. repeat split.
      * constructor.
      * constructor.
      * unfold w0. simpl. rewrite lookup_insert_eq. reflexivity.
      * simpl. reflexivity.
      * intros q Hq. inversion Hq.
    + split; [|exact Hid]. unfold w0. simpl. rewrite lookup_insert_eq.
      simpl. unfold convert. destruct a as [o]. simpl in *. subst. reflexivity.
  - unfold w0. simpl. rewrite lookup_insert_eq. discriminate.
  - intros l Hne. unfold w0. simpl. apply lookup_insert_ne. congruence.
Qed.

(** The loop of the sized constructors on a list being built. *)
Lemma fill_built w0 this id arg todo :
  node_fits (T:=T) N ->
  forall w qs us,
  built N w0 w this id qs us ->
  Z.of_nat (length qs) + Z.of_nat todo < size_max ->
  match fill (InsertHelper N ctor_throws default_value this (PHead this) arg)
          todo (Z.of_nat (length qs)) w with
  | (count, Ok _ w') =>
      exists qs' us', built N w0 w' this id qs' us' /\
        length qs' = (length qs + todo)%nat /\
        us' = us ++ replicate todo (default default_value arg)
  | (count, Throw e w') =>
      exists qs' us', built N w0 w' this id qs' us' /\
        count = Z.of_nat (length qs') /\
        (length qs' < length qs + todo)%nat
  | _ => False
  end.
Proof.
  intros Hfit. induction todo as [|todo IH]; intros w qs us Hb Hlen.
  - simpl. exists qs, us. split; [exact Hb|]. split; [lia|].
    rewrite app_nil_r. reflexivity.
  - simpl.
    pose proof (built_step w0 w this id qs us arg Hfit Hb ltac:(lia)) as Hstep.
    destruct (InsertHelper _ _ _ _ _ _ w) as [[] w1|e w1| |]; try exact Hstep.
    + destruct Hstep as (p & Hb1).
      specialize (IH w1 (qs ++ [p]) (us ++ [default default_value arg]) Hb1).
      rewrite length_app in IH. simpl in IH.
      replace (Z.of_nat (length qs + 1)) with (Z.of_nat (length qs) + 1) in IH
        by lia.
      specialize (IH ltac:(lia)).
      destruct (fill _ todo _ w1) as [count [[] w'|e w'| |]]; try exact IH.
      * destruct IH as (qs' & us' & Hb' & Hlen' & Hus).
        exists qs', us'. split; [exact Hb'|]. split; [lia|].
        rewrite Hus, <- app_assoc. reflexivity.
      * destruct IH as (qs' & us' & Hb' & Hc & Hlen').
        exists qs', us'. split; [exact Hb'|]. split; [exact Hc|lia].
    + exists qs, us. split; [exact Hstep|]. split; [reflexivity|lia].
Qed.


Lemma unwind_restored w w0 w1 this id qs us e :
  lists w !! this = None ->
  nodes w0 = nodes w -> live w0 = live w ->
  (forall l, l <> this -> lists w0 !! l = lists w !! l) ->
  built N w0 w1 this id qs us ->
  exists w',
    bind (Destroy this (Z.of_nat (length qs)))
      (fun _ => bind (destructor this) (fun _ => throw (A:=unit) e)) w1
      = Throw e w' /\
    restored N w w'.
Proof.
  intros Hfree Hn0 Hl0 Hls0 Hb.
  destruct (built_unwind w0 w1 this id qs us e Hb)
    as (w' & Hrun & Hn & Hls & Hthis & Hlive & Hwf).
  exists w'. split; [exact Hrun|]. split; [congruence|].
  split; [|split; [congruence|exact Hwf]].
  apply map_eq. intros l. destruct (decide (l = this)) as [->|Hne].
  - congruence.
  - rewrite Hls by exact Hne. auto.
Qed.

(** [List(size, alloc)] and [List(size, value, alloc)] either build the
    [size] elements or leave the store as they found it. *)
Lemma sized_constructor w this size a id arg :
  wf_world N w -> node_fits (T:=T) N -> lists w !! this = None ->
  stack_storage_ a = Some id -> is_Some (arenas w !! id) ->
  0 <= size < size_max ->
  match (bind (List_alloc this a)
           (fun _ => guarded this
              (fill (InsertHelper N ctor_throws default_value this
                       (PHead this) arg) (Z.to_nat size) 0))) w with
  | Ok _ w' =>
      exists qs, is_list w' this qs
                   (replicate (Z.to_nat size) (default default_value arg)) /\
                 wf_world N w'
  | Throw e w' => restored N w w'
  | _ => False
  end.
Proof.
  intros Hwf Hfit Hfree Ha Hid Hsize.
  destruct (List_alloc_spec w this a id Hwf Hfree Ha Hid)
    as (w0 & Hrun & Hb0 & Hn0 & Hl0 & Har0 & Hct0 & _ & Hls0).
  rewrite (bind_Ok _ _ _ _ _ Hrun). unfold guarded.
  pose proof (fill_built w0 this id arg (Z.to_nat size) Hfit w0 [] [] Hb0
                ltac:(simpl; lia)) as Hfill.
  simpl in Hfill. change (Z.of_nat 0) with 0 in Hfill.
  destruct (fill _ _ 0 w0) as [count [[] w1|e w1| |]]; try exact Hfill.
  - destruct Hfill as (qs' & us' & Hb' & Hlen & ->).
    exists qs'. split; [exact (b_list _ _ _ _ _ _ _ Hb')|exact (b_wf _ _ _ _ _ _ _ Hb')].
  - destruct Hfill as (qs' & us' & Hb' & -> & Hlen).
    destruct (unwind_restored w w0 w1 this id qs' us' e Hfree Hn0 Hl0 Hls0 Hb')
      as (w' & Hrun' & Hres).
    unfold bind in Hrun'. unfold bind. rewrite Hrun'. exact Hres.
Qed.

End Building.

Section Positions.
Context {T : Type} {node_layout : Layout (Node T)}.
Implicit Types (w : World T) (c : ptr) (p q : arena_ptr) (l : Z)
  (ps qs : list arena_ptr) (vs us : list T).

Lemma is_list_begin w s ps vs :
  is_list w s ps vs -> next_of w (PHead s) = Some (first_of s ps).
Proof. intros [Hr _ _ _ _ _]. apply ring_ends in Hr. tauto. Qed.

Lemma is_list_last w s ps vs :
  is_list w s ps vs -> prev_of w (PHead s) = Some (last_of s ps).
Proof. intros [Hr _ _ _ _ _]. apply ring_ends in Hr. tauto. Qed.

Lemma chain_at {A} (f : A -> option A) a L1 x L2 z :
  chain f (a :: (L1 ++ x :: L2) ++ [z]) -> f x = Some (default z (head L2)).
Proof.
  rewrite <- app_assoc, <- app_comm_cons, app_comm_cons.
  intros H. apply chain_app in H as [_ H].
  apply chain_head in H as [H _].
  destruct L2; exact H.
Qed.

Lemma head_fmap_PNode ps : head (PNode <$> ps) = PNode <$> head ps.
Proof. destruct ps; reflexivity. Qed.

Lemma is_list_next_at w s ps1 q ps2 vs :
  is_list w s (ps1 ++ q :: ps2) vs ->
  next_of w (PNode q) = Some (first_of s ps2).
Proof.
  intros [[Hn _] _ _ _ _ _].
  rewrite fmap_app, fmap_cons in Hn.
  apply chain_at in Hn. rewrite head_fmap_PNode in Hn. exact Hn.
Qed.

Lemma is_list_prev_at w s ps1 q ps2 vs :
  is_list w s (ps1 ++ q :: ps2) vs ->
  prev_of w (PNode q) = Some (last_of s ps1).
Proof.
  intros [[_ Hp] _ _ _ _ _].
  rewrite reverse_app, reverse_cons, <- app_assoc in Hp.
  change ([q] ++ reverse ps1) with (q :: reverse ps1) in Hp.
  rewrite fmap_app, fmap_cons in Hp.
  apply chain_at in Hp. rewrite head_fmap_PNode, head_reverse in Hp. exact Hp.
Qed.

Lemma is_list_value_at w s ps1 q ps2 vs1 v vs2 :
  is_list w s (ps1 ++ q :: ps2) (vs1 ++ v :: vs2) ->
  length ps1 = length vs1 ->
  value <$> nodes w !! q = Some v.
Proof.
  intros [_ _ Hv _ _ _] Hlen.
  apply Forall2_app_inv in Hv as [_ Hv]; [|exact Hlen].
  inversion Hv; subst. assumption.
Qed.

Lemma is_list_length w s ps vs : is_list w s ps vs -> length ps = length vs.
Proof. intros [_ _ Hv _ _ _]. eapply Forall2_length. exact Hv. Qed.

Lemma deref_run w q v :
  value <$> nodes w !! q = Some v -> deref (PNode q) w = Ok v w.
Proof.
  intros H. unfold deref, bind, as_node.
  destruct (nodes w !! q) as [n|] eqn:E; [|discriminate].
  rewrite E. simpl in H. injection H as ->. reflexivity.
Qed.

End Positions.

Section Copying.
Context {T : Type} {node_layout : Layout (Node T)}.
Variable N : Z.
Variable ctor_throws : nat -> bool.
Variable default_value : T.
Implicit Types (w : World T) (c : ptr) (p q : arena_ptr) (l : Z)
  (ps qs : list arena_ptr) (vs us : list T).

(** A list of the base store is untouched while another one is built. *)
Lemma source_kept w0 w this id qs us other ps vs :
  built N w0 w this id qs us -> is_list w0 other ps vs -> other <> this ->
  is_list w other ps vs.
Proof.
  intros Hb Hsrc Hne.
  apply (is_list_only_changes [this] qs w0); [exact Hsrc| | |].
  - exact (b_changes _ _ _ _ _ _ _ Hb).
  - intros Hin. apply list_elem_of_singleton in Hin. congruence.
  - intros q Hq Hin.
    destruct (b_fresh _ _ _ _ _ _ _ Hb q Hin) as [Hnone _].
    pose proof (il_values _ _ _ _ Hsrc) as Hv.
    apply list_elem_of_lookup in Hq as [i Hi].
    destruct (Forall2_lookup_l _ _ _ _ _ Hv Hi) as (v & _ & Hval).
    rewrite Hnone in Hval. discriminate.
Qed.

Lemma copy_elements_S fuel this it last count w :
  copy_elements N ctor_throws default_value (S fuel) this it last count w =
    if decide (it = last) then (count, Ok tt w)
    else
      match bind (deref it)
              (fun v => bind (push_back N ctor_throws default_value this v)
                          (fun _ => incr it)) w with
      | Ok it' w' =>
          copy_elements N ctor_throws default_value fuel this it' last
            (count + 1) w'
      | Throw e w' => (count, Throw e w')
      | UB => (count, UB)
      | OutOfFuel => (count, OutOfFuel)
      end.
Proof. reflexivity. Qed.

(** The range-for loop of the copy constructor and of copy assignment,
    entered at the node that starts [ps2]. *)
Lemma copy_elements_built w0 this id other :
  node_fits (T:=T) N -> other <> this ->
  forall ps2 ps1 vs1 vs2 fuel w qs us,
  is_list w0 other (ps1 ++ ps2) (vs1 ++ vs2) -> length ps1 = length vs1 ->
  built N w0 w this id qs us ->
  (length ps2 < fuel)%nat ->
  Z.of_nat (length qs) + Z.of_nat (length ps2) < size_max ->
  match copy_elements N ctor_throws default_value fuel this
          (first_of other ps2) (PHead other) (Z.of_nat (length qs)) w with
  | (count, Ok _ w') =>
      exists qs', built N w0 w' this id qs' (us ++ vs2)
  | (count, Throw e w') =>
      exists qs' us', built N w0 w' this id qs' us' /\
                      count = Z.of_nat (length qs')
  | _ => False
  end.
Proof.
  intros Hfit Hne.
  induction ps2 as [|q ps2 IH]; intros ps1 vs1 vs2 fuel w qs us
    Hsrc Hlen Hb Hfuel Hbound.
  - destruct fuel as [|fuel]; [simpl in Hfuel; lia|].
    change (first_of other []) with (PHead other).
    rewrite copy_elements_S, decide_True by reflexivity.
    assert (vs2 = []) as ->.
    { apply is_list_length in Hsrc. rewrite !length_app in Hsrc.
      simpl in Hsrc. destruct vs2; [reflexivity|simpl in Hsrc; lia]. }
    exists qs. rewrite app_nil_r. exact Hb.
  - destruct fuel as [|fuel]; [simpl in Hfuel; lia|].
    destruct vs2 as [|v vs2].
    { apply is_list_length in Hsrc. rewrite !length_app in Hsrc.
      simpl in Hsrc. lia. }
    change (first_of other (q :: ps2)) with (PNode q).
    rewrite copy_elements_S, decide_False by discriminate.
    pose proof (source_kept w0 w this id qs us other _ _ Hb Hsrc Hne) as Hsrc_w.
    rewrite (bind_Ok _ _ _ _ _
               (deref_run w q v (is_list_value_at _ _ _ _ _ _ _ _ Hsrc_w Hlen))).
    unfold push_back, insert, end_.
    pose proof (built_step N ctor_throws default_value w0 w this id qs us
                  (Some v) Hfit Hb ltac:(simpl in Hbound; lia)) as Hstep.
    unfold bind at 1.
    destruct (InsertHelper _ _ _ _ _ _ w) as [[] w1|e w1| |]; try exact Hstep.
    + destruct Hstep as (p & Hb1).
      pose proof (source_kept w0 w1 this id _ _ other _ _ Hb1 Hsrc Hne)
        as Hsrc_w1.
      unfold incr.
      rewrite (read_next_run _ _ _ (is_list_next_at _ _ _ _ _ _ Hsrc_w1)).
      specialize (IH (ps1 ++ [q]) (vs1 ++ [v]) vs2 fuel w1 (qs ++ [p])
                    (us ++ [v])).
      rewrite <- !app_assoc in IH. simpl in IH.
      specialize (IH Hsrc ltac:(rewrite !length_app; simpl; lia) Hb1
                    ltac:(simpl in Hfuel; lia)).
      rewrite length_app in IH. simpl in IH.
      replace (Z.of_nat (length qs + 1)) with (Z.of_nat (length qs) + 1) in IH
        by lia.
      specialize (IH ltac:(simpl in Hbound; lia)).
      exact IH.
    + exists qs, us. split; [exact Hstep|reflexivity].
Qed.

End Copying.

Section CopyConstruction.
Context {T : Type} {node_layout : Layout (Node T)}.
Variable N : Z.
Variable ctor_throws : nat -> bool.
Variable default_value : T.
Implicit Types (w : World T) (c : ptr) (p q : arena_ptr) (l : Z)
  (ps qs : list arena_ptr) (vs us : list T).

(** The destructor of a list that has been built gives back what was
    built. *)
Lemma destructor_built w0 w this id qs us :
  built N w0 w this id qs us ->
  exists w',
    destructor this w = Ok tt w' /\
    nodes w' = nodes w0 /\
    (forall l, l <> this -> lists w' !! l = lists w0 !! l) /\
    lists w' !! this = None /\
    live w' = live w0 /\
    wf_world N w'.
Proof.
  intros [Hl Hwf Ha Hfr Hch Hlv].
  destruct (destructor_spec w this qs us Hl)
    as (w2 & Hrun2 & Hls2 & Hthis2 & Hn2 & Hnone & Hlive2 & Har2 & Hct2).
  exists w2. split; [exact Hrun2|].
  assert (nodes w2 = nodes w0) as Hnodes.
  { apply map_eq. intros q.
    destruct (decide (q ∈ qs)) as [Hq|Hq].
    - rewrite (Hnone q Hq). symmetry. apply Hfr. exact Hq.
    - rewrite (Hn2 q Hq). apply (oc_nodes _ _ _ _ Hch q Hq). }
  assert (live w2 = live w0) as Hlive0.
  { rewrite Hlive2, Hlv.
    apply set_eq. intros q.
    assert (q ∈ qs -> q ∉ live w0) by (intros Hq; apply Hfr; exact Hq).
    rewrite !elem_of_difference, elem_of_union, elem_of_list_to_set.
    tauto. }
  split; [exact Hnodes|].
  split.
  { intros l Hne. rewrite Hls2 by exact Hne.
    apply (oc_lists _ _ _ _ Hch l).
    intros Hin; apply list_elem_of_singleton in Hin; congruence. }
  split; [exact Hthis2|]. split; [exact Hlive0|].
  apply (wf_world_shrink N w); [exact Hwf|congruence| |].
  - intros q Hq. rewrite Hnodes in Hq.
    destruct (decide (q ∈ qs)) as [Hin|Hin].
    + destruct Hq as [x Hx]. rewrite (proj1 (Hfr q Hin)) in Hx. discriminate.
    + rewrite (oc_nodes _ _ _ _ Hch q Hin). exact Hq.
  - intros q Hq. rewrite Hlive0 in Hq. rewrite Hlv. set_solver.
Qed.

(** A list is untouched by the construction of an empty list elsewhere. *)
Lemma is_list_after_alloc w w0 this other ps vs :
  is_list w other ps vs -> other <> this ->
  nodes w0 = nodes w -> live w0 = live w ->
  (forall l, l <> this -> lists w0 !! l = lists w !! l) ->
  is_list w0 other ps vs.
Proof.
  intros Hl Hne Hn Hlv Hls.
  apply (is_list_frame w); [exact Hl| | | |].
  - intros c Hc. destruct c as [|l|q]; simpl; [reflexivity| |].
    + apply elem_of_cons in Hc as [[= ->]|Hc].
      * rewrite Hls by exact Hne. reflexivity.
      * apply list_elem_of_fmap in Hc as (q & Hq & _). discriminate.
    + rewrite Hn. reflexivity.
  - intros q _. rewrite Hn. reflexivity.
  - rewrite Hls by exact Hne. reflexivity.
  - intros q _. rewrite Hlv. auto.
Qed.


(** [List(const List& other)]: a copy with nodes of its own, or the store
    as it was. *)
Lemma List_copy_spec w fuel this other ps vs id :
  wf_world N w -> node_fits (T:=T) N ->
  lists w !! this = None ->
  is_list w other ps vs -> base_allocator w other id ->
  (length ps < fuel)%nat ->
  match List_copy N ctor_throws default_value fuel this other w with
  | Ok _ w' =>
      exists qs,
        is_list w' this qs vs /\ is_list w' other ps vs /\
        (forall q, q ∈ qs -> q ∉ ps) /\ wf_world N w' /\
        allocates_from w' this id
  | Throw e w' => restored N w w'
  | _ => False
  end.
Proof.
  intros Hwf Hfit Hfree Hsrc [Hal Hid] Hfuel.
  assert (other <> this) as Hne.
  { intros ->. pose proof (il_size _ _ _ _ Hsrc) as E.
    rewrite Hfree in E. discriminate. }
  destruct (lists w !! other) as [o|] eqn:Ho; [|discriminate Hal].
  simpl in Hal. injection Hal as Hal.
  unfold List_copy.
  rewrite (bind_Ok _ _ _ _ _ (get_list_run _ _ _ Ho)).
  destruct (List_alloc_spec N w this
              (select_on_container_copy_construction (alloc o)) id Hwf Hfree
              ltac:(rewrite Hal; reflexivity) Hid)
    as (w0 & Hrun & Hb0 & Hn0 & Hl0 & Har0 & Hct0 & _ & Hls0).
  rewrite (bind_Ok _ _ _ _ _ Hrun).
  pose proof (is_list_after_alloc w w0 this other ps vs Hsrc Hne Hn0 Hl0 Hls0)
    as Hsrc0.
  unfold begin.
  rewrite (bind_Ok _ _ _ _ _ (read_next_run _ _ _ (is_list_begin _ _ _ _ Hsrc0))).
  unfold guarded, end_.
  pose proof (copy_elements_built N ctor_throws default_value w0 this id other
                Hfit Hne ps [] [] vs fuel w0 [] [] Hsrc0 eq_refl Hb0 Hfuel
                ltac:(simpl; pose proof (il_bound _ _ _ _ Hsrc); lia)) as Hloop.
  change (Z.of_nat (length [])) with 0 in Hloop.
  destruct (copy_elements _ _ _ fuel this _ _ 0 w0)
    as [count [[] w1|e w1| |]]; try exact Hloop.
  - destruct Hloop as (qs' & Hb'). simpl in Hb'.
    exists qs'. split; [exact (b_list _ _ _ _ _ _ _ Hb')|].
    split; [exact (source_kept N w0 w1 this id _ _ other _ _ Hb' Hsrc0 Hne)|].
    split; [|split; [exact (b_wf _ _ _ _ _ _ _ Hb')
                    |exact (b_alloc _ _ _ _ _ _ _ Hb')]].
    intros q Hq Hin.
    destruct (b_fresh _ _ _ _ _ _ _ Hb' q Hq) as [Hnone _].
    pose proof (il_values _ _ _ _ Hsrc0) as Hv.
    apply list_elem_of_lookup in Hin as [i Hi].
    destruct (Forall2_lookup_l _ _ _ _ _ Hv Hi) as (v & _ & Hval).
    rewrite Hnone in Hval. discriminate.
  - destruct Hloop as (qs' & us' & Hb' & ->).
    destruct (unwind_restored N w w0 w1 this id qs' us' e Hfree Hn0 Hl0 Hls0 Hb')
      as (w' & Hrun' & Hres).
    unfold bind in Hrun'. unfold bind. rewrite Hrun'. exact Hres.
Qed.

End CopyConstruction.

Section Swapping.
Context {T : Type} {node_layout : Layout (Node T)}.
Implicit Types (w : World T) (c : ptr) (p q : arena_ptr) (l : Z)
  (ps qs : list arena_ptr) (vs us : list T).

Lemma put_list_run l o w :
  put_list l o w = Ok tt (set_lists (<[l := o]> (lists w)) w).
Proof. reflexivity. Qed.

Lemma swap_prev_run x y w vx vy :
  prev_of w x = Some vx -> prev_of w y = Some vy ->
  swap_prev x y w =
    Ok tt (update_base (set_prev vx) y (update_base (set_prev vy) x w)).
Proof.
  intros Hx Hy. unfold swap_prev.
  rewrite (bind_Ok _ _ _ _ _ (read_prev_run _ _ _ Hx)).
  rewrite (bind_Ok _ _ _ _ _ (read_prev_run _ _ _ Hy)).
  rewrite (bind_Ok _ _ _ _ _
            (write_prev_run x vy w ltac:(eapply prev_of_is_Some; exact Hx))).
  apply write_prev_run. rewrite get_base_update_base.
  case_decide; [apply fmap_is_Some|]; eapply prev_of_is_Some; exact Hy.
Qed.

Lemma swap_next_run x y w vx vy :
  next_of w x = Some vx -> next_of w y = Some vy ->
  swap_next x y w =
    Ok tt (update_base (set_next vx) y (update_base (set_next vy) x w)).
Proof.
  intros Hx Hy. unfold swap_next.
  rewrite (bind_Ok _ _ _ _ _ (read_next_run _ _ _ Hx)).
  rewrite (bind_Ok _ _ _ _ _ (read_next_run _ _ _ Hy)).
  rewrite (bind_Ok _ _ _ _ _
            (write_next_run x vy w ltac:(eapply next_of_is_Some; exact Hx))).
  apply write_next_run. rewrite get_base_update_base.
  case_decide; [apply fmap_is_Some|]; eapply next_of_is_Some; exact Hy.
Qed.

Lemma first_of_cases s ps :
  (ps = [] /\ first_of s ps = PHead s) \/
  (exists q, head ps = Some q /\ first_of s ps = PNode q /\ q ∈ ps).
Proof.
  destruct ps as [|q ps]; [left; split; reflexivity|right].
  exists q. split; [reflexivity|]. split; [reflexivity|left].
Qed.

Lemma last_of_cases s ps :
  (ps = [] /\ last_of s ps = PHead s) \/
  (exists q, last ps = Some q /\ last_of s ps = PNode q /\ q ∈ ps).
Proof.
  unfold last_of. destruct (last ps) as [q|] eqn:E.
  - right. exists q. split; [reflexivity|]. split; [reflexivity|].
    apply last_Some_elem_of. exact E.
  - left. apply last_None in E. split; [exact E|reflexivity].
Qed.

(** [Swap] of two distinct lists that are both empty or both non-empty
    exchanges their rings. *)
Lemma Swap_spec w a b ps vs qs us :
  a <> b ->
  is_list w a ps vs -> is_list w b qs us ->
  (forall q, q ∈ ps -> q ∉ qs) ->
  (ps = [] <-> qs = []) ->
  exists w',
    Swap a b w = Ok tt w' /\
    is_list w' a qs us /\ is_list w' b ps vs /\
    only_changes [a; b] (ps ++ qs) w w' /\
    live w' = live w /\ arenas w' = arenas w /\
    ctor_calls w' = ctor_calls w /\
    (forall q, is_Some (nodes w' !! q) <-> is_Some (nodes w !! q)).
Proof.
  intros Hab Ha Hb Hdis Hempty.
  pose proof Ha as [Hra Hnda Hva Hsa Hba Hla].
  pose proof Hb as [Hrb Hndb Hvb Hsb Hbb Hlb].
  apply ring_ends in Hra as [(Han1 & Han2 & Han3) (Hap1 & Hap2 & Hap3)].
  apply ring_ends in Hrb as [(Hbn1 & Hbn2 & Hbn3) (Hbp1 & Hbp2 & Hbp3)].
  destruct (lists w !! a) as [oa|] eqn:Hoa; [|discriminate Hsa].
  destruct (lists w !! b) as [ob|] eqn:Hob; [|discriminate Hsb].
  assert (head_ oa = {| next := first_of a ps; prev := last_of a ps |}) as Hha.
  { unfold next_of, prev_of in Han1, Hap1. simpl in Han1, Hap1.
    rewrite Hoa in Han1, Hap1. simpl in *. destruct (head_ oa). simpl in *.
    congruence. }
  assert (head_ ob = {| next := first_of b qs; prev := last_of b qs |}) as Hhb.
  { unfold next_of, prev_of in Hbn1, Hbp1. simpl in Hbn1, Hbp1.
    rewrite Hob in Hbn1, Hbp1. simpl in *. destruct (head_ ob). simpl in *.
    congruence. }
  unfold Swap.
  rewrite (bind_Ok _ _ _ _ _ (get_list_run _ _ _ Hoa)).
  rewrite (bind_Ok _ _ _ _ _ (get_list_run _ _ _ Hob)).
  rewrite (bind_Ok _ _ _ _ _ (put_list_run a ob w)).
  rewrite (bind_Ok _ _ _ _ _ (put_list_run b oa _)).
  set (w1 := set_lists (<[b := oa]> _) _).
  assert (forall c, get_base w1 c =
            if decide (c = PHead b) then Some (head_ oa)
            else if decide (c = PHead a) then Some (head_ ob)
            else get_base w c) as Hgb1.
  { intros c. unfold w1. rewrite !get_base_insert_list. reflexivity. }
  assert (forall c, next_of w1 c =
            if decide (c = PHead b) then Some (first_of a ps)
            else if decide (c = PHead a) then Some (first_of b qs)
            else next_of w c) as Hnext1.
  { intros c. unfold next_of. rewrite Hgb1, Hha, Hhb.
    repeat case_decide; reflexivity. }
  assert (forall c, prev_of w1 c =
            if decide (c = PHead b) then Some (last_of a ps)
            else if decide (c = PHead a) then Some (last_of b qs)
            else prev_of w c) as Hprev1.
  { intros c. unfold prev_of. rewrite Hgb1, Hha, Hhb.
    repeat case_decide; reflexivity. }
  assert (forall l, lists w1 !! l =
            if decide (l = b) then Some oa
            else if decide (l = a) then Some ob else lists w !! l) as Hls1.
  { intros l. unfold w1. simpl.
    destruct (decide (l = b)) as [->|Hneqb]; [apply lookup_insert_eq|].
    rewrite lookup_insert_ne by congruence.
    destruct (decide (l = a)) as [->|Hla']; [apply lookup_insert_eq|].
    rewrite lookup_insert_ne by congruence. reflexivity. }
  rewrite (bind_Ok _ _ _ _ _
            (read_next_run (PHead a) w1 (first_of b qs)
               ltac:(rewrite Hnext1, decide_False by congruence;
                     rewrite decide_True by reflexivity; reflexivity))).
  rewrite (bind_Ok _ _ _ _ _
            (read_next_run (PHead b) w1 (first_of a ps)
               ltac:(rewrite Hnext1, decide_True by reflexivity; reflexivity))).
  destruct ps as [|p1 ps'].
  - (* both lists are empty *)
    assert (qs = []) as -> by (apply Hempty; reflexivity).
    change (first_of b []) with (PHead b). change (first_of a []) with (PHead a).
    change (last_of b []) with (PHead b) in *.
    change (last_of a []) with (PHead a) in *.
    change (first_of b []) with (PHead b) in *.
    change (first_of a []) with (PHead a) in *.
    rewrite (bind_Ok _ _ _ _ _
              (swap_prev_run (PHead b) (PHead a) w1 (PHead a) (PHead b)
                 ltac:(rewrite Hprev1, decide_True by reflexivity; reflexivity)
                 ltac:(rewrite Hprev1, decide_False by congruence;
                       rewrite decide_True by reflexivity; reflexivity))).
    set (w2 := update_base _ (PHead b) w1).
    set (w3 := update_base _ (PHead a) w2).
    assert (forall c, prev_of w3 c =
              if decide (c = PHead a) then Some (PHead a)
              else if decide (c = PHead b) then Some (PHead b)
              else prev_of w c) as Hprev3.
    { intros c. unfold w3, w2, prev_of.
      rewrite !get_base_update_base, Hgb1, Hha, Hhb.
      repeat case_decide; subst; try congruence; simpl; try reflexivity;
        destruct (get_base w c); reflexivity. }
    assert (forall c, next_of w3 c = next_of w1 c) as Hnext3.
    { intros c. unfold w3, w2. rewrite !next_of_set_prev. reflexivity. }
    rewrite (bind_Ok _ _ _ _ _
              (read_prev_run (PHead a) w3 (PHead a)
                 ltac:(rewrite Hprev3, decide_True by reflexivity; reflexivity))).
    rewrite (bind_Ok _ _ _ _ _
              (read_prev_run (PHead b) w3 (PHead b)
                 ltac:(rewrite Hprev3, decide_False by congruence;
                       rewrite decide_True by reflexivity; reflexivity))).
    rewrite (swap_next_run (PHead a) (PHead b) w3 (PHead b) (PHead a)
               ltac:(rewrite Hnext3, Hnext1, decide_False by congruence;
                     rewrite decide_True by reflexivity; reflexivity)
               ltac:(rewrite Hnext3, Hnext1, decide_True by reflexivity;
                     reflexivity)).
    set (w4 := update_base _ (PHead a) w3).
    set (w5 := update_base _ (PHead b) w4).
    assert (forall c, next_of w5 c =
              if decide (c = PHead a) then Some (PHead a)
              else if decide (c = PHead b) then Some (PHead b)
              else next_of w c) as Hnext5.
    { intros c. unfold w5, w4, w3, w2, next_of.
      rewrite !get_base_update_base, Hgb1, Hha, Hhb.
      repeat case_decide; subst; try congruence; simpl; try reflexivity;
        destruct (get_base w c); reflexivity. }
    assert (forall c, prev_of w5 c = prev_of w3 c) as Hprev5.
    { intros c. unfold w5, w4. rewrite !prev_of_set_next. reflexivity. }
    assert (forall l, size_ <$> lists w5 !! l = size_ <$> lists w1 !! l) as Hsz5.
    { intros l. unfold w5, w4, w3, w2. rewrite !size_update_base. reflexivity. }
    assert (forall q, nodes w5 !! q = nodes w !! q) as Hn5.
    { intros q. unfold w5, w4, w3, w2.
      rewrite !nodes_update_base_ne by discriminate. reflexivity. }
    assert (forall l, l <> a -> l <> b -> lists w5 !! l = lists w !! l) as Hl5.
    { intros l H1 H2. unfold w5, w4, w3, w2.
      rewrite !lists_update_base_ne by congruence.
      rewrite Hls1, !decide_False by congruence. reflexivity. }
    assert (live w5 = live w) as Hlive5.
    { unfold w5, w4, w3, w2. rewrite !live_update_base. reflexivity. }
    exists w5. split; [reflexivity|].
    assert (forall s, s = a \/ s = b ->
              size_ <$> lists w5 !! s = Some 0 -> is_list w5 s [] []) as Hmk.
    { intros s Hs Hsz. split.
      - apply ring_ends. change (first_of s []) with (PHead s).
        change (last_of s []) with (PHead s). simpl.
        rewrite Hnext5, Hprev5, Hprev3.
        destruct Hs as [->| ->].
        + rewrite !decide_True by reflexivity. repeat split.
        + rewrite !(decide_False (P := PHead b = PHead a)) by congruence.
          rewrite !decide_True by reflexivity. repeat split.
      - constructor.
      - constructor.
      - exact Hsz.
      - simpl. reflexivity.
      - intros q Hq. inversion Hq. }
    simpl in Hsa, Hsb. injection Hsa as Hsa. injection Hsb as Hsb.
    inversion Hva; subst. inversion Hvb; subst.
    split; [|split; [|split; [|split; [|split; [|split]]]]].
    + apply Hmk; [left; reflexivity|].
      rewrite Hsz5, Hls1, decide_False by congruence.
      rewrite decide_True by reflexivity. simpl. rewrite Hsb. reflexivity.
    + apply Hmk; [right; reflexivity|].
      rewrite Hsz5, Hls1, decide_True by reflexivity.
      simpl. rewrite Hsa. reflexivity.
    + split.
      * intros l Hl. apply Hl5; intros ->; apply Hl; [left|right; left].
      * intros q _. apply Hn5.
      * intros q _. rewrite Hlive5. reflexivity.
      * intros id. unfold w5, w4, w3, w2. rewrite !arenas_update_base.
        reflexivity.
    + exact Hlive5.
    + unfold w5, w4, w3, w2. rewrite !arenas_update_base. reflexivity.
    + unfold w5, w4, w3, w2. rewrite !ctor_calls_update_base. reflexivity.
    + intros q. rewrite Hn5. reflexivity.
  - (* both lists are non-empty *)
    destruct qs as [|q1 qs'];
      [destruct Hempty as [_ Hempty]; discriminate (Hempty eq_refl)|].
    remember (p1 :: ps') as ps eqn:Hps_def.
    remember (q1 :: qs') as qs eqn:Hqs_def.
    assert (first_of a ps = PNode p1 /\ first_of b ps = PNode p1) as [Hfa Hfa']
      by (rewrite Hps_def; split; reflexivity).
    assert (first_of b qs = PNode q1 /\ first_of a qs = PNode q1) as [Hfb Hfb']
      by (rewrite Hqs_def; split; reflexivity).
    assert (p1 ∈ ps) as Hp1 by (rewrite Hps_def; left).
    assert (q1 ∈ qs) as Hq1 by (rewrite Hqs_def; left).
    destruct (last_of_cases a ps) as [[E _]|(pk & Hlpk & Hla' & Hpk)];
      [rewrite Hps_def in E; discriminate|].
    destruct (last_of_cases b qs) as [[E _]|(qm & Hlqm & Hlb' & Hqm)];
      [rewrite Hqs_def in E; discriminate|].
    assert (last_of b ps = PNode pk) as Hla''
      by (unfold last_of; rewrite Hlpk; reflexivity).
    assert (last_of a qs = PNode qm) as Hlb''
      by (unfold last_of; rewrite Hlqm; reflexivity).
    rewrite Hfa, Hfb, Hla', Hlb' in *.
    clear Hps_def Hqs_def.
    assert (forall p q, p ∈ ps -> q ∈ qs -> PNode p <> PNode q) as Hpq.
    { intros p q Hp Hq [= ->]. exact (Hdis q Hp Hq). }
    rewrite (bind_Ok _ _ _ _ _
              (swap_prev_run (PNode q1) (PNode p1) w1 (PHead b) (PHead a)
                 ltac:(rewrite Hprev1, !decide_False by discriminate;
                       exact Hbp3)
                 ltac:(rewrite Hprev1, !decide_False by discriminate;
                       exact Hap3))).
    set (w2 := update_base _ (PNode q1) w1).
    set (w3 := update_base _ (PNode p1) w2).
    assert (forall c, prev_of w3 c =
              if decide (c = PNode p1) then Some (PHead b)
              else if decide (c = PNode q1) then Some (PHead a)
              else prev_of w1 c) as Hprev3.
    { intros c. unfold w3, w2, prev_of.
      rewrite !get_base_update_base, Hgb1.
      destruct (prev_of_is_Some _ _ _ Hap3) as [b1 Hb1].
      destruct (prev_of_is_Some _ _ _ Hbp3) as [b2 Hb2].
      repeat case_decide; subst; try congruence; rewrite ?Hb1, ?Hb2;
        reflexivity. }
    assert (forall c, next_of w3 c = next_of w1 c) as Hnext3.
    { intros c. unfold w3, w2. rewrite !next_of_set_prev. reflexivity. }
    rewrite (bind_Ok _ _ _ _ _
              (read_prev_run (PHead a) w3 (PNode qm)
                 ltac:(rewrite Hprev3, !decide_False by discriminate;
                       rewrite Hprev1, decide_False by congruence;
                       rewrite decide_True by reflexivity; reflexivity))).
    rewrite (bind_Ok _ _ _ _ _
              (read_prev_run (PHead b) w3 (PNode pk)
                 ltac:(rewrite Hprev3, !decide_False by discriminate;
                       rewrite Hprev1, decide_True by reflexivity;
                       reflexivity))).
    rewrite (swap_next_run (PNode qm) (PNode pk) w3 (PHead b) (PHead a)
               ltac:(rewrite Hnext3, Hnext1, !decide_False by discriminate;
                     exact Hbn3)
               ltac:(rewrite Hnext3, Hnext1, !decide_False by discriminate;
                     exact Han3)).
    set (w4 := update_base _ (PNode qm) w3).
    set (w5 := update_base _ (PNode pk) w4).
    assert (forall c, next_of w5 c =
              if decide (c = PNode pk) then Some (PHead b)
              else if decide (c = PNode qm) then Some (PHead a)
              else next_of w1 c) as Hnext5.
    { intros c. unfold w5, w4, w3, w2, next_of.
      rewrite !get_base_update_base, Hgb1.
      destruct (next_of_is_Some _ _ _ Han3) as [b1 Hb1].
      destruct (next_of_is_Some _ _ _ Hbn3) as [b2 Hb2].
      repeat case_decide; subst; try congruence; rewrite ?Hb1, ?Hb2;
        try reflexivity;
        repeat match goal with
               | |- context [get_base w ?x] => destruct (get_base w x)
               end; reflexivity. }
    assert (forall c, prev_of w5 c = prev_of w3 c) as Hprev5.
    { intros c. unfold w5, w4. rewrite !prev_of_set_next. reflexivity. }
    assert (forall l, size_ <$> lists w5 !! l = size_ <$> lists w1 !! l) as Hsz5.
    { intros l. unfold w5, w4, w3, w2. rewrite !size_update_base. reflexivity. }
    assert (forall q, value <$> nodes w5 !! q = value <$> nodes w !! q) as Hv5.
    { intros q. unfold w5, w4, w3, w2. rewrite !value_update_base.
      reflexivity. }
    assert (forall q, q ∉ ps ++ qs -> nodes w5 !! q = nodes w !! q) as Hn5.
    { intros q Hq. unfold w5, w4, w3, w2.
      rewrite !nodes_update_base_ne; [reflexivity|..];
        intros [= ->]; apply Hq; apply elem_of_app; auto. }
    assert (forall l, l <> a -> l <> b -> lists w5 !! l = lists w !! l) as Hl5.
    { intros l H1 H2. unfold w5, w4, w3, w2.
      rewrite !lists_update_base_ne by congruence.
      rewrite Hls1, !decide_False by congruence. reflexivity. }
    assert (live w5 = live w) as Hlive5.
    { unfold w5, w4, w3, w2. rewrite !live_update_base. reflexivity. }
    exists w5. split; [reflexivity|].
    split; [|split; [|split; [|split; [|split; [|split]]]]].
    + (* the ring of [b] now hangs from the sentinel of [a] *)
      split.
      * apply ring_ends. rewrite Hfb', Hlb''.
        split; [split; [|split]|split; [|split]].
        -- rewrite Hnext5, !decide_False by discriminate.
           rewrite Hnext1, decide_False by congruence.
           rewrite decide_True by reflexivity. reflexivity.
        -- apply (chain_ext_nodup (next_of w)); [| |exact Hbn2].
           ++ apply NoDup_fmap_2; [|exact Hndb]. intros ? ? [= ->]. reflexivity.
           ++ intros c Hc Hlast.
              apply list_elem_of_fmap in Hc as (q & -> & Hq).
              rewrite fmap_last, Hlqm in Hlast. simpl in Hlast.
              rewrite Hnext5.
              rewrite decide_False
                by (intros E; symmetry in E; revert E; apply Hpq; assumption).
              rewrite decide_False by congruence.
              rewrite Hnext1, !decide_False by discriminate. reflexivity.
        -- rewrite Hnext5.
           rewrite decide_False
             by (intros E; symmetry in E; revert E; apply Hpq; assumption).
           rewrite decide_True by reflexivity. reflexivity.
        -- rewrite Hprev5, Hprev3, !decide_False by discriminate.
           rewrite Hprev1, decide_False by congruence.
           rewrite decide_True by reflexivity. reflexivity.
        -- apply (chain_ext_nodup (prev_of w)); [| |exact Hbp2].
           ++ apply NoDup_fmap_2; [intros ? ? [= ->]; reflexivity|].
              rewrite reverse_Permutation. exact Hndb.
           ++ intros c Hc Hlast.
              apply list_elem_of_fmap in Hc as (q & -> & Hq).
              rewrite elem_of_reverse in Hq.
              rewrite fmap_last, last_reverse in Hlast.
              assert (q <> q1) as Hqq1.
              { intros ->. apply Hlast.
                destruct qs; [inversion Hq1|].
                simpl in Hfb. injection Hfb as ->. reflexivity. }
              rewrite Hprev5, Hprev3.
              rewrite decide_False
                by (intros E; symmetry in E; revert E; apply Hpq; assumption).
              rewrite decide_False by congruence.
              rewrite Hprev1, !decide_False by discriminate. reflexivity.
        -- rewrite Hprev5, Hprev3.
           rewrite decide_False
             by (intros E; symmetry in E; revert E; apply Hpq; assumption).
           rewrite decide_True by reflexivity. reflexivity.
      * exact Hndb.
      * eapply Forall2_impl_elem; [exact Hvb|]. intros q v _ Hv. simpl.
        rewrite Hv5. exact Hv.
      * rewrite Hsz5, Hls1, decide_False by congruence.
        rewrite decide_True by reflexivity. exact Hsb.
      * exact Hbb.
      * intros q Hq. rewrite Hlive5. apply Hlb. exact Hq.
    + (* and the ring of [a] from the sentinel of [b] *)
      split.
      * apply ring_ends. rewrite Hfa', Hla''.
        split; [split; [|split]|split; [|split]].
        -- rewrite Hnext5, !decide_False by discriminate.
           rewrite Hnext1, decide_True by reflexivity. reflexivity.
        -- apply (chain_ext_nodup (next_of w)); [| |exact Han2].
           ++ apply NoDup_fmap_2; [|exact Hnda]. intros ? ? [= ->]. reflexivity.
           ++ intros c Hc Hlast.
              apply list_elem_of_fmap in Hc as (p & -> & Hp).
              rewrite fmap_last, Hlpk in Hlast. simpl in Hlast.
              rewrite Hnext5.
              rewrite decide_False by congruence.
              rewrite decide_False by (apply Hpq; assumption).
              rewrite Hnext1, !decide_False by discriminate. reflexivity.
        -- rewrite Hnext5, decide_True by reflexivity. reflexivity.
        -- rewrite Hprev5, Hprev3, !decide_False by discriminate.
           rewrite Hprev1, decide_True by reflexivity. reflexivity.
        -- apply (chain_ext_nodup (prev_of w)); [| |exact Hap2].
           ++ apply NoDup_fmap_2; [intros ? ? [= ->]; reflexivity|].
              rewrite reverse_Permutation. exact Hnda.
           ++ intros c Hc Hlast.
              apply list_elem_of_fmap in Hc as (p & -> & Hp).
              rewrite elem_of_reverse in Hp.
              rewrite fmap_last, last_reverse in Hlast.
              assert (p <> p1) as Hpp1.
              { intros ->. apply Hlast.
                destruct ps; [inversion Hp1|].
                simpl in Hfa. injection Hfa as ->. reflexivity. }
              rewrite Hprev5, Hprev3.
              rewrite decide_False by congruence.
              rewrite decide_False by (apply Hpq; assumption).
              rewrite Hprev1, !decide_False by discriminate. reflexivity.
        -- rewrite Hprev5, Hprev3, decide_True by reflexivity. reflexivity.
      * exact Hnda.
      * eapply Forall2_impl_elem; [exact Hva|]. intros q v _ Hv. simpl.
        rewrite Hv5. exact Hv.
      * rewrite Hsz5, Hls1, decide_True by reflexivity. exact Hsa.
      * exact Hba.
      * intros q Hq. rewrite Hlive5. apply Hla. exact Hq.
    + split.
      * intros l Hl. apply Hl5; intros ->; apply Hl; [left|right; left].
      * exact Hn5.
      * intros q _. rewrite Hlive5. reflexivity.
      * intros id. unfold w5, w4, w3, w2. rewrite !arenas_update_base.
        reflexivity.
    + exact Hlive5.
    + unfold w5, w4, w3, w2. rewrite !arenas_update_base. reflexivity.
    + unfold w5, w4, w3, w2. rewrite !ctor_calls_update_base. reflexivity.
    + intros q. unfold w5, w4, w3, w2. rewrite !nodes_update_base_is_Some.
      reflexivity.
Qed.
End Swapping.

Section NoThrow.
Context {T : Type} {node_layout : Layout (Node T)}.
Implicit Types (w : World T).


Lemma never_throws_bind {A B} (m : M T A) (k : A -> M T B) :
  never_throws m -> (forall a, never_throws (T:=T) (k a)) -> never_throws (T:=T) (bind m k).
Proof.
  intros Hm Hk w e w'. unfold bind.
  destruct (m w) as [a w1|e1 w1| |] eqn:E; try discriminate.
  - apply Hk.
  - exfalso. exact (Hm _ _ _ E).
Qed.

Lemma never_throws_ret {A} (a : A) : never_throws (T:=T) (ret a).
Proof. intros w e w'. discriminate. Qed.

Lemma never_throws_read_next p : never_throws (T:=T) (read_next p).
Proof. intros w e w'. unfold read_next. destruct (get_base w p); discriminate. Qed.
Lemma never_throws_read_prev p : never_throws (T:=T) (read_prev p).
Proof. intros w e w'. unfold read_prev. destruct (get_base w p); discriminate. Qed.
Lemma never_throws_write_next p v : never_throws (T:=T) (write_next p v).
Proof. intros w e w'. unfold write_next. destruct (get_base w p); discriminate. Qed.
Lemma never_throws_write_prev p v : never_throws (T:=T) (write_prev p v).
Proof. intros w e w'. unfold write_prev. destruct (get_base w p); discriminate. Qed.
Lemma never_throws_get_list l : never_throws (T:=T) (get_list l).
Proof. intros w e w'. unfold get_list. destruct (lists w !! l); discriminate. Qed.
Lemma never_throws_put_list l o : never_throws (T:=T) (put_list l o).
Proof. intros w e w'. discriminate. Qed.
Lemma never_throws_as_node p : never_throws (T:=T) (as_node p).
Proof.
  intros w e w'. unfold as_node. destruct p; try discriminate.
  destruct (nodes w !! p); discriminate.
Qed.

Create HintDb nothrow.

Local Hint Resolve never_throws_ret never_throws_read_next
  never_throws_read_prev never_throws_write_next never_throws_write_prev
  never_throws_get_list never_throws_put_list never_throws_as_node : nothrow.

Ltac nothrow :=
  repeat first
    [ apply never_throws_bind; [|intros ?]
    | solve [auto with nothrow]
    | (intros ? ? ?; discriminate) ].

Lemma never_throws_add_size l d : never_throws (T:=T) (add_size l d).
Proof. unfold add_size. nothrow. Qed.

Lemma never_throws_erase l it : never_throws (T:=T) (erase l it).
Proof.
  unfold erase, destroy, node_deallocate.
  pose proof (never_throws_add_size l (-1)). nothrow. 
Qed.

Lemma never_throws_pop_back l : never_throws (T:=T) (pop_back l).
Proof. unfold pop_back, decr. pose proof (never_throws_erase l). nothrow. Qed.

Lemma never_throws_repeat_pop_back l n :
  never_throws (T:=T) (repeat_pop_back l n).
Proof.
  induction n as [|n IH]; simpl; [apply never_throws_ret|].
  pose proof (never_throws_pop_back l). nothrow.
Qed.

Lemma never_throws_destructor l : never_throws (T:=T) (destructor l).
Proof.
  unfold destructor, Destroy, end_lifetime.
  pose proof (never_throws_repeat_pop_back l). nothrow.
Qed.

Lemma never_throws_Swap a b : never_throws (T:=T) (Swap a b).
Proof. unfold Swap, swap_prev, swap_next. nothrow. Qed.

End NoThrow.

Section CopyAssignment.
Context {T : Type} {node_layout : Layout (Node T)}.
Variable N : Z.
Variable ctor_throws : nat -> bool.
Variable default_value : T.
Implicit Types (w : World T) (c : ptr) (p q : arena_ptr) (l : Z)
  (ps qs : list arena_ptr) (vs us : list T).

(** The state in which copy assignment reaches [Swap]: the temporary at
    [tmp] holds a copy of the source in nodes of its own, and nothing else
    has changed since the temporary was created in [w0]. A failure of the
    loop instead leaves the store restored. *)
Lemma copy_assign_prefix w fuel this other tmp ps vs ps_o vs_o id :
  wf_world N w -> node_fits (T:=T) N ->
  lists w !! tmp = None ->
  is_list w this ps vs -> is_list w other ps_o vs_o ->
  base_allocator w this id ->
  (length ps_o < fuel)%nat ->
  exists w0,
    nodes w0 = nodes w /\ live w0 = live w /\
    (forall l, l <> tmp -> lists w0 !! l = lists w !! l) /\
    forall (k : M T unit),
    match
      bind (if propagate_on_container_copy_assignment
            then get_allocator other else get_allocator this)
        (fun a => bind (List_alloc tmp a)
           (fun _ => bind (begin other)
              (fun b => bind
                 (try_catch
                    (fun w => snd (copy_elements N ctor_throws default_value
                                     fuel tmp b (end_ other) 0 w))
                    (fun e => bind (destructor tmp) (fun _ => throw e)))
                 (fun _ => k)))) w
    with
    | Throw e w' =>
        restored N w w' \/
        exists w1 qs, built N w0 w1 tmp id qs vs_o /\ k w1 = Throw e w'
    | Ok _ w' => exists w1 qs, built N w0 w1 tmp id qs vs_o /\ k w1 = Ok tt w'
    | UB => exists w1 qs, built N w0 w1 tmp id qs vs_o /\ k w1 = UB
    | OutOfFuel =>
        exists w1 qs, built N w0 w1 tmp id qs vs_o /\ k w1 = OutOfFuel
    end.
Proof.
  intros Hwf Hfit Hfree Hthis Hsrc [Hal Hid] Hfuel.
  assert (this <> tmp) as Hne1.
  { intros ->. pose proof (il_size _ _ _ _ Hthis) as E.
    rewrite Hfree in E. discriminate. }
  assert (other <> tmp) as Hne2.
  { intros ->. pose proof (il_size _ _ _ _ Hsrc) as E.
    rewrite Hfree in E. discriminate. }
  destruct (lists w !! this) as [o|] eqn:Ho; [|discriminate Hal].
  simpl in Hal. injection Hal as Hal.
  destruct (List_alloc_spec N w tmp (convert T (alloc o)) id Hwf Hfree
              ltac:(rewrite Hal; reflexivity) Hid)
    as (w0 & Hrun & Hb0 & Hn0 & Hl0 & Har0 & Hct0 & _ & Hls0).
  exists w0. split; [exact Hn0|]. split; [exact Hl0|]. split; [exact Hls0|].
  intros k.
  change propagate_on_container_copy_assignment with false. cbv iota.
  assert (get_allocator this w = Ok (convert T (alloc o)) w) as Hga.
  { unfold get_allocator, bind, get_list. rewrite Ho. reflexivity. }
  rewrite (bind_Ok _ _ _ _ _ Hga).
  rewrite (bind_Ok _ _ _ _ _ Hrun).
  pose proof (is_list_after_alloc w w0 tmp other ps_o vs_o Hsrc Hne2 Hn0 Hl0
                Hls0) as Hsrc0.
  unfold begin.
  rewrite (bind_Ok _ _ _ _ _
            (read_next_run _ _ _ (is_list_begin _ _ _ _ Hsrc0))).
  unfold end_.
  pose proof (copy_elements_built N ctor_throws default_value w0 tmp id other
                Hfit Hne2 ps_o [] [] vs_o fuel w0 [] [] Hsrc0 eq_refl Hb0
                Hfuel
                ltac:(simpl; pose proof (il_bound _ _ _ _ Hsrc); lia)) as Hloop.
  change (Z.of_nat (length [])) with 0 in Hloop.
  unfold bind at 1. unfold try_catch.
  destruct (copy_elements _ _ _ fuel tmp _ _ 0 w0)
    as [count [[] w1|e w1| |]]; simpl; try contradiction.
  - destruct Hloop as (qs' & Hb'). simpl in Hb'.
    destruct (k w1) eqn:Ek; [destruct a| | |]; try right; eauto.
  - destruct Hloop as (qs' & us' & Hb' & _).
    destruct (destructor_built N w0 w1 tmp id qs' us' Hb')
      as (w' & Hrun' & Hn & Hls & Hthis' & Hlive & Hwf').
    rewrite (bind_Ok _ _ _ _ _ Hrun'). unfold throw. left.
    split; [congruence|]. split; [|split; [congruence|exact Hwf']].
    apply map_eq. intros l. destruct (decide (l = tmp)) as [->|Hne].
    + congruence.
    + rewrite Hls by exact Hne. auto.
Qed.

(** An exception of copy assignment leaves the store restored, whatever
    the two lists are. *)
Lemma copy_assign_throw w fuel this other tmp ps vs ps_o vs_o id e w' :
  wf_world N w -> node_fits (T:=T) N ->
  lists w !! tmp = None ->
  is_list w this ps vs -> is_list w other ps_o vs_o ->
  base_allocator w this id ->
  (length ps_o < fuel)%nat ->
  copy_assign N ctor_throws default_value fuel this other tmp w = Throw e w' ->
  restored N w w'.
Proof.
  intros Hwf Hfit Hfree Hthis Hsrc Hal Hfuel Hrun.
  destruct (copy_assign_prefix w fuel this other tmp ps vs ps_o vs_o id
              Hwf Hfit Hfree Hthis Hsrc Hal Hfuel) as (w0 & _ & _ & _ & Hk).
  specialize (Hk (bind (Swap this tmp) (fun _ => destructor tmp))).
  unfold copy_assign in Hrun. rewrite Hrun in Hk.
  destruct Hk as [Hres|(w1 & qs & _ & Hk)]; [exact Hres|].
  exfalso. revert Hk.
  apply never_throws_bind; [apply never_throws_Swap|].
  intros _. apply never_throws_destructor.
Qed.

(** Copy assignment between lists that are both empty or both non-empty
    (in particular self-assignment): the target ends up with a copy of
    the source in nodes of its own, or the store is restored. *)
Lemma copy_assign_same_emptiness w fuel this other tmp ps vs ps_o vs_o id :
  wf_world N w -> node_fits (T:=T) N ->
  lists w !! tmp = None ->
  is_list w this ps vs -> is_list w other ps_o vs_o ->
  (other <> this -> forall q, q ∈ ps_o -> q ∉ ps) ->
  base_allocator w this id ->
  (length ps_o < fuel)%nat ->
  (ps = [] <-> ps_o = []) ->
  match copy_assign N ctor_throws default_value fuel this other tmp w with
  | Ok _ w' =>
      exists qs,
        is_list w' this qs vs_o /\
        (other <> this -> is_list w' other ps_o vs_o) /\
        (forall q, q ∈ qs -> nodes w !! q = None) /\
        wf_world N w' /\
        lists w' !! tmp = None /\
        live w' = (live w ∖ list_to_set ps) ∪ list_to_set qs
  | Throw e w' => restored N w w'
  | _ => False
  end.
Proof.
  intros Hwf Hfit Hfree Hthis Hsrc Hdis Hal Hfuel Hempty.
  assert (this <> tmp) as Hne1.
  { intros ->. pose proof (il_size _ _ _ _ Hthis) as E.
    rewrite Hfree in E. discriminate. }
  assert (other <> tmp) as Hne2.
  { intros ->. pose proof (il_size _ _ _ _ Hsrc) as E.
    rewrite Hfree in E. discriminate. }
  destruct (copy_assign_prefix w fuel this other tmp ps vs ps_o vs_o id
              Hwf Hfit Hfree Hthis Hsrc Hal Hfuel)
    as (w0 & Hn0 & Hl0 & Hls0 & Hk).
  specialize (Hk (bind (Swap this tmp) (fun _ => destructor tmp))).
  unfold copy_assign.
  (* what [Swap] and the destructor do once the copy is complete *)
  assert (forall w1 qs, built N w0 w1 tmp id qs vs_o ->
            exists w3,
              bind (Swap this tmp) (fun _ => destructor tmp) w1 = Ok tt w3 /\
              is_list w3 this qs vs_o /\
              (other <> this -> is_list w3 other ps_o vs_o) /\
              (forall q, q ∈ qs -> nodes w !! q = None) /\
              wf_world N w3 /\
              lists w3 !! tmp = None /\
              live w3 = (live w ∖ list_to_set ps) ∪ list_to_set qs) as Hrest.
  { intros w1 qs Hb.
    pose proof (is_list_after_alloc w w0 tmp this ps vs Hthis Hne1 Hn0 Hl0
                  Hls0) as Hthis0.
    pose proof (is_list_after_alloc w w0 tmp other ps_o vs_o Hsrc Hne2 Hn0 Hl0
                  Hls0) as Hsrc0.
    pose proof (source_kept N w0 w1 tmp id _ _ this _ _ Hb Hthis0 Hne1)
      as Hthis1.
    pose proof (source_kept N w0 w1 tmp id _ _ other _ _ Hb Hsrc0 Hne2)
      as Hsrc1.
    pose proof (b_list _ _ _ _ _ _ _ Hb) as Htmp1.
    assert (forall q, q ∈ qs -> nodes w !! q = None /\ q ∉ live w) as Hfresh.
    { intros q Hq. rewrite <- Hn0, <- Hl0.
      exact (b_fresh _ _ _ _ _ _ _ Hb q Hq). }
    assert (forall s pl vl q, is_list w s pl vl -> q ∈ pl -> q ∉ qs) as Hold.
    { intros s pl vl q Hs Hq Hin.
      destruct (Hfresh q Hin) as [_ Hnl]. apply Hnl.
      exact (il_live _ _ _ _ Hs q Hq). }
    assert (ps = [] <-> qs = []) as Hempty'.
    { rewrite Hempty.
      pose proof (is_list_length _ _ _ _ Hsrc) as E1.
      pose proof (is_list_length _ _ _ _ Htmp1) as E2.
      split; intros ->; simpl in *.
      - destruct vs_o; [|discriminate]. destruct qs; [reflexivity|discriminate].
      - destruct vs_o; [|discriminate]. destruct ps_o; [reflexivity|discriminate]. }
    destruct (Swap_spec w1 this tmp ps vs qs vs_o Hne1 Hthis1 Htmp1
                (fun q Hq => Hold this ps vs q Hthis Hq) Hempty')
      as (w2 & Hswap & Hthis2 & Htmp2 & Hoc2 & Hlive2 & Har2 & Hct2 & Hdom2).
    destruct (destructor_spec w2 tmp ps vs Htmp2)
      as (w3 & Hdes & Hls3 & Htmp3 & Hn3 & Hnone3 & Hlive3 & Har3 & Hct3).
    exists w3. rewrite (bind_Ok _ _ _ _ _ Hswap).
    split; [exact Hdes|].
    assert (forall s pl vl, is_list w2 s pl vl -> s <> tmp ->
              (forall q, q ∈ pl -> q ∉ ps) -> is_list w3 s pl vl) as Hkeep.
    { intros s pl vl Hs Hst Hd.
      apply (is_list_frame w2); [exact Hs| | | |].
      - intros c Hc. apply elem_of_cons in Hc as [->|Hc].
        + simpl. rewrite Hls3 by exact Hst. reflexivity.
        + apply list_elem_of_fmap in Hc as (q & -> & Hq).
          simpl. rewrite Hn3 by (apply Hd, Hq). reflexivity.
      - intros q Hq. rewrite Hn3 by (apply Hd, Hq). reflexivity.
      - rewrite Hls3 by exact Hst. reflexivity.
      - intros q Hq Hlv. rewrite Hlive3. apply elem_of_difference.
        split; [exact Hlv|]. rewrite elem_of_list_to_set. apply Hd, Hq. }
    split; [|split; [|split; [|split; [|split]]]].
    - apply Hkeep; [exact Hthis2|exact Hne1|].
      intros q Hq Hin. exact (Hold this ps vs q Hthis Hin Hq).
    - intros Hne. apply Hkeep; [|exact Hne2|apply Hdis, Hne].
      apply (is_list_only_changes [this; tmp] (ps ++ qs) w1);
        [exact Hsrc1|exact Hoc2| |].
      + intros Hin. apply elem_of_cons in Hin as [E|Hin]; [congruence|].
        apply list_elem_of_singleton in Hin. congruence.
      + intros q Hq Hin. apply elem_of_app in Hin as [Hin|Hin].
        * exact (Hdis Hne q Hq Hin).
        * exact (Hold other ps_o vs_o q Hsrc Hq Hin).
    - intros q Hq. apply Hfresh. exact Hq.
    - apply (wf_world_shrink N w1); [exact (b_wf _ _ _ _ _ _ _ Hb)|congruence| |].
      + intros q Hq. apply Hdom2.
        destruct (decide (q ∈ ps)) as [Hin|Hin].
        * rewrite (Hnone3 q Hin) in Hq. destruct Hq; discriminate.
        * rewrite <- (Hn3 q Hin). exact Hq.
      + intros q Hq. rewrite Hlive3, Hlive2 in Hq. set_solver.
    - exact Htmp3.
    - rewrite Hlive3, Hlive2, (b_live _ _ _ _ _ _ _ Hb), Hl0.
      apply set_eq. intros q.
      assert (q ∈ ps -> q ∉ qs) by (intros Hq; exact (Hold this ps vs q Hthis Hq)).
      rewrite !elem_of_difference, !elem_of_union, !elem_of_difference,
        !elem_of_list_to_set.
      tauto. }
  destruct (bind _ _ w) as [[] w'|e w'| |].
  - destruct Hk as (w1 & qs & Hb & Hk).
    destruct (Hrest w1 qs Hb) as (w3 & Hrun & H). rewrite Hrun in Hk.
    injection Hk as <-. exists qs. exact H.
  - destruct Hk as [Hres|(w1 & qs & Hb & Hk)]; [exact Hres|].
    destruct (Hrest w1 qs Hb) as (w3 & Hrun & _). rewrite Hrun in Hk.
    discriminate.
  - destruct Hk as (w1 & qs & Hb & Hk).
    destruct (Hrest w1 qs Hb) as (w3 & Hrun & _). rewrite Hrun in Hk.
    discriminate.
  - destruct Hk as (w1 & qs & Hb & Hk).
    destruct (Hrest w1 qs Hb) as (w3 & Hrun & _). rewrite Hrun in Hk.
    discriminate.
Qed.

End CopyAssignment.

Section Traversal.
Context {T : Type} {node_layout : Layout (Node T)}.
Implicit Types (w : World T) (c : ptr) (p q : arena_ptr) (l : Z)
  (ps qs : list arena_ptr) (vs us : list T).

Lemma steps_S fuel it last w :
  steps (S fuel) it last w =
    if decide (it = last) then Ok O w
    else bind (incr it)
           (fun it' => bind (steps fuel it' last) (fun n => ret (S n))) w.
Proof. simpl. case_decide; reflexivity. Qed.

Lemma visit_S fuel it last w :
  visit (S fuel) it last w =
    if decide (it = last) then Ok [] w
    else bind (deref it)
           (fun v => bind (incr it)
              (fun it' => bind (visit fuel it' last)
                 (fun vs => ret (v :: vs)))) w.
Proof. simpl. case_decide; reflexivity. Qed.

Lemma rev_visit_S fuel r last w :
  rev_visit (S fuel) r last w =
    if decide (current r = current last) then Ok [] w
    else bind (rev_deref r)
           (fun v => bind (rev_incr r)
              (fun r' => bind (rev_visit fuel r' last)
                 (fun vs => ret (v :: vs)))) w.
Proof. simpl. case_decide; reflexivity. Qed.

(** Forward from the node that starts [ps2] to the sentinel. *)
Lemma steps_suffix w s ps2 :
  forall ps1 vs fuel,
  is_list w s (ps1 ++ ps2) vs -> (length ps2 < fuel)%nat ->
  steps fuel (first_of s ps2) (PHead s) w = Ok (length ps2) w.
Proof.
  induction ps2 as [|q ps2 IH]; intros ps1 vs fuel Hl Hfuel;
    (destruct fuel as [|fuel]; [simpl in Hfuel; lia|]); rewrite steps_S.
  - rewrite decide_True by reflexivity. reflexivity.
  - change (first_of s (q :: ps2)) with (PNode q).
    rewrite decide_False by discriminate. unfold incr.
    rewrite (bind_Ok _ _ _ _ _
               (read_next_run _ _ _ (is_list_next_at _ _ _ _ _ _ Hl))).
    rewrite (bind_Ok _ _ _ _ _ (IH (ps1 ++ [q]) vs fuel
               ltac:(rewrite <- app_assoc; exact Hl)
               ltac:(simpl in Hfuel; lia))).
    reflexivity.
Qed.

Lemma visit_suffix w s ps2 :
  forall ps1 vs1 vs2 fuel,
  is_list w s (ps1 ++ ps2) (vs1 ++ vs2) -> length ps1 = length vs1 ->
  (length ps2 < fuel)%nat ->
  visit fuel (first_of s ps2) (PHead s) w = Ok vs2 w.
Proof.
  induction ps2 as [|q ps2 IH]; intros ps1 vs1 vs2 fuel Hl Hlen Hfuel;
    (destruct fuel as [|fuel]; [simpl in Hfuel; lia|]); rewrite visit_S.
  - rewrite decide_True by reflexivity.
    apply is_list_length in Hl. rewrite !length_app in Hl. simpl in Hl.
    destruct vs2; [reflexivity|simpl in Hl; lia].
  - destruct vs2 as [|v vs2].
    { apply is_list_length in Hl. rewrite !length_app in Hl. simpl in Hl. lia. }
    change (first_of s (q :: ps2)) with (PNode q).
    rewrite decide_False by discriminate.
    rewrite (bind_Ok _ _ _ _ _
               (deref_run w q v (is_list_value_at _ _ _ _ _ _ _ _ Hl Hlen))).
    unfold incr.
    rewrite (bind_Ok _ _ _ _ _
               (read_next_run _ _ _ (is_list_next_at _ _ _ _ _ _ Hl))).
    rewrite (bind_Ok _ _ _ _ _ (IH (ps1 ++ [q]) (vs1 ++ [v]) vs2 fuel
               ltac:(rewrite <- !app_assoc; exact Hl)
               ltac:(rewrite !length_app; simpl; lia)
               ltac:(simpl in Hfuel; lia))).
    reflexivity.
Qed.

(** The node before the one that starts [ps2] is the last of [ps1]. *)
Lemma is_list_prev_first w s ps1 ps2 vs :
  is_list w s (ps1 ++ ps2) vs ->
  prev_of w (first_of s ps2) = Some (last_of s ps1).
Proof.
  intros Hl. destruct ps2 as [|q ps2].
  - rewrite app_nil_r in Hl. exact (is_list_last _ _ _ _ Hl).
  - exact (is_list_prev_at _ _ _ _ _ _ Hl).
Qed.

Lemma first_of_app_ne s ps1 ps2 :
  NoDup (ps1 ++ ps2) -> ps1 <> [] ->
  first_of s ps2 <> first_of s (ps1 ++ ps2).
Proof.
  intros Hnd Hne. destruct ps1 as [|p ps1]; [congruence|].
  change (first_of s ((p :: ps1) ++ ps2)) with (PNode p).
  destruct ps2 as [|q ps2]; [discriminate|].
  change (first_of s (q :: ps2)) with (PNode q). intros [= ->].
  apply NoDup_app in Hnd as (_ & Hdis & _).
  apply (Hdis p); left.
Qed.

(** Backward by reverse iterators from the position before [ps2] to
    [rend()]. *)
Lemma rev_visit_prefix w s ps1 :
  forall ps2 vs1 vs2 fuel,
  is_list w s (ps1 ++ ps2) (vs1 ++ vs2) -> length ps1 = length vs1 ->
  (length ps1 < fuel)%nat ->
  rev_visit fuel {| current := first_of s ps2 |}
    {| current := first_of s (ps1 ++ ps2) |} w = Ok (reverse vs1) w.
Proof.
  induction ps1 as [|q ps1 IH] using rev_ind;
    intros ps2 vs1 vs2 fuel Hl Hlen Hfuel;
    (destruct fuel as [|fuel]; [simpl in Hfuel; lia|]); rewrite rev_visit_S.
  - simpl. rewrite decide_True by reflexivity.
    destruct vs1; [reflexivity|discriminate].
  - destruct vs1 as [|v vs1 _] using rev_ind.
    { rewrite length_app in Hlen. simpl in Hlen. lia. }
    rewrite !length_app in Hlen. rewrite length_app in Hfuel.
    simpl in Hlen, Hfuel.
    cbn [current].
    rewrite decide_False
      by (apply first_of_app_ne;
          [exact (il_nodup _ _ _ _ Hl)|destruct ps1; discriminate]).
    pose proof (is_list_prev_first _ _ _ _ _ Hl) as Hprev.
    rewrite last_of_snoc in Hprev.
    rewrite <- !app_assoc in Hl. simpl in Hl.
    assert (rev_deref {| current := first_of s ps2 |} w = Ok v w) as Hrd.
    { unfold rev_deref, decr. cbn [current].
      rewrite (bind_Ok _ _ _ _ _ (read_prev_run _ _ _ Hprev)).
      apply deref_run.
      exact (is_list_value_at _ _ _ _ _ _ _ _ Hl ltac:(lia)). }
    assert (rev_incr {| current := first_of s ps2 |} w
            = Ok {| current := PNode q |} w) as Hri.
    { unfold rev_incr, decr. cbn [current].
      rewrite (bind_Ok _ _ _ _ _ (read_prev_run _ _ _ Hprev)). reflexivity. }
    rewrite (bind_Ok _ _ _ _ _ Hrd), (bind_Ok _ _ _ _ _ Hri).
    rewrite <- app_assoc. simpl.
    rewrite (bind_Ok _ _ _ _ _
               (IH (q :: ps2) vs1 (v :: vs2) fuel Hl ltac:(lia) ltac:(lia))).
    rewrite reverse_snoc. reflexivity.
Qed.

(** Iteration over a well-formed list. *)
Lemma forward_spec w s ps vs fuel :
  is_list w s ps vs -> (length ps < fuel)%nat ->
  forward fuel s w = Ok vs w.
Proof.
  intros Hl Hfuel. unfold forward, begin.
  rewrite (bind_Ok _ _ _ _ _ (read_next_run _ _ _ (is_list_begin _ _ _ _ Hl))).
  exact (visit_suffix w s ps [] [] vs fuel Hl eq_refl Hfuel).
Qed.

Lemma backward_spec w s ps vs fuel :
  is_list w s ps vs -> (length ps < fuel)%nat ->
  backward fuel s w = Ok (reverse vs) w.
Proof.
  intros Hl Hfuel. unfold backward.
  assert (rbegin s w = Ok {| current := PHead s |} w) as Hrb by reflexivity.
  assert (rend s w = Ok {| current := first_of s ps |} w) as Hre.
  { unfold rend, begin.
    rewrite (bind_Ok _ _ _ _ _
               (read_next_run _ _ _ (is_list_begin _ _ _ _ Hl))).
    reflexivity. }
  rewrite (bind_Ok _ _ _ _ _ Hrb), (bind_Ok _ _ _ _ _ Hre).
  pose proof (rev_visit_prefix w s ps [] vs [] fuel) as H.
  rewrite !app_nil_r in H.
  exact (H Hl (is_list_length _ _ _ _ Hl) Hfuel).
Qed.

Lemma distance_spec w s ps vs fuel :
  is_list w s ps vs -> (length ps < fuel)%nat ->
  distance fuel s w = Ok (length ps) w.
Proof.
  intros Hl Hfuel. unfold distance, begin.
  rewrite (bind_Ok _ _ _ _ _ (read_next_run _ _ _ (is_list_begin _ _ _ _ Hl))).
  exact (steps_suffix w s ps [] vs fuel Hl Hfuel).
Qed.

Lemma size_spec w s ps vs :
  is_list w s ps vs -> size s w = Ok (Z.of_nat (length ps)) w.
Proof.
  intros Hl. pose proof (il_size _ _ _ _ Hl) as Hs. unfold size, bind, get_list.
  destruct (lists w !! s); [|discriminate]. simpl in Hs. injection Hs as ->.
  reflexivity.
Qed.

End Traversal.

Section InsertFailure.
Context {T : Type} {node_layout : Layout (Node T)}.
Variable N : Z.
Variable ctor_throws : nat -> bool.
Variable default_value : T.
Implicit Types (w : World T) (c : ptr) (p q : arena_ptr) (l : Z)
  (ps qs : list arena_ptr) (vs us : list T).

(** The splice of [InsertHelper] lets no exception through. *)
Lemma never_throws_splice this it new_node :
  never_throws
    (bind (read_prev it)
       (fun prev =>
          bind (write_prev (PNode new_node) prev)
            (fun _ => bind (write_next (PNode new_node) it)
               (fun _ => bind (write_prev it (PNode new_node))
                  (fun _ => bind (write_next prev (PNode new_node))
                     (fun _ => add_size (T:=T) this 1)))))).
Proof.
  repeat first
    [ apply never_throws_add_size
    | apply never_throws_read_prev
    | apply never_throws_write_prev
    | apply never_throws_write_next
    | apply never_throws_bind; [|intros ?] ].
Qed.

(** A failed [InsertHelper], at any position of any list: the exception
    comes from the allocation or from the construction, and the nodes, the
    list objects and the outstanding regions are those of before. *)
Lemma InsertHelper_throw w this it arg e w' :
  wf_world N w -> node_fits (T:=T) N ->
  InsertHelper N ctor_throws default_value this it arg w = Throw e w' ->
  nodes w' = nodes w /\ lists w' = lists w /\ live w' = live w /\
  wf_world N w' /\
  (e = bad_alloc -> w' = w) /\
  (e = ctor_error -> ctor_throws (ctor_calls w) = true /\
                     ctor_calls w' = S (ctor_calls w)).
Proof.
  intros Hwf Hfit. unfold InsertHelper.
  unfold bind at 1. unfold get_list.
  destruct (lists w !! this) as [o|] eqn:Ho; [|discriminate].
  unfold bind at 1.
  destruct (stack_storage_ (node_allocator_ o)) as [id|] eqn:Hid.
  2:{ unfold node_allocate, Alloc.allocate. rewrite Hid. discriminate. }
  destruct (arenas w !! id) as [st|] eqn:Hst.
  2:{ unfold node_allocate, Alloc.allocate. rewrite Hid, Hst. discriminate. }
  destruct (node_allocate_cases N w (node_allocator_ o) id st Hwf Hfit Hid Hst)
    as [Hthrow|(off & st' & Hok & Hoff & Hcap)].
  { rewrite Hthrow. cbv beta iota. intros [= <- <-].
    split; [reflexivity|]. split; [reflexivity|]. split; [reflexivity|].
    split; [exact Hwf|]. split; [intros _; reflexivity|discriminate]. }
  rewrite Hok. cbv beta iota. set (p := (id, off)). set (w1 := set_live _ _).
  destruct (past_cursor_fresh N w id st off Hwf Hst ltac:(lia)) as [Hfresh Hnl].
  fold p in Hfresh, Hnl.
  assert (wf_world N w1) as Hwf1.
  { apply (wf_world_advance N w w1 id st st'); try assumption.
    - pose proof (wf_cursor N w Hwf id st Hst). lia.
    - reflexivity.
    - intros q Hq. left. exact Hq.
    - intros q Hq. simpl in Hq.
      apply elem_of_union in Hq as [Hq|Hq]; [|left; exact Hq].
      apply elem_of_singleton in Hq as ->. right.
      exists st'. simpl. rewrite lookup_insert_eq. split; [reflexivity|lia]. }
  unfold bind at 1. unfold try_catch, construct.
  change (ctor_calls w1) with (ctor_calls w).
  destruct (ctor_throws (ctor_calls w)) eqn:Hct.
  - simpl. intros [= <- <-]. simpl.
    split; [reflexivity|]. split; [reflexivity|].
    split; [apply set_eq; intros q; set_solver|].
    split; [|split; [discriminate|intros _; split; reflexivity]].
    apply (wf_world_shrink N w1); [exact Hwf1|reflexivity| |].
    + intros q Hq. exact Hq.
    + intros q Hq. simpl in *. set_solver.
  - intros Hrun. exfalso. revert Hrun. apply never_throws_splice.
Qed.

End InsertFailure.

Section Checking.
Context {T : Type} {node_layout : Layout (Node T)}.

Lemma is_list_checked (w : World T) s ps vs :
  is_list_check w s ps vs -> is_list w s ps vs.
Proof.
  intros (H1 & H2 & H3 & H4 & H5 & H6). split; try assumption.
  intros p Hp. rewrite Forall_forall in H6. apply H6. exact Hp.
Qed.

Lemma wf_world_checked N (w : World T) : wf_world_check N w -> wf_world N w.
Proof.
  intros (H1 & H2 & H3). split.
  - intros id s Hs. exact (H1 id s Hs).
  - intros p [n Hn]. exact (H2 p n Hn).
  - intros p Hp. exact (H3 p Hp).
Qed.

End Checking.

End ListFacts.

(** * The properties of the specification *)

(** ** The arena *)

Module ArenaClaims.
Import Arena ArenaFacts Scenario.


(** C3, as stated, fails: a request of 3 bytes aligned to 4 on a fresh
    arena of 16 bytes succeeds and returns offset 1. *)
Lemma allocate_start_misaligned :
  allocate_all 16 fresh [ {| req_count := 3; req_alignment := 4 |} ]
    = Some ([ {| reg_offset := 1; reg_count := 3; reg_alignment := 4 |} ],
            {| start_index_ := 4 |}) /\
  ~ start_aligned {| reg_offset := 1; reg_count := 3; reg_alignment := 4 |}.
Proof. split; [reflexivity|]. unfold start_aligned. simpl. discriminate. Qed.

(** C3, amended: for an arena of capacity [N] and a sequence of successful
    calls whose arithmetic stays inside [size_t], the regions are pairwise
    disjoint and lie between the old and the new cursor, the END of each
    region is aligned to the requested alignment (hence its start when the
    size is a multiple of the alignment), and the cursor, which counts the
    bytes consumed with the padding, never exceeds [N]. *)
Theorem allocate_all_disjoint_end_aligned N s reqs rs s' :
  0 <= start_index_ s <= N ->
  Forall (in_range N) reqs ->
  allocate_all N s reqs = Some (rs, s') ->
  pairwise_disjoint rs /\
  Forall (fun r => end_aligned r /\
                   (reg_count r mod reg_alignment r = 0 -> start_aligned r) /\
                   start_index_ s <= reg_offset r /\
                   reg_end r <= start_index_ s') rs /\
  start_index_ s <= start_index_ s' <= N.
Proof.
  intros Hs Hall H.
  destruct (allocate_all_cursor N s reqs rs s' Hs Hall H) as [Hc Hin].
  pose proof (allocate_all_aligned N s reqs rs s' Hs Hall H) as Hal.
  split; [exact (regions_pairwise_disjoint N s reqs rs s' Hs Hall H)|].
  split; [|exact Hc].
  rewrite Forall_forall in Hin, Hal. apply Forall_forall. intros r Hr.
  destruct (Hin r Hr) as [H1 H2]. destruct (Hal r Hr) as [H3 H4].
  repeat split; assumption.
Qed.

Lemma allocate_all_disjoint_end_aligned_witness :
  pairwise_disjoint three_regions /\
  Forall (fun r => end_aligned r /\
                   (reg_count r mod reg_alignment r = 0 -> start_aligned r) /\
                   start_index_ fresh <= reg_offset r /\
                   reg_end r <= 17) three_regions /\
  start_index_ fresh <= 17 <= 64.
Proof.
  apply (allocate_all_disjoint_end_aligned 64 fresh three_requests
           three_regions {| start_index_ := 17 |}).
  - simpl. lia.
  - repeat constructor; simpl; unfold size_max; lia.
  - reflexivity.
Defined.

(** Why the requests must stay inside [size_t]: a count near [2^64] makes
    the cursor wrap, and the third region below lies inside the first. *)
Example allocate_wrap_overlaps :
  exists r1 r2 r3 s',
    allocate_all 16 fresh
      [ {| req_count := 8; req_alignment := 1 |};
        {| req_count := 2 ^ 64 - 4; req_alignment := 1 |};
        {| req_count := 4; req_alignment := 1 |} ] = Some ([r1; r2; r3], s') /\
    ~ disjoint r1 r3.
Proof.
  do 4 eexists. split; [vm_compute; reflexivity|].
  unfold disjoint, reg_end. simpl. lia.
Qed.

(** C6, as stated, fails: on an arena of 16 bytes with the cursor at 8, a
    request of [2^64 - 4] bytes, which no arena can satisfy, does not
    fail: it returns offset 8 and moves the cursor back to 4; and on an
    arena of 64 bytes with the cursor at 48, a request of the 16 bytes
    that remain fails. *)
Lemma allocate_capacity_check_misjudges :
  Arena.allocate 16 {| start_index_ := 8 |} (2 ^ 64 - 4) 1
    = Region 8 {| start_index_ := 4 |} /\
  Arena.allocate 64 {| start_index_ := 48 |} 16 1
    = BadAlloc {| start_index_ := 48 |}.
Proof. split; vm_compute; reflexivity. Qed.

(** C6, amended: on an arena of capacity [N] whose cursor is within
    [0, N], for requests with a positive alignment and
    [N + size + alignment <= 2^64] (so that the [size_t] arithmetic does
    not wrap): a request whose padded end, the cursor advanced by the
    size and rounded up to the alignment, reaches or passes [N] fails
    with [BadAlloc]; every failed call, whatever the request, leaves the
    arena exactly as it was; and a request whose padded end is below [N]
    is then served from that same state. *)
Theorem allocate_failure_keeps_state N s :
  0 <= start_index_ s <= N ->
  (forall q, in_range N q -> N <= padded_end s q ->
     Arena.allocate N s (req_count q) (req_alignment q) = BadAlloc s) /\
  (forall count alignment s',
     Arena.allocate N s count alignment = BadAlloc s' ->
     s' = s /\
     forall q, in_range N q -> padded_end s q < N ->
       Arena.allocate N s' (req_count q) (req_alignment q)
         = Region (padded_end s q - req_count q)
                  {| start_index_ := padded_end s q |}).
Proof.
  intros Hs.
  assert (forall q, in_range N q ->
            Arena.allocate N s (req_count q) (req_alignment q) =
              if padded_end s q >=? N then BadAlloc s
              else Region (padded_end s q - req_count q)
                     {| start_index_ := padded_end s q |}) as Hq.
  { intros [c a] Hr. exact (allocate_in_range N s c a Hs Hr). }
  split.
  - intros q Hr Hfull. rewrite (Hq q Hr).
    destruct (Z.geb_spec (padded_end s q) N); [reflexivity|lia].
  - intros count alignment s' Hfail.
    apply allocate_bad_alloc in Hfail as ->. split; [reflexivity|].
    intros q Hr Hfits. rewrite (Hq q Hr).
    destruct (Z.geb_spec (padded_end s q) N); [lia|reflexivity].
Qed.

Lemma allocate_failure_keeps_state_witness :
  Arena.allocate 64 {| start_index_ := 48 |} 24 8 = BadAlloc {| start_index_ := 48 |} /\
  Arena.allocate 64 {| start_index_ := 48 |} 8 8
    = Region 48 {| start_index_ := 56 |}.
Proof.
  destruct (allocate_failure_keeps_state 64 {| start_index_ := 48 |}
              ltac:(simpl; lia)) as [Hfull Hkeep].
  pose proof (Hfull {| req_count := 24; req_alignment := 8 |}
                ltac:(unfold in_range, size_max; simpl; lia)
                ltac:(vm_compute; discriminate)) as Hfail.
  split; [exact Hfail|].
  destruct (Hkeep 24 8 _ Hfail) as [_ Hretry].
  exact (Hretry {| req_count := 8; req_alignment := 8 |}
           ltac:(unfold in_range, size_max; simpl; lia)
           ltac:(vm_compute; reflexivity)).
Defined.

End ArenaClaims.

Module AllocClaims.
Import Arena Alloc ListModel ArenaFacts Scenario.

(** C7: two adaptors, of any two element types, compare equal exactly
    when they hold the same arena pointer; [operator!=] is the negation;
    an adaptor obtained by rebinding compares equal to its origin; and two
    adaptors made from arenas compare equal exactly when the arenas are
    the same one. *)
Theorem allocator_equality_is_arena_identity
    (T U : Type) (a : StackAllocator T) (b : StackAllocator U) :
  (op_eq a b = true <-> get_storage a = get_storage b) /\
  op_ne a b = negb (op_eq a b) /\
  op_eq (convert U a) a = true /\
  (forall id1 id2 : storage_id,
     op_eq (from_storage (T:=T) id1) (from_storage (T:=U) id2) = true
     <-> id1 = id2).
Proof.
  unfold op_eq, op_ne. split; [|split; [|split]].
  - apply bool_decide_eq_true.
  - destruct (decide (get_storage a = get_storage b)) as [E|E].
    + rewrite (bool_decide_eq_true_2 _ E).
      apply bool_decide_eq_false_2. intros H. exact (H E).
    + rewrite (bool_decide_eq_false_2 _ E).
      apply bool_decide_eq_true_2. exact E.
  - apply bool_decide_eq_true_2. reflexivity.
  - intros id1 id2. rewrite bool_decide_eq_true. unfold get_storage. simpl.
    split; [intros [= ->]; reflexivity|intros ->; reflexivity].
Qed.

Lemma pow2_divides_size_max k : 0 <= k < 64 -> (2 ^ k | size_max).
Proof.
  intros Hk. exists (2 ^ (64 - k)). unfold size_max.
  rewrite <- Z.pow_add_r by lia. f_equal. lia.
Qed.

Lemma wrap_mod_pow2 z a :
  0 < a -> (a | size_max) -> wrap z mod a = z mod a.
Proof.
  intros Ha Hdiv. unfold wrap. symmetry.
  apply Zmod_div_mod; [exact Ha|unfold size_max; lia|exact Hdiv].
Qed.

(** C9, as stated, fails: for an element type of size and alignment 32
    and an arena object at address 4112, a multiple of 16 as
    [alignas(std::max_align_t)] asks and not of 32, the first allocation
    of one element returns the address 4112, which is 16 modulo 32. *)
Lemma allocate_over_aligned_type_misaligned :
  layout_ok Wide /\
  arena_at_4112 mod 16 = 0 /\
  Alloc.allocate 1024 (from_storage (T:=Wide) arena_at_4112) 1
    {[ arena_at_4112 := fresh ]}
    = Returns (arena_at_4112, 0)
        {[ arena_at_4112 := {| start_index_ := 32 |} ]} /\
  address (arena_at_4112, 0) mod alignof Wide = 16.
Proof.
  split; [|split; [reflexivity|split; [vm_compute; reflexivity|reflexivity]]].
  split; [exists 5; split; [lia|reflexivity]|].
  split; [unfold size_max; simpl; lia|reflexivity].
Qed.

(** C9, amended: for an element type whose alignment is a power of two
    and whose size is a multiple of it, and an arena whose buffer starts
    at an address that is a multiple of [alignof(T)], every pointer that
    [StackAllocator<T, N>::allocate(count)] returns is aligned to
    [alignof(T)], whatever the arena state and the count. *)
Theorem allocator_allocate_aligned (T : Type) `{Layout T} (N : Z)
    (a : StackAllocator T) (count : Z) (m : gmap storage_id StackStorage)
    (p : arena_ptr) (m' : gmap storage_id StackStorage) :
  layout_ok T ->
  Alloc.allocate N a count m = Returns p m' ->
  p.1 mod alignof T = 0 ->
  address p mod alignof T = 0.
Proof.
  intros ((k & Hk & Hal) & Hsz & Hmul) Hrun Hbase.
  assert (0 < alignof T) as Hpos by (rewrite Hal; apply Z.pow_pos_nonneg; lia).
  assert ((alignof T | size_max)) as Hdiv
    by (rewrite Hal; apply pow2_divides_size_max; exact Hk).
  unfold Alloc.allocate in Hrun.
  destruct (stack_storage_ a) as [id|]; [|discriminate].
  destruct (m !! id) as [s|]; [|discriminate].
  unfold Arena.allocate in Hrun.
  destruct (Z.eqb_spec (alignof T) 0) as [E|_]; [lia|].
  cbv zeta in Hrun.
  remember (wrap (start_index_ s + wrap (count * sizeof T))) as advanced.
  destruct (_ >=? N); [discriminate|].
  injection Hrun as <- _. unfold address. simpl in *.
  rewrite Zplus_mod, Hbase, Z.add_0_l, Zmod_mod.
  rewrite (wrap_mod_pow2 (_ - _) _ Hpos Hdiv).
  rewrite Zminus_mod.
  rewrite (wrap_mod_pow2 (advanced + _) _ Hpos Hdiv).
  rewrite (padding_aligns _ _ Hpos).
  rewrite (wrap_mod_pow2 (count * sizeof T) _ Hpos Hdiv).
  rewrite <- Zmult_mod_idemp_r, Hmul, Z.mul_0_r. reflexivity.
Qed.

Lemma allocator_allocate_aligned_witness :
  address (4096, 24) mod alignof (Node Z) = 0.
Proof.
  apply (allocator_allocate_aligned (Node Z) 1024 (from_storage 4096) 3
           {[ 4096 := {| start_index_ := 20 |} ]} (4096, 24)
           {[ 4096 := {| start_index_ := 96 |} ]}).
  - split; [exists 3; split; [lia|reflexivity]|].
    split; [unfold size_max; simpl; lia|reflexivity].
  - vm_compute. reflexivity.
  - reflexivity.
Defined.

End AllocClaims.

(** ** The list *)

Module ListClaims.
Import Arena Alloc ListModel ArenaFacts ListFacts Scenario.


Lemma empty_and_one_well_formed :
  wf_world 1024 empty_and_one /\
  is_list empty_and_one 100 [] [] /\
  is_list empty_and_one 200 [(arena, 0)] [7].
Proof.
  split; [|split].
  - apply wf_world_checked. apply (bool_decide_unpack _). vm_compute. exact I.
  - apply is_list_checked. apply (bool_decide_unpack _). vm_compute. exact I.
  - apply is_list_checked. apply (bool_decide_unpack _). vm_compute. exact I.
Qed.

Lemma assignment_to_empty_target :
  copy_assign 1024 never 0 3 100 200 300 empty_and_one
    = Ok tt after_assignment.
Proof. vm_compute. reflexivity. Qed.

(** C1 at its failing input: the well-formed empty list at 100 is assigned
    the well-formed list [7] at 200. The assignment completes, the source
    still reads [7], and the target reads as empty while [size()] says 1:
    the copy is not element-wise equal to the source. *)
Theorem copy_assign_to_empty_target_loses_elements :
  wf_world 1024 empty_and_one /\
  is_list empty_and_one 100 [] [] /\
  is_list empty_and_one 200 [(arena, 0)] [7] /\
  copy_assign 1024 never 0 3 100 200 300 empty_and_one
    = Ok tt after_assignment /\
  forward 3 200 after_assignment = Ok [7] after_assignment /\
  forward 3 100 after_assignment = Ok [] after_assignment /\
  size 100 after_assignment = Ok 1 after_assignment.
Proof.
  destruct empty_and_one_well_formed as (Hw & H1 & H2).
  split; [exact Hw|]. split; [exact H1|]. split; [exact H2|].
  repeat split; vm_compute; reflexivity.
Qed.

(** C2 at its failing input: both lists are rings before the assignment;
    after the same completed assignment the sentinel [X] of the target
    has [X.next.prev != X], its [prev] dangles into the destroyed
    temporary, no payload node is reachable from it although [size()] is
    1, and so the target is no ring of any nodes. *)
Theorem copy_assign_to_empty_target_breaks_ring :
  (exists ps vs, is_list empty_and_one 100 ps vs) /\
  (exists ps vs, is_list empty_and_one 200 ps vs) /\
  copy_assign 1024 never 0 3 100 200 300 empty_and_one
    = Ok tt after_assignment /\
  ~ closed_at after_assignment (PHead 100) /\
  get_base after_assignment (PHead 300) = None /\
  prev_of after_assignment (PHead 100) = Some (PHead 300) /\
  distance 3 100 after_assignment = Ok 0%nat after_assignment /\
  size 100 after_assignment = Ok 1 after_assignment /\
  ~ (exists ps vs, is_list after_assignment 100 ps vs).
Proof.
  destruct empty_and_one_well_formed as (_ & H1 & H2).
  split; [exists [], []; exact H1|].
  split; [exists [(arena, 0)], [7]; exact H2|].
  split; [vm_compute; reflexivity|].
  split; [|split; [reflexivity|split; [reflexivity|
           split; [vm_compute; reflexivity|split; [vm_compute; reflexivity|]]]]].
  - intros [(n & Hn & Hp) _].
    vm_compute in Hn. injection Hn as <-. vm_compute in Hp. discriminate.
  - intros (ps & vs & Hl).
    pose proof (il_size _ _ _ _ Hl) as Hs. vm_compute in Hs.
    pose proof (is_list_begin _ _ _ _ Hl) as Hb.
    destruct ps as [|q ps]; [discriminate Hs|].
    vm_compute in Hb. discriminate.
Qed.

(** C8 at its failing input: after the same completed assignment of the
    list [7] to the empty list at 100, it takes no increment to go from
    [begin()] to [end()] of the target and [begin()] is [end()], while
    [size()] is 1 and the list is not empty by its own count. *)
Theorem copy_assign_to_empty_target_breaks_iteration_count :
  wf_world 1024 empty_and_one /\
  is_list empty_and_one 100 [] [] /\
  is_list empty_and_one 200 [(arena, 0)] [7] /\
  copy_assign 1024 never 0 3 100 200 300 empty_and_one
    = Ok tt after_assignment /\
  distance 3 100 after_assignment = Ok 0%nat after_assignment /\
  begin 100 after_assignment = Ok (end_ 100) after_assignment /\
  size 100 after_assignment = Ok 1 after_assignment.
Proof.
  destruct empty_and_one_well_formed as (Hw & H1 & H2).
  split; [exact Hw|]. split; [exact H1|]. split; [exact H2|].
  repeat split; vm_compute; reflexivity.
Qed.

Section Claims.
Context {T : Type} {node_layout : Layout (Node T)}.
Variable N : Z.
Variable ctor_throws : nat -> bool.
Variable default_value : T.
Implicit Types (w : World T) (ps qs : list arena_ptr) (vs : list T).

Lemma restored_is_list w w' this ps vs :
  restored N w w' -> is_list w this ps vs -> is_list w' this ps vs.
Proof.
  intros (Hn & Hl & Hlv & _) H.
  apply (is_list_frame w); [exact H| | | |].
  - intros c _. destruct c; simpl; rewrite ?Hn, ?Hl; reflexivity.
  - intros q _. rewrite Hn. reflexivity.
  - rewrite Hl. reflexivity.
  - intros q _. rewrite Hlv. auto.
Qed.



(** X27: on a list whose links form a ring through the sentinel and the
    nodes [ps] and whose [size_] is the number of these nodes, with fuel
    for one more step than there are nodes, it takes [size()] increments
    to go from [begin()] to [end()], [begin()] is [end()] exactly when
    there is no element, the elements from [begin()] to [end()] are the
    contents, and those from [rbegin()] to [rend()] are the same sequence
    reversed. *)
Theorem iteration_agrees_with_size w this ps vs fuel :
  is_list w this ps vs -> (length ps < fuel)%nat ->
  distance fuel this w = Ok (length ps) w /\
  size this w = Ok (Z.of_nat (length ps)) w /\
  (exists b, begin this w = Ok b w /\
             (b = end_ this <-> length ps = 0%nat)) /\
  forward fuel this w = Ok vs w /\
  backward fuel this w = Ok (reverse vs) w.
Proof.
  intros Hl Hfuel.
  split; [exact (distance_spec w this ps vs fuel Hl Hfuel)|].
  split; [exact (size_spec w this ps vs Hl)|].
  split; [|split; [exact (forward_spec w this ps vs fuel Hl Hfuel)
                  |exact (backward_spec w this ps vs fuel Hl Hfuel)]].
  exists (first_of this ps). split.
  - unfold begin. apply read_next_run. exact (is_list_begin _ _ _ _ Hl).
  - unfold end_. destruct ps as [|q ps]; simpl.
    + split; reflexivity.
    + split; discriminate.
Qed.


End Claims.

(** *** The claims on concrete stores *)

Lemma wf_world_larger {T} N N' (w : World T) :
  wf_world N w -> N <= N' -> wf_world N' w.
Proof.
  intros [Hc Hn Hl] HN. split; [|exact Hn|exact Hl].
  intros id s Hs. specialize (Hc id s Hs). lia.
Qed.

Lemma two_elements_well_formed N :
  48 <= N ->
  wf_world N two_elements /\
  is_list two_elements 100 [(arena, 0); (arena, 24)] [5; 10].
Proof.
  intros HN. split.
  - apply (wf_world_larger 48); [|exact HN].
    apply wf_world_checked. apply (bool_decide_unpack _). vm_compute. exact I.
  - apply is_list_checked. apply (bool_decide_unpack _). vm_compute. exact I.
Qed.

Lemma int_node_fits N : 0 <= N <= 1024 -> node_fits (T:=Z) N.
Proof.
  intros HN. unfold node_fits, in_range, size_max. simpl. lia.
Qed.


(** The other way to fail: the constructor of the payload throws. The
    region of the node has been taken from the arena and given back. *)
Example insert_constructor_failure :
  insert 1024 (throws_at 2) 0 100 (end_ 100) 1 two_elements
    = Throw ctor_error
        {| arenas := {[ arena := {| start_index_ := 72 |} ]};
           nodes := nodes two_elements; lists := lists two_elements;
           live := live two_elements; ctor_calls := 3 |}.
Proof. vm_compute. reflexivity. Qed.


Lemma empty_store_well_formed : wf_world 1024 empty_store.
Proof.
  apply wf_world_checked. apply (bool_decide_unpack _). vm_compute. exact I.
Qed.


Lemma iteration_agrees_with_size_witness :
  distance 3 100 two_elements = Ok 2%nat two_elements /\
  size 100 two_elements = Ok 2 two_elements /\
  (exists b, begin 100 two_elements = Ok b two_elements /\
             (b = end_ 100 <-> 2%nat = 0%nat)) /\
  forward 3 100 two_elements = Ok [5; 10] two_elements /\
  backward 3 100 two_elements = Ok [10; 5] two_elements.
Proof.
  apply (iteration_agrees_with_size two_elements 100
           [(arena, 0); (arena, 24)] [5; 10] 3).
  - exact (proj2 (two_elements_well_formed 48 ltac:(lia))).
  - simpl. lia.
Defined.


Example self_assignment_completes :
  copy_assign 1024 never 0 3 100 100 300 two_elements
    = Ok tt after_self_assignment /\
  forward 3 100 after_self_assignment = Ok [5; 10] after_self_assignment.
Proof. split; vm_compute; reflexivity. Qed.


(** Self-assignment of the empty list at 100 of [empty_and_one]. *)
Example self_assignment_of_empty_list :
  copy_assign 1024 never 0 3 100 100 300 empty_and_one = Ok tt empty_and_one.
Proof. vm_compute. reflexivity. Qed.

(** Assignment between two non-empty lists, and between two empty ones,
    is sound: the defect of C1 and C2 needs exactly one of the two lists
    to be empty. *)
Example assignment_from_empty_source_goes_wrong :
  copy_assign 1024 never 0 3 200 100 300 empty_and_one = UB.
Proof. vm_compute. reflexivity. Qed.

(** The scenario of the specification: on an arena of 1024 bytes,
    [push_back(5)], [push_back(10)], [push_front(1)] give [1, 5, 10] and
    size 3; [pop_back()] then gives [1, 5] and size 2. *)


Example scenario_push_and_pop :
  bind (List_alloc 100 A)
    (fun _ => bind (push_back 1024 never 0 100 5)
       (fun _ => bind (push_back 1024 never 0 100 10)
          (fun _ => push_front 1024 never 0 100 1))) empty_store
    = Ok tt three_elements /\
  forward 4 100 three_elements = Ok [1; 5; 10] three_elements /\
  size 100 three_elements = Ok 3 three_elements /\
  pop_back 100 three_elements = Ok tt after_pop_back /\
  forward 4 100 after_pop_back = Ok [1; 5] after_pop_back /\
  size 100 after_pop_back = Ok 2 after_pop_back.
Proof. repeat split; vm_compute; reflexivity. Qed.

(** The two elements of [two_elements] are what two [push_back] build. *)
Example scenario_two_elements :
  bind (List_alloc 100 A)
    (fun _ => bind (push_back 64 never 0 100 5)
       (fun _ => push_back 64 never 0 100 10)) empty_store
    = Ok tt two_elements.
Proof. vm_compute. reflexivity. Qed.

End ListClaims.


(** * Further properties of the code *)

(** ** Positions, ends and capacity: more facts about the list *)

Module SpliceFacts.
Import Arena Alloc ListModel ArenaFacts ListFacts.

Section Splicing.
Context {A : Type}.
Implicit Types (f g : A -> option A) (l : list A).

(** A new element [x] enters a chain between [u], the last of [a :: l1],
    and its successor. *)
Lemma chain_splice f g a l1 l2 z x :
  NoDup (a :: l1 ++ l2) ->
  chain f (a :: l1 ++ l2 ++ [z]) ->
  (forall c, c ∈ a :: l1 ++ l2 -> c <> default a (last l1) -> g c = f c) ->
  g (default a (last l1)) = Some x ->
  g x = Some (default z (head l2)) ->
  chain g (a :: l1 ++ x :: l2 ++ [z]).
Proof.
  revert a. induction l1 as [|b l1 IH]; intros a Hnd Hf Hg Hu Hx.
  - simpl in *. split; [exact Hu|].
    apply chain_head. split.
    + destruct l2; exact Hx.
    + apply chain_head in Hf as [_ Hf].
      apply (chain_ext f); [|exact Hf].
      intros c Hc. apply Hg; [right; exact Hc|].
      intros ->. apply NoDup_cons in Hnd as [Hnd _]. contradiction.
  - assert (default a (last (b :: l1)) = default b (last l1)) as Hlast.
    { destruct l1 as [|b' l1]; [reflexivity|].
      change (last (b :: b' :: l1)) with (last (b' :: l1)).
      destruct (last (b' :: l1)) eqn:E; [reflexivity|].
      apply last_None in E. discriminate. }
    rewrite Hlast in Hg, Hu.
    change (chain f (a :: b :: l1 ++ l2 ++ [z])) in Hf.
    destruct Hf as [Hab Hf].
    change (g a = Some b /\ chain g (b :: l1 ++ x :: l2 ++ [z])).
    apply NoDup_cons in Hnd as [Ha Hnd].
    split.
    + rewrite Hg; [exact Hab|left|].
      intros ->. apply Ha.
      change (default b (last l1) ∈ (b :: l1) ++ l2).
      apply elem_of_app. left.
      destruct (last l1) as [y|] eqn:E; simpl; [right|left].
      apply last_Some_elem_of. exact E.
    + apply IH; try assumption.
      intros c Hc Hne. apply Hg; [right; exact Hc|exact Hne].
Qed.

(** The element [x] leaves a chain: its predecessor is sent to its
    successor. *)
Lemma chain_unsplice f g a l1 l2 z x :
  NoDup (a :: l1 ++ x :: l2) ->
  chain f (a :: l1 ++ x :: l2 ++ [z]) ->
  (forall c, c ∈ a :: l1 ++ l2 -> c <> default a (last l1) -> g c = f c) ->
  g (default a (last l1)) = Some (default z (head l2)) ->
  chain g (a :: l1 ++ l2 ++ [z]).
Proof.
  revert a. induction l1 as [|b l1 IH]; intros a Hnd Hf Hg Hu.
  - simpl in *. destruct Hf as [_ Hf].
    apply chain_head. split.
    + destruct l2; exact Hu.
    + apply chain_head in Hf as [_ Hf].
      apply (chain_ext f); [|exact Hf].
      intros c Hc. apply Hg; [right; exact Hc|].
      intros ->. apply NoDup_cons in Hnd as [Hnd _]. apply Hnd.
      right. exact Hc.
  - assert (default a (last (b :: l1)) = default b (last l1)) as Hlast.
    { destruct l1 as [|b' l1]; [reflexivity|].
      change (last (b :: b' :: l1)) with (last (b' :: l1)).
      destruct (last (b' :: l1)) eqn:E; [reflexivity|].
      apply last_None in E. discriminate. }
    rewrite Hlast in Hg, Hu.
    change (chain f (a :: b :: l1 ++ x :: l2 ++ [z])) in Hf.
    destruct Hf as [Hab Hf].
    change (g a = Some b /\ chain g (b :: l1 ++ l2 ++ [z])).
    apply NoDup_cons in Hnd as [Ha Hnd].
    split.
    + rewrite Hg; [exact Hab|left|].
      intros ->. apply Ha.
      change (default b (last l1) ∈ (b :: l1) ++ x :: l2).
      apply elem_of_app. left.
      destruct (last l1) as [y|] eqn:E; simpl; [right|left].
      apply last_Some_elem_of. exact E.
    + apply IH; try assumption.
      intros c Hc Hne. apply Hg; [right; exact Hc|exact Hne].
Qed.

End Splicing.

Lemma NoDup_reversed {A} (l : list A) : NoDup l -> NoDup (reverse l).
Proof. intros H. rewrite reverse_Permutation. exact H. Qed.

Section Junctions.
Context {T : Type} {node_layout : Layout (Node T)}.
Implicit Types (w : World T) (c : ptr) (p q : arena_ptr) (l : Z)
  (ps : list arena_ptr) (vs : list T).

Lemma last_of_default s ps :
  default (PHead s) (last (PNode <$> ps)) = last_of s ps.
Proof. unfold last_of. rewrite fmap_last. reflexivity. Qed.

Lemma first_of_default s ps :
  default (PHead s) (head (PNode <$> ps)) = first_of s ps.
Proof. unfold first_of. rewrite head_fmap_PNode. reflexivity. Qed.

Lemma last_of_reverse s ps : last_of s (reverse ps) = first_of s ps.
Proof. unfold last_of, first_of. rewrite last_reverse. reflexivity. Qed.

Lemma first_of_reverse s ps : first_of s (reverse ps) = last_of s ps.
Proof. unfold last_of, first_of. rewrite head_reverse. reflexivity. Qed.

Lemma NoDup_ring_nodes s ps : NoDup ps -> NoDup (PHead s :: (PNode <$> ps)).
Proof.
  intros H. apply NoDup_cons. split.
  - intros Hin. apply list_elem_of_fmap in Hin as (q & Hq & _). discriminate.
  - apply NoDup_fmap_2; [|exact H]. intros ? ? [= ->]. reflexivity.
Qed.

Lemma ring_node_cases s ps c :
  c ∈ PHead s :: (PNode <$> ps) -> c = PHead s \/ exists q, c = PNode q /\ q ∈ ps.
Proof.
  intros H. apply elem_of_cons in H as [->|H]; [left; reflexivity|right].
  apply list_elem_of_fmap in H as (q & -> & Hq). eauto.
Qed.

(** The two nodes on either side of a cut of the ring point at each
    other. *)
Lemma is_list_junction w s ps1 ps2 vs :
  is_list w s (ps1 ++ ps2) vs ->
  next_of w (last_of s ps1) = Some (first_of s ps2) /\
  prev_of w (first_of s ps2) = Some (last_of s ps1).
Proof.
  intros H. split.
  - destruct ps1 as [|q ps1 _] using rev_ind.
    + exact (is_list_begin _ _ _ _ H).
    + rewrite last_of_snoc. rewrite <- app_assoc in H.
      exact (is_list_next_at _ _ _ _ _ _ H).
  - destruct ps2 as [|q ps2].
    + rewrite app_nil_r in H. exact (is_list_last _ _ _ _ H).
    + exact (is_list_prev_at _ _ _ _ _ _ H).
Qed.

(** A node linked in at a cut of the ring. *)
Lemma ring_splice w w' s ps1 ps2 p :
  ring w s (ps1 ++ ps2) -> NoDup (ps1 ++ ps2) -> p ∉ ps1 ++ ps2 ->
  (forall c, next_of w' c =
     if decide (c = last_of s ps1) then Some (PNode p)
     else if decide (c = PNode p) then Some (first_of s ps2)
     else next_of w c) ->
  (forall c, prev_of w' c =
     if decide (c = first_of s ps2) then Some (PNode p)
     else if decide (c = PNode p) then Some (last_of s ps1)
     else prev_of w c) ->
  ring w' s (ps1 ++ p :: ps2).
Proof.
  intros [Hn Hp] Hnd Hfresh Hnext Hprev.
  assert (forall c, c ∈ PHead s :: (PNode <$> ps1 ++ ps2) -> c <> PNode p)
    as Hne.
  { intros c Hc ->. apply ring_node_cases in Hc as [?|(q & [= <-] & Hq)];
      [discriminate|contradiction]. }
  assert (last_of s ps1 <> PNode p) as Hl.
  { apply Hne. pose proof (last_of_elem s ps1) as H.
    rewrite fmap_app. apply elem_of_cons in H as [->|H]; [left|right].
    apply elem_of_app. left. exact H. }
  assert (first_of s ps2 <> PNode p) as Hf.
  { apply Hne. pose proof (first_of_elem s ps2) as H.
    rewrite fmap_app. apply elem_of_cons in H as [->|H]; [left|right].
    apply elem_of_app. right. exact H. }
  split.
  - rewrite fmap_app, fmap_cons, <- app_assoc.
    change ((PNode p :: (PNode <$> ps2)) ++ [PHead s])
      with (PNode p :: (PNode <$> ps2) ++ [PHead s]).
    rewrite fmap_app, <- app_assoc in Hn.
    apply (chain_splice (next_of w)).
    + rewrite <- fmap_app. apply NoDup_ring_nodes. exact Hnd.
    + exact Hn.
    + intros c Hc Hc'. rewrite last_of_default in Hc'.
      rewrite Hnext, decide_False by exact Hc'.
      rewrite decide_False; [reflexivity|].
      apply Hne. rewrite fmap_app. exact Hc.
    + rewrite last_of_default, Hnext, decide_True by reflexivity. reflexivity.
    + rewrite first_of_default, Hnext, decide_False by congruence.
      rewrite decide_True by reflexivity. reflexivity.
  - rewrite reverse_app, reverse_cons, <- app_assoc.
    change ([p] ++ reverse ps1) with (p :: reverse ps1).
    rewrite fmap_app, fmap_cons, <- app_assoc.
    change ((PNode p :: (PNode <$> reverse ps1)) ++ [PHead s])
      with (PNode p :: (PNode <$> reverse ps1) ++ [PHead s]).
    rewrite reverse_app, fmap_app, <- app_assoc in Hp.
    apply (chain_splice (prev_of w)).
    + rewrite <- fmap_app, <- reverse_app. apply NoDup_ring_nodes.
      apply NoDup_reversed. exact Hnd.
    + exact Hp.
    + intros c Hc Hc'. rewrite last_of_default, last_of_reverse in Hc'.
      rewrite Hprev, decide_False by exact Hc'.
      rewrite decide_False; [reflexivity|].
      apply Hne.
      rewrite <- fmap_app, <- reverse_app in Hc.
      apply elem_of_cons in Hc as [->|Hc]; [left|right].
      apply list_elem_of_fmap in Hc as (q & -> & Hq).
      apply list_elem_of_fmap_2. rewrite elem_of_reverse in Hq. exact Hq.
    + rewrite last_of_default, last_of_reverse, Hprev.
      rewrite decide_True by reflexivity. reflexivity.
    + rewrite first_of_default, first_of_reverse, Hprev.
      rewrite decide_False by congruence.
      rewrite decide_True by reflexivity. reflexivity.
Qed.

(** A node linked out of the ring. *)
Lemma ring_unsplice w w' s ps1 q ps2 :
  ring w s (ps1 ++ q :: ps2) -> NoDup (ps1 ++ q :: ps2) ->
  (forall c, c <> PNode q -> next_of w' c =
     if decide (c = last_of s ps1) then Some (first_of s ps2)
     else next_of w c) ->
  (forall c, c <> PNode q -> prev_of w' c =
     if decide (c = first_of s ps2) then Some (last_of s ps1)
     else prev_of w c) ->
  ring w' s (ps1 ++ ps2).
Proof.
  intros [Hn Hp] Hnd Hnext Hprev.
  assert (NoDup (ps1 ++ ps2) /\ q ∉ ps1 ++ ps2) as [Hnd' Hq].
  { apply NoDup_app in Hnd as (H1 & H2 & H3).
    apply NoDup_cons in H3 as [H3 H4]. split.
    - apply NoDup_app. split; [exact H1|]. split; [|exact H4].
      intros x Hx Hx'. apply (H2 x Hx). right. exact Hx'.
    - intros Hin. apply elem_of_app in Hin as [Hin|Hin]; [|contradiction].
      apply (H2 q Hin). left. }
  assert (forall c, c ∈ PHead s :: (PNode <$> ps1 ++ ps2) -> c <> PNode q)
    as Hne.
  { intros c Hc ->. apply ring_node_cases in Hc as [?|(q' & [= <-] & Hq')];
      [discriminate|contradiction]. }
  assert (last_of s ps1 <> PNode q) as Hl.
  { apply Hne. pose proof (last_of_elem s ps1) as H.
    rewrite fmap_app. apply elem_of_cons in H as [->|H]; [left|right].
    apply elem_of_app. left. exact H. }
  assert (first_of s ps2 <> PNode q) as Hf.
  { apply Hne. pose proof (first_of_elem s ps2) as H.
    rewrite fmap_app. apply elem_of_cons in H as [->|H]; [left|right].
    apply elem_of_app. right. exact H. }
  split.
  - rewrite fmap_app, fmap_cons, <- app_assoc in Hn.
    change ((PNode q :: (PNode <$> ps2)) ++ [PHead s])
      with (PNode q :: (PNode <$> ps2) ++ [PHead s]) in Hn.
    rewrite fmap_app, <- app_assoc.
    apply (chain_unsplice (next_of w) _ _ _ _ _ (PNode q)).
    + change (NoDup (PHead s :: (PNode <$> ps1) ++ (PNode <$> q :: ps2))).
      rewrite <- fmap_app. apply NoDup_ring_nodes. exact Hnd.
    + exact Hn.
    + intros c Hc Hc'. rewrite last_of_default in Hc'.
      rewrite Hnext, decide_False by (try exact Hc'; apply Hne;
        rewrite fmap_app; exact Hc). reflexivity.
    + rewrite last_of_default, first_of_default, Hnext by exact Hl.
      rewrite decide_True by reflexivity. reflexivity.
  - rewrite reverse_app, reverse_cons, <- app_assoc in Hp.
    change ([q] ++ reverse ps1) with (q :: reverse ps1) in Hp.
    rewrite fmap_app, fmap_cons, <- app_assoc in Hp.
    change ((PNode q :: (PNode <$> reverse ps1)) ++ [PHead s])
      with (PNode q :: (PNode <$> reverse ps1) ++ [PHead s]) in Hp.
    rewrite reverse_app, fmap_app, <- app_assoc.
    apply (chain_unsplice (prev_of w) _ _ _ _ _ (PNode q)).
    + change (NoDup (PHead s :: (PNode <$> reverse ps2)
                       ++ (PNode <$> q :: reverse ps1))).
      rewrite <- fmap_app. apply NoDup_ring_nodes.
      change (q :: reverse ps1) with ([q] ++ reverse ps1).
      rewrite app_assoc, <- reverse_cons, <- reverse_app.
      apply NoDup_reversed. exact Hnd.
    + exact Hp.
    + intros c Hc Hc'. rewrite last_of_default, last_of_reverse in Hc'.
      assert (c <> PNode q) as Hcq.
      { apply Hne. rewrite <- fmap_app, <- reverse_app in Hc.
        apply elem_of_cons in Hc as [->|Hc]; [left|right].
        apply list_elem_of_fmap in Hc as (q' & -> & Hq').
        apply list_elem_of_fmap_2. rewrite elem_of_reverse in Hq'. exact Hq'. }
      rewrite Hprev, decide_False by assumption. reflexivity.
    + rewrite last_of_default, first_of_default, last_of_reverse,
        first_of_reverse, Hprev by exact Hf.
      rewrite decide_True by reflexivity. reflexivity.
Qed.

End Junctions.

Section InsertAt.
Context {T : Type} {node_layout : Layout (Node T)}.
Variable N : Z.
Variable ctor_throws : nat -> bool.
Variable default_value : T.
Implicit Types (w : World T) (c : ptr) (p q : arena_ptr) (l : Z)
  (ps : list arena_ptr) (vs : list T).

Lemma ring_node_not_other_head s ps c l :
  c ∈ PHead s :: (PNode <$> ps) -> l <> s -> c <> PHead l.
Proof.
  intros Hc Hl ->. apply ring_node_cases in Hc as [[= ->]|(q & ? & _)];
    [contradiction|discriminate].
Qed.

Lemma ring_node_not_outside s ps c q :
  c ∈ PHead s :: (PNode <$> ps) -> q ∉ ps -> c <> PNode q.
Proof.
  intros Hc Hq ->. apply ring_node_cases in Hc as [?|(q' & [= <-] & ?)];
    [discriminate|contradiction].
Qed.

(** [InsertHelper] before the position [first_of this ps2] of the list
    [ps1 ++ ps2]: when it returns, a fresh node sits between the two
    parts. *)
Lemma InsertHelper_at w this ps1 ps2 vs1 vs2 id arg :
  wf_world N w -> node_fits (T:=T) N ->
  is_list w this (ps1 ++ ps2) (vs1 ++ vs2) -> length ps1 = length vs1 ->
  allocates_from w this id ->
  Z.of_nat (length (ps1 ++ ps2)) + 1 < size_max ->
  match InsertHelper N ctor_throws default_value this (first_of this ps2)
          arg w with
  | Ok _ w' =>
      exists p,
        nodes w !! p = None /\ (p ∉ live w) /\
        is_list w' this (ps1 ++ p :: ps2)
          (vs1 ++ default default_value arg :: vs2) /\
        wf_world N w' /\
        only_changes [this] (p :: ps1 ++ ps2) w w' /\
        live w' = {[p]} ∪ live w /\
        allocates_from w' this id /\
        ctor_calls w' = S (ctor_calls w)
  | Throw e w' => True
  | _ => False
  end.
Proof.
  intros Hwf Hfit Hlist Hlen12 [Hna [st Hst]] Hbound.
  destruct (lists w !! this) as [o|] eqn:Ho; [|discriminate Hna].
  simpl in Hna. injection Hna as Hna.
  unfold InsertHelper.
  rewrite (bind_Ok _ _ _ _ _ (get_list_run _ _ _ Ho)).
  destruct (node_allocate_cases N w (node_allocator_ o) id st Hwf Hfit
              ltac:(rewrite Hna; reflexivity) Hst)
    as [Hthrow|(off & st' & Hok & Hoff & Hcap)].
  { unfold bind. rewrite Hthrow. exact I. }
  rewrite (bind_Ok _ _ _ _ _ Hok). clear Hok.
  set (p := (id, off)).
  set (w1 := set_live _ _).
  destruct (past_cursor_fresh N w id st off Hwf Hst ltac:(lia)) as [Hfresh Hnl].
  fold p in Hfresh, Hnl.
  unfold bind at 1. unfold try_catch, construct.
  destruct (ctor_throws (ctor_calls w1)) eqn:Hct; [exact I|].
  set (n0 := {| base := {| next := nullptr; prev := nullptr |};
                value := default default_value arg |}).
  set (w2 := set_nodes _ _).
  pose proof Hlist as [Hring Hnd Hvals Hsize Hlen Hlive].
  destruct (is_list_junction _ _ _ _ _ Hlist) as [Hn_prv Hp_it].
  assert (forall c, get_base w2 c =
            if decide (c = PNode p) then Some (base n0) else get_base w c)
    as Hgb2.
  { intros c. unfold w2, w1.
    rewrite get_base_insert_node, get_base_set_ctor_calls, get_base_set_live,
      get_base_set_arenas. reflexivity. }
  assert (p ∉ ps1 ++ ps2) as Hps.
  { intros Hq. apply Hlive in Hq. contradiction. }
  assert (last_of this ps1 ∈ PHead this :: (PNode <$> ps1 ++ ps2)) as Hprv_in.
  { pose proof (last_of_elem this ps1) as H. rewrite fmap_app.
    apply elem_of_cons in H as [->|H]; [left|right].
    apply elem_of_app. left. exact H. }
  assert (first_of this ps2 ∈ PHead this :: (PNode <$> ps1 ++ ps2)) as Hit_in.
  { pose proof (first_of_elem this ps2) as H. rewrite fmap_app.
    apply elem_of_cons in H as [->|H]; [left|right].
    apply elem_of_app. right. exact H. }
  remember (last_of this ps1) as prv eqn:Hprv_def.
  remember (first_of this ps2) as it eqn:Hit_def.
  assert (prv <> PNode p) as Hprvp
    by (eapply ring_node_not_outside; eassumption).
  assert (it <> PNode p) as Hitp
    by (eapply ring_node_not_outside; eassumption).
  destruct (next_of_is_Some _ _ _ Hn_prv) as [bprv Hbprv].
  destruct (prev_of_is_Some _ _ _ Hp_it) as [bit Hbit].
  rewrite (bind_Ok _ _ _ _ _
            (read_prev_run it w2 prv
               ltac:(unfold prev_of; rewrite Hgb2, decide_False by exact Hitp;
                     exact Hp_it))).
  rewrite (bind_Ok _ _ _ _ _
            (write_prev_run (PNode p) prv w2
               ltac:(rewrite Hgb2, decide_True by reflexivity; eauto))).
  set (w3 := update_base _ _ w2).
  rewrite (bind_Ok _ _ _ _ _
            (write_next_run (PNode p) it w3
               ltac:(unfold w3; rewrite get_base_update_base, Hgb2,
                       !decide_True by reflexivity; eauto))).
  set (w4 := update_base _ _ w3).
  assert (forall c, get_base w4 c =
            if decide (c = PNode p)
            then Some {| next := it; prev := prv |}
            else get_base w c) as Hgb4.
  { intros c. unfold w4, w3. rewrite !get_base_update_base, Hgb2.
    case_decide; reflexivity. }
  rewrite (bind_Ok _ _ _ _ _
            (write_prev_run it (PNode p) w4
               ltac:(rewrite Hgb4, decide_False by exact Hitp; eauto))).
  set (w5 := update_base _ _ w4).
  rewrite (bind_Ok _ _ _ _ _
            (write_next_run prv (PNode p) w5
               ltac:(unfold w5; rewrite get_base_update_base, Hgb4;
                     rewrite (decide_False (P := prv = PNode p))
                       by exact Hprvp;
                     case_decide; rewrite Hbprv; eauto))).
  set (w6 := update_base _ _ w5).
  assert (forall c, next_of w6 c =
            if decide (c = prv) then Some (PNode p)
            else if decide (c = PNode p) then Some it
            else next_of w c) as Hnext6.
  { intros c. unfold w6, w5, next_of.
    rewrite !get_base_update_base, Hgb4.
    repeat case_decide; try subst c; try congruence; rewrite ?Hbprv, ?Hbit;
      try reflexivity; destruct (get_base w _); reflexivity. }
  assert (forall c, prev_of w6 c =
            if decide (c = it) then Some (PNode p)
            else if decide (c = PNode p) then Some prv
            else prev_of w c) as Hprev6.
  { intros c. unfold w6, w5, prev_of.
    rewrite !get_base_update_base, Hgb4.
    repeat case_decide; try subst c; try congruence; rewrite ?Hbprv, ?Hbit;
      try reflexivity; destruct (get_base w _); reflexivity. }
  assert (forall q, value <$> nodes w6 !! q =
            if decide (q = p) then Some (default default_value arg)
            else value <$> nodes w !! q) as Hval6.
  { intros q. unfold w6, w5, w4, w3. rewrite !value_update_base.
    unfold w2. simpl. destruct (decide (q = p)) as [->|Hq].
    - rewrite lookup_insert_eq. reflexivity.
    - rewrite lookup_insert_ne by congruence. reflexivity. }
  assert (forall l, size_ <$> lists w6 !! l = size_ <$> lists w !! l) as Hsz6.
  { intros l. unfold w6, w5, w4, w3. rewrite !size_update_base. reflexivity. }
  assert (forall l, node_allocator_ <$> lists w6 !! l
                    = node_allocator_ <$> lists w !! l) as Hna6.
  { intros l. unfold w6, w5, w4, w3. rewrite !node_allocator_update_base.
    reflexivity. }
  assert (forall l, l <> this -> lists w6 !! l = lists w !! l) as Hl6.
  { intros l Hl. unfold w6, w5, w4, w3.
    rewrite lists_update_base_ne
      by (eapply ring_node_not_other_head; eassumption).
    rewrite lists_update_base_ne
      by (eapply ring_node_not_other_head; eassumption).
    rewrite !lists_update_base_ne by discriminate. reflexivity. }
  assert (forall q, q <> p -> q ∉ ps1 ++ ps2 -> nodes w6 !! q = nodes w !! q)
    as Hn6.
  { intros q Hq Hin. unfold w6, w5, w4, w3.
    rewrite nodes_update_base_ne
      by (eapply ring_node_not_outside; eassumption).
    rewrite nodes_update_base_ne
      by (eapply ring_node_not_outside; eassumption).
    rewrite !nodes_update_base_ne by congruence.
    unfold w2. simpl. rewrite lookup_insert_ne by congruence. reflexivity. }
  assert (live w6 = {[p]} ∪ live w) as Hlive6.
  { unfold w6, w5, w4, w3. rewrite !live_update_base. reflexivity. }
  assert (arenas w6 = <[id := st']> (arenas w)) as Har6.
  { unfold w6, w5, w4, w3. rewrite !arenas_update_base. reflexivity. }
  assert (ctor_calls w6 = S (ctor_calls w)) as Hcc6.
  { unfold w6, w5, w4, w3. rewrite !ctor_calls_update_base. reflexivity. }
  destruct (lists w6 !! this) as [o6|] eqn:Ho6.
  2:{ specialize (Hsz6 this). rewrite Ho6, Ho in Hsz6. discriminate. }
  rewrite (add_size_run this 1 w6 o6 Ho6).
  set (w7 := set_lists _ w6).
  assert (size_ o6 = Z.of_nat (length (ps1 ++ ps2))) as Hsize6.
  { specialize (Hsz6 this). rewrite Ho6, Hsize in Hsz6. simpl in Hsz6.
    congruence. }
  assert (forall c, get_base w7 c = get_base w6 c) as Hgb7.
  { intros c. unfold w7. apply get_base_resize. exact Ho6. }
  assert (below_cursor w7 p) as Hbelow.
  { exists st'. unfold w7. simpl. rewrite Har6.
    simpl. rewrite lookup_insert_eq. split; [reflexivity|simpl; lia]. }
  exists p. split; [exact Hfresh|]. split; [exact Hnl|].
  split; [|split; [|split; [|split; [|split]]]].
  - split.
    + apply (ring_splice w); try assumption.
      * intros c. unfold next_of. rewrite Hgb7. rewrite <- Hprv_def, <- Hit_def.
        apply Hnext6.
      * intros c. unfold prev_of. rewrite Hgb7. rewrite <- Hprv_def, <- Hit_def.
        apply Hprev6.
    + apply NoDup_app in Hnd as (H1 & H2 & H3).
      apply NoDup_app. split; [exact H1|]. split.
      * intros x Hx Hx'. apply elem_of_cons in Hx' as [->|Hx'].
        -- apply Hps. apply elem_of_app. left. exact Hx.
        -- exact (H2 x Hx Hx').
      * apply NoDup_cons. split; [|exact H3].
        intros Hin. apply Hps. apply elem_of_app. right. exact Hin.
    + apply Forall2_app_inv in Hvals as [Hv1 Hv2]; [|exact Hlen12].
      apply Forall2_app; [|constructor].
      * eapply Forall2_impl_elem; [exact Hv1|]. intros q v Hq Hv. simpl.
        unfold w7. simpl. rewrite Hval6.
        rewrite decide_False; [exact Hv|].
        intros ->. apply Hps. apply elem_of_app. left. exact Hq.
      * unfold w7. simpl. rewrite Hval6, decide_True by reflexivity.
        reflexivity.
      * eapply Forall2_impl_elem; [exact Hv2|]. intros q v Hq Hv. simpl.
        unfold w7. simpl. rewrite Hval6.
        rewrite decide_False; [exact Hv|].
        intros ->. apply Hps. apply elem_of_app. right. exact Hq.
    + unfold w7. simpl. rewrite lookup_insert_eq. simpl.
      rewrite Hsize6. rewrite !length_app in *. simpl.
      rewrite wrap_small by lia. f_equal. lia.
    + rewrite !length_app in *. simpl. lia.
    + intros q Hq. unfold w7. simpl. rewrite Hlive6.
      apply elem_of_app in Hq as [Hq|Hq].
      * apply elem_of_union. right. apply Hlive. apply elem_of_app. left.
        exact Hq.
      * apply elem_of_cons in Hq as [->|Hq]; [set_solver|].
        apply elem_of_union. right. apply Hlive. apply elem_of_app. right.
        exact Hq.
  - apply (wf_world_advance N w w7 id st st'); try assumption.
    + pose proof (wf_cursor N w Hwf id st Hst). lia.
    + intros q Hq. unfold w7 in Hq. simpl in Hq.
      apply (fmap_is_Some value) in Hq. rewrite Hval6 in Hq.
      destruct (decide (q = p)) as [->|Hne].
      * right. exact Hbelow.
      * left. apply (fmap_is_Some value). exact Hq.
    + intros q Hq. unfold w7 in Hq. simpl in Hq. rewrite Hlive6 in Hq.
      apply elem_of_union in Hq as [Hq|Hq]; [|left; exact Hq].
      apply elem_of_singleton in Hq as ->. right. exact Hbelow.
  - split.
    + intros l Hl. unfold w7. simpl.
      assert (l <> this) as Hne by (intros ->; apply Hl; left).
      rewrite lookup_insert_ne by congruence. apply Hl6. exact Hne.
    + intros q Hq. unfold w7. simpl. apply Hn6.
      * intros ->. apply Hq. left.
      * intros Hin. apply Hq. right. exact Hin.
    + intros q Hq. unfold w7. simpl. rewrite Hlive6.
      assert (q <> p) by (intros ->; apply Hq; left).
      set_solver.
    + intros id'. unfold w7. simpl. rewrite Har6.
      rewrite lookup_insert_is_Some'. split; [|tauto].
      intros [->|H]; [eauto|exact H].
  - unfold w7. simpl. exact Hlive6.
  - split.
    + unfold w7. simpl. rewrite lookup_insert_eq. simpl.
      specialize (Hna6 this). rewrite Ho6, Ho in Hna6. simpl in Hna6.
      congruence.
    + unfold w7. simpl. rewrite Har6, lookup_insert_eq. eauto.
  - unfold w7. simpl. exact Hcc6.
Qed.

End InsertAt.

Section EraseAt.
Context {T : Type} {node_layout : Layout (Node T)}.
Implicit Types (w : World T) (c : ptr) (p q : arena_ptr) (l : Z)
  (ps : list arena_ptr) (vs : list T).

(** [erase] at the node [q] of the list [ps1 ++ q :: ps2]: the node is
    linked out, destroyed and given back, and the two parts close up. *)
Lemma erase_at w this ps1 q ps2 vs1 v vs2 :
  is_list w this (ps1 ++ q :: ps2) (vs1 ++ v :: vs2) ->
  length ps1 = length vs1 ->
  exists w',
    erase this (PNode q) w = Ok tt w' /\
    is_list w' this (ps1 ++ ps2) (vs1 ++ vs2) /\
    only_changes [this] (ps1 ++ q :: ps2) w w' /\
    nodes w' !! q = None /\
    live w' = live w ∖ {[q]} /\
    arenas w' = arenas w /\
    ctor_calls w' = ctor_calls w /\
    (forall q', is_Some (nodes w' !! q') -> is_Some (nodes w !! q')) /\
    node_allocator_ <$> lists w' !! this = node_allocator_ <$> lists w !! this.
Proof.
  intros Hlist Hlen12.
  pose proof Hlist as [Hring Hnd Hvals Hsize Hlen Hlive].
  pose proof (is_list_prev_at _ _ _ _ _ _ Hlist) as Hpq.
  pose proof (is_list_next_at _ _ _ _ _ _ Hlist) as Hnq.
  destruct (is_list_junction w this ps1 (q :: ps2) _ Hlist) as [Hn_prv _].
  assert (is_list w this ((ps1 ++ [q]) ++ ps2) (vs1 ++ v :: vs2)) as Hlist'
    by (rewrite <- app_assoc; exact Hlist).
  destruct (is_list_junction w this (ps1 ++ [q]) ps2 _ Hlist') as [_ Hp_nxt].
  rewrite last_of_snoc in Hp_nxt. clear Hlist'.
  change (first_of this (q :: ps2)) with (PNode q) in Hn_prv.
  assert (NoDup (ps1 ++ ps2) /\ q ∉ ps1 ++ ps2) as [Hnd' Hq].
  { apply NoDup_app in Hnd as (H1 & H2 & H3).
    apply NoDup_cons in H3 as [H3 H4]. split.
    - apply NoDup_app. split; [exact H1|]. split; [|exact H4].
      intros x Hx Hx'. apply (H2 x Hx). right. exact Hx'.
    - intros Hin. apply elem_of_app in Hin as [Hin|Hin]; [|contradiction].
      apply (H2 q Hin). left. }
  assert (last_of this ps1 ∈ PHead this :: (PNode <$> ps1 ++ ps2)) as Hprv_in.
  { pose proof (last_of_elem this ps1) as H. rewrite fmap_app.
    apply elem_of_cons in H as [->|H]; [left|right].
    apply elem_of_app. left. exact H. }
  assert (first_of this ps2 ∈ PHead this :: (PNode <$> ps1 ++ ps2)) as Hnxt_in.
  { pose proof (first_of_elem this ps2) as H. rewrite fmap_app.
    apply elem_of_cons in H as [->|H]; [left|right].
    apply elem_of_app. right. exact H. }
  remember (last_of this ps1) as prv eqn:Hprv_def.
  remember (first_of this ps2) as nxt eqn:Hnxt_def.
  assert (prv <> PNode q) as Hprvq
    by (eapply ring_node_not_outside; eassumption).
  assert (nxt <> PNode q) as Hnxtq
    by (eapply ring_node_not_outside; eassumption).
  destruct (next_of_is_Some _ _ _ Hn_prv) as [bprv Hbprv].
  destruct (prev_of_is_Some _ _ _ Hp_nxt) as [bnxt Hbnxt].
  destruct (nodes w !! q) as [nq|] eqn:Hnq_node.
  2:{ unfold prev_of in Hpq. simpl in Hpq. rewrite Hnq_node in Hpq.
      discriminate. }
  destruct (lists w !! this) as [o|] eqn:Ho; [|discriminate Hsize].
  unfold erase.
  rewrite (bind_Ok _ _ _ _ _ (read_prev_run _ _ _ Hpq)).
  rewrite (bind_Ok _ _ _ _ _ (read_next_run _ _ _ Hnq)).
  rewrite (bind_Ok _ _ _ _ _
            (write_prev_run nxt prv w ltac:(rewrite Hbnxt; eauto))).
  set (w1 := update_base _ _ w).
  rewrite (bind_Ok _ _ _ _ _
            (read_next_run (PNode q) w1 nxt
               ltac:(unfold w1; rewrite next_of_set_prev; exact Hnq))).
  rewrite (bind_Ok _ _ _ _ _
            (read_prev_run (PNode q) w1 prv
               ltac:(unfold w1; rewrite prev_of_set_prev;
                     rewrite decide_False by congruence; exact Hpq))).
  rewrite (bind_Ok _ _ _ _ _
            (write_next_run prv nxt w1
               ltac:(unfold w1; rewrite get_base_update_base;
                     case_decide; rewrite Hbprv; eauto))).
  set (w2 := update_base _ _ w1).
  assert (forall l, size_ <$> lists w2 !! l = size_ <$> lists w !! l) as Hsz2.
  { intros l. unfold w2, w1. rewrite !size_update_base. reflexivity. }
  assert (forall l, node_allocator_ <$> lists w2 !! l
                    = node_allocator_ <$> lists w !! l) as Hna2.
  { intros l. unfold w2, w1. rewrite !node_allocator_update_base.
    reflexivity. }
  destruct (lists w2 !! this) as [o2|] eqn:Ho2.
  2:{ specialize (Hsz2 this). rewrite Ho2, Ho in Hsz2. discriminate. }
  rewrite (bind_Ok _ _ _ _ _ (get_list_run _ _ _ Ho2)).
  assert (forall q', value <$> nodes w2 !! q' = value <$> nodes w !! q')
    as Hval2.
  { intros q'. unfold w2, w1. rewrite !value_update_base. reflexivity. }
  destruct (nodes w2 !! q) as [nq2|] eqn:Hnq2.
  2:{ specialize (Hval2 q). rewrite Hnq2, Hnq_node in Hval2. discriminate. }
  rewrite (bind_Ok _ _ _ _ _ (as_node_run _ _ _ Hnq2)).
  unfold destroy at 1. unfold bind at 1.
  unfold node_deallocate at 1. unfold bind at 1.
  set (w4 := set_live _ _).
  assert (lists w4 !! this = Some o2) as Ho4 by exact Ho2.
  rewrite (add_size_run this (-1) w4 o2 Ho4).
  set (w5 := set_lists _ w4).
  assert (forall c, get_base w5 c =
            if decide (c = PNode q) then None else get_base w2 c) as Hgb5.
  { intros c. unfold w5. rewrite (get_base_resize _ _ _ _ _ Ho4).
    unfold w4. rewrite get_base_set_live, get_base_set_arenas.
    apply get_base_delete_node. }
  assert (forall c, c <> PNode q -> next_of w5 c =
            if decide (c = prv) then Some nxt else next_of w c) as Hnext5.
  { intros c Hc. unfold next_of. rewrite Hgb5, decide_False by exact Hc.
    unfold w2, w1. rewrite !get_base_update_base.
    repeat case_decide; try subst c; try congruence; rewrite ?Hbprv, ?Hbnxt;
      try reflexivity;
      repeat match goal with
             | |- context [get_base w ?x] => destruct (get_base w x)
             end; reflexivity. }
  assert (forall c, c <> PNode q -> prev_of w5 c =
            if decide (c = nxt) then Some prv else prev_of w c) as Hprev5.
  { intros c Hc. unfold prev_of. rewrite Hgb5, decide_False by exact Hc.
    unfold w2, w1. rewrite !get_base_update_base.
    repeat case_decide; try subst c; try congruence; rewrite ?Hbprv, ?Hbnxt;
      try reflexivity;
      repeat match goal with
             | |- context [get_base w ?x] => destruct (get_base w x)
             end; reflexivity. }
  assert (forall q', nodes w5 !! q' =
            if decide (q' = q) then None else nodes w2 !! q') as Hnodes5.
  { intros q'. unfold w5, w4. simpl. case_decide.
    - subst. apply lookup_delete_eq.
    - apply lookup_delete_ne. congruence. }
  assert (forall q', q' ∈ ps1 ++ ps2 -> q' <> q) as Hother
    by (intros q' Hq' ->; contradiction).
  exists w5. split; [reflexivity|].
  split; [|split; [|split; [|split; [|split; [|split; [|split]]]]]].
  - split.
    + apply (ring_unsplice w w5 this ps1 q ps2); try assumption.
      * intros c Hc. rewrite <- Hprv_def, <- Hnxt_def. apply Hnext5. exact Hc.
      * intros c Hc. rewrite <- Hprv_def, <- Hnxt_def. apply Hprev5. exact Hc.
    + exact Hnd'.
    + apply Forall2_app_inv in Hvals as [Hv1 Hv2]; [|exact Hlen12].
      inversion Hv2 as [|? ? ? ? _ Hv2']; subst.
      apply Forall2_app.
      * eapply Forall2_impl_elem; [exact Hv1|]. intros q' v' Hq' Hv'. simpl.
        rewrite Hnodes5, decide_False, Hval2; [exact Hv'|].
        apply Hother. apply elem_of_app. left. exact Hq'.
      * eapply Forall2_impl_elem; [exact Hv2'|]. intros q' v' Hq' Hv'. simpl.
        rewrite Hnodes5, decide_False, Hval2; [exact Hv'|].
        apply Hother. apply elem_of_app. right. exact Hq'.
    + unfold w5. simpl. rewrite lookup_insert_eq. simpl.
      specialize (Hsz2 this). rewrite Ho2, Ho in Hsz2.
      simpl in Hsz2, Hsize. injection Hsz2 as Hsz2. injection Hsize as Hsize.
      rewrite Hsz2, Hsize.
      rewrite !length_app in *. simpl in *.
      rewrite wrap_small by lia. f_equal. lia.
    + rewrite !length_app in *. simpl in *. lia.
    + intros q' Hq'. unfold w5, w4. simpl. unfold w2, w1.
      rewrite !live_update_base.
      apply elem_of_difference. split.
      * apply Hlive. apply elem_of_app in Hq' as [Hq'|Hq'];
          apply elem_of_app; [left|right; right]; exact Hq'.
      * intros Hin. apply elem_of_singleton in Hin. eapply Hother; eauto.
  - split.
    + intros l Hl. unfold w5. simpl.
      assert (l <> this) as Hne by (intros ->; apply Hl; left).
      rewrite lookup_insert_ne by congruence.
      unfold w2, w1.
      rewrite lists_update_base_ne
        by (eapply ring_node_not_other_head; eassumption).
      rewrite lists_update_base_ne
        by (eapply ring_node_not_other_head; eassumption).
      reflexivity.
    + intros q' Hq'. rewrite Hnodes5.
      rewrite decide_False
        by (intros ->; apply Hq'; apply elem_of_app; right; left).
      assert (q' ∉ ps1 ++ ps2) as Hq''.
      { intros Hin. apply Hq'. apply elem_of_app in Hin as [Hin|Hin];
          apply elem_of_app; [left|right; right]; exact Hin. }
      unfold w2, w1.
      rewrite nodes_update_base_ne
        by (eapply ring_node_not_outside; eassumption).
      rewrite nodes_update_base_ne
        by (eapply ring_node_not_outside; eassumption).
      reflexivity.
    + intros q' Hq'. unfold w5, w4. simpl. unfold w2, w1.
      rewrite !live_update_base.
      assert (q' <> q)
        by (intros ->; apply Hq'; apply elem_of_app; right; left).
      set_solver.
    + intros id'. unfold w5, w4. simpl. unfold deallocate, w2, w1.
      rewrite !arenas_update_base. reflexivity.
  - rewrite Hnodes5, decide_True by reflexivity. reflexivity.
  - unfold w5, w4. simpl. unfold w2, w1. rewrite !live_update_base.
    reflexivity.
  - unfold w5, w4. simpl. unfold deallocate, w2, w1.
    rewrite !arenas_update_base. reflexivity.
  - unfold w5, w4. simpl. unfold w2, w1.
    rewrite !ctor_calls_update_base. reflexivity.
  - intros q'. rewrite Hnodes5. case_decide; [intros [? ?]; discriminate|].
    unfold w2, w1. rewrite !nodes_update_base_is_Some. tauto.
  - unfold w5. simpl. rewrite lookup_insert_eq. simpl.
    specialize (Hna2 this). rewrite Ho2, Ho in Hna2. exact Hna2.
Qed.

End EraseAt.

Section Ends.
Context {T : Type} {node_layout : Layout (Node T)}.
Variable N : Z.
Variable ctor_throws : nat -> bool.
Variable default_value : T.
Implicit Types (w : World T) (c : ptr) (p q : arena_ptr) (l : Z)
  (ps : list arena_ptr) (vs : list T).

(** [erase] at the sentinel links nothing out and then treats [head_] as
    a payload node. *)
Lemma erase_sentinel w this ps vs :
  is_list w this ps vs -> erase this (PHead this) w = UB.
Proof.
  intros Hl.
  pose proof (is_list_begin _ _ _ _ Hl) as Hb.
  pose proof (is_list_last _ _ _ _ Hl) as Hp.
  destruct (is_list_junction w this [] ps vs Hl) as [_ Hf].
  assert (is_list w this (ps ++ []) vs) as Hl' by (rewrite app_nil_r; exact Hl).
  destruct (is_list_junction w this ps [] vs Hl') as [Hlast _]. clear Hl'.
  destruct (prev_of_is_Some _ _ _ Hf) as [bf Hbf].
  destruct (next_of_is_Some _ _ _ Hlast) as [bl Hbl].
  destruct (prev_of_is_Some _ _ _ Hp) as [bh Hbh].
  destruct (lists w !! this) as [o|] eqn:Ho.
  2:{ simpl in Hbh. rewrite Ho in Hbh. discriminate. }
  unfold erase.
  rewrite (bind_Ok _ _ _ _ _ (read_prev_run _ _ _ Hp)).
  rewrite (bind_Ok _ _ _ _ _ (read_next_run _ _ _ Hb)).
  rewrite (bind_Ok _ _ _ _ _
            (write_prev_run (first_of this ps) (last_of this ps) w
               ltac:(rewrite Hbf; eauto))).
  set (w1 := update_base _ _ w).
  rewrite (bind_Ok _ _ _ _ _
            (read_next_run (PHead this) w1 (first_of this ps)
               ltac:(unfold w1; rewrite next_of_set_prev; exact Hb))).
  rewrite (bind_Ok _ _ _ _ _
            (read_prev_run (PHead this) w1 (last_of this ps)
               ltac:(unfold w1; rewrite prev_of_set_prev;
                     case_decide; [rewrite Hbh; reflexivity|exact Hp]))).
  rewrite (bind_Ok _ _ _ _ _
            (write_next_run (last_of this ps) (first_of this ps) w1
               ltac:(unfold w1; rewrite get_base_update_base;
                     case_decide; rewrite Hbl; eauto))).
  set (w2 := update_base _ _ w1).
  destruct (lists w2 !! this) as [o2|] eqn:Ho2.
  2:{ pose proof (size_update_base (set_next (first_of this ps))
                    (last_of this ps) w1 this) as E.
      fold w2 in E. unfold w1 in E. rewrite size_update_base in E.
      rewrite Ho2, Ho in E. discriminate. }
  rewrite (bind_Ok _ _ _ _ _ (get_list_run _ _ _ Ho2)).
  reflexivity.
Qed.

(** What a sized constructor that returns has built. *)
Lemma sized_constructor_built w this size a id arg w' :
  wf_world N w -> node_fits (T:=T) N -> lists w !! this = None ->
  stack_storage_ a = Some id -> is_Some (arenas w !! id) ->
  0 <= size < size_max ->
  (bind (List_alloc this a)
     (fun _ => guarded this
        (fill (InsertHelper N ctor_throws default_value this
                 (PHead this) arg) (Z.to_nat size) 0))) w = Ok tt w' ->
  exists w0 qs,
    built N w0 w' this id qs
      (replicate (Z.to_nat size) (default default_value arg)) /\
    length qs = Z.to_nat size /\
    nodes w0 = nodes w /\ live w0 = live w /\
    (forall l, l <> this -> lists w0 !! l = lists w !! l).
Proof.
  intros Hwf Hfit Hfree Ha Hid Hsize.
  destruct (List_alloc_spec N w this a id Hwf Hfree Ha Hid)
    as (w0 & Hrun & Hb0 & Hn0 & Hl0 & Har0 & Hct0 & _ & Hls0).
  rewrite (bind_Ok _ _ _ _ _ Hrun). unfold guarded.
  pose proof (fill_built N ctor_throws default_value w0 this id arg
                (Z.to_nat size) Hfit w0 [] [] Hb0
                ltac:(simpl; lia)) as Hfill.
  simpl in Hfill. change (Z.of_nat 0) with 0 in Hfill.
  destruct (fill _ _ 0 w0) as [count [[] w1|e w1| |]]; try contradiction.
  - destruct Hfill as (qs' & us' & Hb' & Hlen & ->).
    intros [= <-]. exists w0, qs'.
    split; [exact Hb'|]. split; [exact Hlen|]. split; [exact Hn0|].
    split; [exact Hl0|exact Hls0].
  - destruct Hfill as (qs' & us' & Hb' & -> & Hlen).
    destruct (built_unwind N w0 w1 this id qs' us' e Hb') as (w2 & Hrun' & _).
    unfold bind in Hrun'. unfold bind. rewrite Hrun'. discriminate.
Qed.

End Ends.

Section OneEmpty.
Context {T : Type} {node_layout : Layout (Node T)}.
Implicit Types (w : World T) (c : ptr) (p q : arena_ptr) (l : Z)
  (ps qs : list arena_ptr) (vs us : list T).

Lemma is_list_head w s ps vs o :
  is_list w s ps vs -> lists w !! s = Some o ->
  head_ o = {| next := first_of s ps; prev := last_of s ps |}.
Proof.
  intros Hl Ho.
  pose proof (is_list_begin _ _ _ _ Hl) as Hn.
  pose proof (is_list_last _ _ _ _ Hl) as Hp.
  unfold next_of, prev_of in Hn, Hp. simpl in Hn, Hp.
  rewrite Ho in Hn, Hp. simpl in *. destruct (head_ o). simpl in *.
  congruence.
Qed.

(** [Swap] of an empty list [a] with a list [b] that has a first node
    [q0]: the sentinel of [a] ends up pointing at itself forwards and at
    the sentinel of [b] backwards, with the size of [b]. *)
Lemma Swap_empty_left w a b q0 qs us :
  a <> b -> is_list w a [] [] -> is_list w b (q0 :: qs) us ->
  exists w',
    Swap a b w = Ok tt w' /\
    (forall c, get_base w' c =
       if decide (c = PHead a)
       then Some {| next := PHead a; prev := PHead b |}
       else if decide (c = PHead b)
       then Some {| next := PNode q0; prev := PHead a |}
       else if decide (c = PNode q0)
       then set_prev (last_of b (q0 :: qs)) <$> get_base w c
       else get_base w c) /\
    size_ <$> lists w' !! a = size_ <$> lists w !! b /\
    size_ <$> lists w' !! b = size_ <$> lists w !! a /\
    (forall l, l <> a -> l <> b -> lists w' !! l = lists w !! l) /\
    (forall q, value <$> nodes w' !! q = value <$> nodes w !! q) /\
    (forall q, q <> q0 -> nodes w' !! q = nodes w !! q) /\
    live w' = live w /\ arenas w' = arenas w.
Proof.
  intros Hab Ha Hb.
  pose proof (is_list_begin _ _ _ _ Hb) as Hbn1.
  destruct (is_list_junction w b [] (q0 :: qs) us Hb) as [_ Hbp3].
  change (first_of b (q0 :: qs)) with (PNode q0) in *.
  change (last_of b []) with (PHead b) in Hbp3.
  pose proof (il_size _ _ _ _ Ha) as Hsa.
  pose proof (il_size _ _ _ _ Hb) as Hsb.
  destruct (lists w !! a) as [oa|] eqn:Hoa; [|discriminate Hsa].
  destruct (lists w !! b) as [ob|] eqn:Hob; [|discriminate Hsb].
  pose proof (is_list_head _ _ _ _ _ Ha Hoa) as Hha.
  pose proof (is_list_head _ _ _ _ _ Hb Hob) as Hhb.
  change (first_of a []) with (PHead a) in Hha.
  change (last_of a []) with (PHead a) in Hha.
  change (first_of b (q0 :: qs)) with (PNode q0) in Hhb.
  remember (last_of b (q0 :: qs)) as lastq eqn:Hlastq.
  destruct (prev_of_is_Some _ _ _ Hbp3) as [b0 Hb0].
  unfold Swap.
  rewrite (bind_Ok _ _ _ _ _ (get_list_run _ _ _ Hoa)).
  rewrite (bind_Ok _ _ _ _ _ (get_list_run _ _ _ Hob)).
  rewrite (bind_Ok _ _ _ _ _ (put_list_run a ob w)).
  rewrite (bind_Ok _ _ _ _ _ (put_list_run b oa _)).
  set (w1 := set_lists (<[b := oa]> _) _).
  assert (forall c, get_base w1 c =
            if decide (c = PHead b) then Some (head_ oa)
            else if decide (c = PHead a) then Some (head_ ob)
            else get_base w c) as Hgb1.
  { intros c. unfold w1. rewrite !get_base_insert_list. reflexivity. }
  assert (forall l, lists w1 !! l =
            if decide (l = b) then Some oa
            else if decide (l = a) then Some ob else lists w !! l) as Hls1.
  { intros l. unfold w1. simpl.
    destruct (decide (l = b)) as [->|Hneqb]; [apply lookup_insert_eq|].
    rewrite lookup_insert_ne by congruence.
    destruct (decide (l = a)) as [->|Hla']; [apply lookup_insert_eq|].
    rewrite lookup_insert_ne by congruence. reflexivity. }
  rewrite (bind_Ok _ _ _ _ _
            (read_next_run (PHead a) w1 (PNode q0)
               ltac:(unfold next_of; rewrite Hgb1, decide_False by congruence;
                     rewrite decide_True, Hhb by reflexivity; reflexivity))).
  rewrite (bind_Ok _ _ _ _ _
            (read_next_run (PHead b) w1 (PHead a)
               ltac:(unfold next_of; rewrite Hgb1, decide_True, Hha
                       by reflexivity; reflexivity))).
  rewrite (bind_Ok _ _ _ _ _
            (swap_prev_run (PNode q0) (PHead a) w1 (PHead b) lastq
               ltac:(unfold prev_of; rewrite Hgb1, !decide_False by discriminate;
                     exact Hbp3)
               ltac:(unfold prev_of; rewrite Hgb1, decide_False by congruence;
                     rewrite decide_True, Hhb by reflexivity; reflexivity))).
  set (w2 := update_base _ (PNode q0) w1).
  set (w3 := update_base _ (PHead a) w2).
  assert (forall c, get_base w3 c =
            if decide (c = PHead a)
            then Some {| next := PNode q0; prev := PHead b |}
            else if decide (c = PHead b)
            then Some {| next := PHead a; prev := PHead a |}
            else if decide (c = PNode q0)
            then set_prev lastq <$> get_base w c
            else get_base w c) as Hgb3.
  { intros c. unfold w3, w2. rewrite !get_base_update_base, Hgb1, Hha, Hhb.
    repeat case_decide; try subst c; try congruence; reflexivity. }
  rewrite (bind_Ok _ _ _ _ _
            (read_prev_run (PHead a) w3 (PHead b)
               ltac:(unfold prev_of; rewrite Hgb3, decide_True by reflexivity;
                     reflexivity))).
  rewrite (bind_Ok _ _ _ _ _
            (read_prev_run (PHead b) w3 (PHead a)
               ltac:(unfold prev_of; rewrite Hgb3, decide_False by congruence;
                     rewrite decide_True by reflexivity; reflexivity))).
  rewrite (swap_next_run (PHead b) (PHead a) w3 (PHead a) (PNode q0)
             ltac:(unfold next_of; rewrite Hgb3, decide_False by congruence;
                   rewrite decide_True by reflexivity; reflexivity)
             ltac:(unfold next_of; rewrite Hgb3, decide_True by reflexivity;
                   reflexivity)).
  set (w4 := update_base _ (PHead b) w3).
  set (w5 := update_base _ (PHead a) w4).
  exists w5. split; [reflexivity|].
  split; [|split; [|split; [|split; [|split; [|split; [|split]]]]]].
  - intros c. unfold w5, w4. rewrite !get_base_update_base, Hgb3.
    repeat case_decide; try subst c; try congruence; reflexivity.
  - unfold w5, w4, w3, w2. rewrite !size_update_base, Hls1.
    rewrite decide_False, decide_True by congruence. reflexivity.
  - unfold w5, w4, w3, w2. rewrite !size_update_base, Hls1.
    rewrite decide_True by reflexivity. reflexivity.
  - intros l Hla Hlb. unfold w5, w4, w3, w2.
    rewrite !lists_update_base_ne by congruence.
    rewrite Hls1, !decide_False by congruence. reflexivity.
  - intros q. unfold w5, w4, w3, w2. rewrite !value_update_base.
    reflexivity.
  - intros q Hq. unfold w5, w4, w3, w2.
    rewrite !nodes_update_base_ne by congruence. reflexivity.
  - unfold w5, w4, w3, w2. rewrite !live_update_base. reflexivity.
  - unfold w5, w4, w3, w2. rewrite !arenas_update_base. reflexivity.
Qed.

(** The same with the operands exchanged: the result does not depend on
    which of the two lists [Swap] is called on. *)
Lemma Swap_empty_right w a b q0 qs us :
  a <> b -> is_list w a [] [] -> is_list w b (q0 :: qs) us ->
  exists w',
    Swap b a w = Ok tt w' /\
    (forall c, get_base w' c =
       if decide (c = PHead a)
       then Some {| next := PHead a; prev := PHead b |}
       else if decide (c = PHead b)
       then Some {| next := PNode q0; prev := PHead a |}
       else if decide (c = PNode q0)
       then set_prev (last_of b (q0 :: qs)) <$> get_base w c
       else get_base w c) /\
    size_ <$> lists w' !! a = size_ <$> lists w !! b /\
    size_ <$> lists w' !! b = size_ <$> lists w !! a /\
    (forall l, l <> a -> l <> b -> lists w' !! l = lists w !! l) /\
    (forall q, value <$> nodes w' !! q = value <$> nodes w !! q) /\
    (forall q, q <> q0 -> nodes w' !! q = nodes w !! q) /\
    live w' = live w /\ arenas w' = arenas w.
Proof.
  intros Hab Ha Hb.
  pose proof (is_list_begin _ _ _ _ Hb) as Hbn1.
  destruct (is_list_junction w b [] (q0 :: qs) us Hb) as [_ Hbp3].
  change (first_of b (q0 :: qs)) with (PNode q0) in *.
  change (last_of b []) with (PHead b) in Hbp3.
  pose proof (il_size _ _ _ _ Ha) as Hsa.
  pose proof (il_size _ _ _ _ Hb) as Hsb.
  destruct (lists w !! a) as [oa|] eqn:Hoa; [|discriminate Hsa].
  destruct (lists w !! b) as [ob|] eqn:Hob; [|discriminate Hsb].
  pose proof (is_list_head _ _ _ _ _ Ha Hoa) as Hha.
  pose proof (is_list_head _ _ _ _ _ Hb Hob) as Hhb.
  change (first_of a []) with (PHead a) in Hha.
  change (last_of a []) with (PHead a) in Hha.
  change (first_of b (q0 :: qs)) with (PNode q0) in Hhb.
  remember (last_of b (q0 :: qs)) as lastq eqn:Hlastq.
  destruct (prev_of_is_Some _ _ _ Hbp3) as [b0 Hb0].
  unfold Swap.
  rewrite (bind_Ok _ _ _ _ _ (get_list_run _ _ _ Hob)).
  rewrite (bind_Ok _ _ _ _ _ (get_list_run _ _ _ Hoa)).
  rewrite (bind_Ok _ _ _ _ _ (put_list_run b oa w)).
  rewrite (bind_Ok _ _ _ _ _ (put_list_run a ob _)).
  set (w1 := set_lists (<[a := ob]> _) _).
  assert (forall c, get_base w1 c =
            if decide (c = PHead a) then Some (head_ ob)
            else if decide (c = PHead b) then Some (head_ oa)
            else get_base w c) as Hgb1.
  { intros c. unfold w1. rewrite !get_base_insert_list. reflexivity. }
  assert (forall l, lists w1 !! l =
            if decide (l = a) then Some ob
            else if decide (l = b) then Some oa else lists w !! l) as Hls1.
  { intros l. unfold w1. simpl.
    destruct (decide (l = a)) as [->|Hneqa]; [apply lookup_insert_eq|].
    rewrite lookup_insert_ne by congruence.
    destruct (decide (l = b)) as [->|Hlb']; [apply lookup_insert_eq|].
    rewrite lookup_insert_ne by congruence. reflexivity. }
  rewrite (bind_Ok _ _ _ _ _
            (read_next_run (PHead b) w1 (PHead a)
               ltac:(unfold next_of; rewrite Hgb1, decide_False by congruence;
                     rewrite decide_True, Hha by reflexivity; reflexivity))).
  rewrite (bind_Ok _ _ _ _ _
            (read_next_run (PHead a) w1 (PNode q0)
               ltac:(unfold next_of; rewrite Hgb1, decide_True, Hhb
                       by reflexivity; reflexivity))).
  rewrite (bind_Ok _ _ _ _ _
            (swap_prev_run (PHead a) (PNode q0) w1 lastq (PHead b)
               ltac:(unfold prev_of; rewrite Hgb1, decide_True, Hhb
                       by reflexivity; reflexivity)
               ltac:(unfold prev_of; rewrite Hgb1, !decide_False by discriminate;
                     exact Hbp3))).
  set (w2 := update_base _ (PHead a) w1).
  set (w3 := update_base _ (PNode q0) w2).
  assert (forall c, get_base w3 c =
            if decide (c = PHead a)
            then Some {| next := PNode q0; prev := PHead b |}
            else if decide (c = PHead b)
            then Some {| next := PHead a; prev := PHead a |}
            else if decide (c = PNode q0)
            then set_prev lastq <$> get_base w c
            else get_base w c) as Hgb3.
  { intros c. unfold w3, w2. rewrite !get_base_update_base, Hgb1, Hha, Hhb.
    repeat case_decide; try subst c; try congruence; reflexivity. }
  rewrite (bind_Ok _ _ _ _ _
            (read_prev_run (PHead b) w3 (PHead a)
               ltac:(unfold prev_of; rewrite Hgb3, decide_False by congruence;
                     rewrite decide_True by reflexivity; reflexivity))).
  rewrite (bind_Ok _ _ _ _ _
            (read_prev_run (PHead a) w3 (PHead b)
               ltac:(unfold prev_of; rewrite Hgb3, decide_True by reflexivity;
                     reflexivity))).
  rewrite (swap_next_run (PHead a) (PHead b) w3 (PNode q0) (PHead a)
             ltac:(unfold next_of; rewrite Hgb3, decide_True by reflexivity;
                   reflexivity)
             ltac:(unfold next_of; rewrite Hgb3, decide_False by congruence;
                   rewrite decide_True by reflexivity; reflexivity)).
  set (w4 := update_base _ (PHead a) w3).
  set (w5 := update_base _ (PHead b) w4).
  exists w5. split; [reflexivity|].
  split; [|split; [|split; [|split; [|split; [|split; [|split]]]]]].
  - intros c. unfold w5, w4. rewrite !get_base_update_base, Hgb3.
    repeat case_decide; try subst c; try congruence; reflexivity.
  - unfold w5, w4, w3, w2. rewrite !size_update_base, Hls1.
    rewrite decide_True by reflexivity. reflexivity.
  - unfold w5, w4, w3, w2. rewrite !size_update_base, Hls1.
    rewrite decide_False, decide_True by congruence. reflexivity.
  - intros l Hla Hlb. unfold w5, w4, w3, w2.
    rewrite !lists_update_base_ne by congruence.
    rewrite Hls1, !decide_False by congruence. reflexivity.
  - intros q. unfold w5, w4, w3, w2. rewrite !value_update_base.
    reflexivity.
  - intros q Hq. unfold w5, w4, w3, w2.
    rewrite !nodes_update_base_ne by congruence. reflexivity.
  - unfold w5, w4, w3, w2. rewrite !live_update_base. reflexivity.
  - unfold w5, w4, w3, w2. rewrite !arenas_update_base. reflexivity.
Qed.

End OneEmpty.

Section OneEmptyAssign.
Context {T : Type} {node_layout : Layout (Node T)}.
Variable N : Z.
Variable ctor_throws : nat -> bool.
Variable default_value : T.
Implicit Types (w : World T) (c : ptr) (p q : arena_ptr) (l : Z)
  (ps qs : list arena_ptr) (vs us : list T).

(** The end of a copy assignment whose target is empty and whose
    temporary is not: after [Swap] and the destructor of the temporary,
    the sentinel of the target points at itself. *)
Lemma swap_out_of_empty_target w1 this tmp q0 qs us other ps_o vs_o :
  this <> tmp -> other <> this -> other <> tmp ->
  is_list w1 this [] [] -> is_list w1 tmp (q0 :: qs) us ->
  is_list w1 other ps_o vs_o -> q0 ∉ ps_o ->
  exists w3,
    bind (Swap this tmp) (fun _ => destructor tmp) w1 = Ok tt w3 /\
    get_base w3 (PHead this)
      = Some {| next := PHead this; prev := PHead tmp |} /\
    size_ <$> lists w3 !! this = Some (Z.of_nat (length (q0 :: qs))) /\
    lists w3 !! tmp = None /\
    is_list w3 other ps_o vs_o /\
    live w3 = live w1 /\
    (forall q, value <$> nodes w3 !! q = value <$> nodes w1 !! q).
Proof.
  intros Hne Hot Hotmp Hthis Htmp Hsrc Hq0.
  destruct (Swap_empty_left w1 this tmp q0 qs us Hne Hthis Htmp)
    as (w2 & Hswap & Hgb & Hs1 & Hs2 & Hls & Hval & Hnd & Hlive & Har).
  rewrite (bind_Ok _ _ _ _ _ Hswap).
  rewrite (il_size _ _ _ _ Htmp) in Hs1.
  rewrite (il_size _ _ _ _ Hthis) in Hs2.
  destruct (lists w2 !! tmp) as [o2|] eqn:Ho2; [|discriminate Hs2].
  simpl in Hs2. injection Hs2 as Hs2.
  unfold destructor.
  rewrite (bind_Ok _ _ _ _ _ (get_list_run _ _ _ Ho2)).
  rewrite Hs2. change (Destroy tmp (Z.of_nat 0)) with (ret (T:=T) tt).
  unfold bind at 1. unfold ret. unfold end_lifetime.
  set (w3 := set_lists _ w2).
  assert (forall c, get_base w3 c =
            if decide (c = PHead tmp) then None else get_base w2 c) as Hgb3
    by (intros c; apply get_base_delete_list).
  exists w3. split; [reflexivity|].
  split; [|split; [|split; [|split; [|split]]]].
  - rewrite Hgb3, decide_False by congruence.
    rewrite Hgb, decide_True by reflexivity. reflexivity.
  - unfold w3. simpl. rewrite lookup_delete_ne by congruence. exact Hs1.
  - unfold w3. simpl. apply lookup_delete_eq.
  - apply (is_list_frame w1); [exact Hsrc| | | |].
    + intros c Hc. rewrite Hgb3, Hgb.
      apply ring_node_cases in Hc as [->|(q & -> & Hq)].
      * rewrite !decide_False by congruence. reflexivity.
      * rewrite !decide_False; try discriminate; [reflexivity|].
        intros [= ->]. contradiction.
    + intros q Hq. unfold w3. simpl. apply Hval.
    + unfold w3. simpl. rewrite lookup_delete_ne by congruence.
      rewrite Hls by congruence. reflexivity.
    + intros q _ Hlv. unfold w3. simpl. rewrite Hlive. exact Hlv.
  - unfold w3. simpl. exact Hlive.
  - intros q. unfold w3. simpl. apply Hval.
Qed.

(** The end of a copy assignment whose target is not empty and whose
    temporary is: the destructor of the temporary, which now has the size
    of the target, pops the sentinel of the target. *)
Lemma swap_into_empty_temporary w1 this tmp q0 qs us :
  this <> tmp ->
  is_list w1 tmp [] [] -> is_list w1 this (q0 :: qs) us ->
  bind (Swap this tmp) (fun _ => destructor tmp) w1 = UB.
Proof.
  intros Hne Htmp Hthis.
  destruct (Swap_empty_right w1 tmp this q0 qs us ltac:(congruence) Htmp Hthis)
    as (w2 & Hswap & Hgb & Hs1 & Hs2 & Hls & Hval & Hnd & Hlive & Har).
  rewrite (bind_Ok _ _ _ _ _ Hswap).
  rewrite (il_size _ _ _ _ Hthis) in Hs1.
  destruct (lists w2 !! tmp) as [o2|] eqn:Ho2; [|discriminate Hs1].
  simpl in Hs1. injection Hs1 as Hs1.
  unfold destructor.
  rewrite (bind_Ok _ _ _ _ _ (get_list_run _ _ _ Ho2)).
  rewrite Hs1. unfold Destroy. rewrite Nat2Z.id.
  assert (pop_back tmp w2 = UB) as Hpop.
  { destruct (is_list_junction w1 this [] (q0 :: qs) us Hthis) as [_ Hp0].
    destruct (prev_of_is_Some _ _ _ Hp0) as [b0 Hb0].
    change (first_of this (q0 :: qs)) with (PNode q0) in Hb0.
    assert (get_base w2 (PHead tmp)
            = Some {| next := PHead tmp; prev := PHead this |}) as Hg_tmp
      by (rewrite Hgb, decide_True by reflexivity; reflexivity).
    assert (get_base w2 (PHead this)
            = Some {| next := PNode q0; prev := PHead tmp |}) as Hg_this.
    { rewrite Hgb, decide_False by congruence.
      rewrite decide_True by reflexivity. reflexivity. }
    assert (is_Some (get_base w2 (PNode q0))) as Hg_q0.
    { rewrite Hgb, !decide_False by discriminate.
      rewrite decide_True by reflexivity. rewrite Hb0. eauto. }
    unfold pop_back, decr, end_.
    rewrite (bind_Ok _ _ _ _ _
               (read_prev_run (PHead tmp) w2 (PHead this)
                  ltac:(unfold prev_of; rewrite Hg_tmp; reflexivity))).
    unfold erase.
    rewrite (bind_Ok _ _ _ _ _
               (read_prev_run (PHead this) w2 (PHead tmp)
                  ltac:(unfold prev_of; rewrite Hg_this; reflexivity))).
    rewrite (bind_Ok _ _ _ _ _
               (read_next_run (PHead this) w2 (PNode q0)
                  ltac:(unfold next_of; rewrite Hg_this; reflexivity))).
    rewrite (bind_Ok _ _ _ _ _
               (write_prev_run (PNode q0) (PHead tmp) w2 Hg_q0)).
    set (w3 := update_base _ _ w2).
    rewrite (bind_Ok _ _ _ _ _
               (read_next_run (PHead this) w3 (PNode q0)
                  ltac:(unfold w3; rewrite next_of_set_prev; unfold next_of;
                        rewrite Hg_this; reflexivity))).
    rewrite (bind_Ok _ _ _ _ _
               (read_prev_run (PHead this) w3 (PHead tmp)
                  ltac:(unfold w3; rewrite prev_of_set_prev;
                        rewrite decide_False by discriminate;
                        unfold prev_of; rewrite Hg_this; reflexivity))).
    rewrite (bind_Ok _ _ _ _ _
               (write_next_run (PHead tmp) (PNode q0) w3
                  ltac:(unfold w3; rewrite get_base_update_base;
                        rewrite decide_False by discriminate;
                        rewrite Hg_tmp; eauto))).
    set (w4 := update_base _ _ w3).
    destruct (lists w4 !! tmp) as [o4|] eqn:Ho4.
    2:{ pose proof (size_update_base (set_next (PNode q0)) (PHead tmp) w3 tmp)
          as E. fold w4 in E. unfold w3 in E. rewrite size_update_base in E.
        rewrite Ho4, Ho2 in E. discriminate. }
    rewrite (bind_Ok _ _ _ _ _ (get_list_run _ _ _ Ho4)).
    reflexivity. }
  change (length (q0 :: qs)) with (S (length qs)).
  change (repeat_pop_back tmp (S (length qs)))
    with (bind (pop_back (T:=T) tmp)
            (fun _ => repeat_pop_back tmp (length qs))).
  unfold bind. rewrite Hpop. reflexivity.
Qed.

(** A list object just made by [List(alloc)] is an empty list. *)
Lemma List_alloc_is_list w tmp a :
  exists w0,
    List_alloc tmp a w = Ok tt w0 /\
    is_list w0 tmp [] [] /\
    nodes w0 = nodes w /\ live w0 = live w /\
    (forall l, l <> tmp -> lists w0 !! l = lists w !! l).
Proof.
  eexists. split; [reflexivity|].
  split; [|split; [reflexivity|split; [reflexivity|]]].
  - split.
    + unfold ring, next_of, prev_of. simpl.
      rewrite lookup_insert_eq. simpl. tauto.
    + constructor.
    + constructor.
    + simpl. rewrite lookup_insert_eq. reflexivity.
    + simpl. unfold size_max. lia.
    + intros p Hp. inversion Hp.
  - intros l Hl. simpl. apply lookup_insert_ne. congruence.
Qed.

End OneEmptyAssign.

Section Capacity.
Context {T : Type} {node_layout : Layout (Node T)}.
Variable N : Z.
Variable ctor_throws : nat -> bool.
Variable default_value : T.
Implicit Types (w : World T) (c : ptr) (p q : arena_ptr) (l : Z)
  (ps qs : list arena_ptr) (vs us : list T).

(** One node request, by where the padded cursor would stand. *)
Lemma node_allocate_exact w a id (s : StackStorage) :
  wf_world N w -> node_fits (T:=T) N ->
  stack_storage_ a = Some id -> arenas w !! id = Some s ->
  let at_end := padded_end s {| req_count := sizeof (Node T);
                                req_alignment := alignof (Node T) |} in
  node_allocate N a 1 w =
    if at_end >=? N then Throw bad_alloc w
    else Ok (id, at_end - sizeof (Node T))
           (set_live ({[(id, at_end - sizeof (Node T))]} ∪ live w)
              (set_arenas (<[id := {| start_index_ := at_end |}]> (arenas w))
                 w)).
Proof.
  intros Hwf Hfit Ha Hid.
  pose proof (wf_cursor N w Hwf id s Hid) as Hcur.
  unfold node_allocate, Alloc.allocate. rewrite Ha, Hid.
  rewrite (node_request_size N Hfit) by lia.
  destruct Hfit as (Hpos & Hrange).
  rewrite (allocate_in_range N s _ _ Hcur Hrange).
  unfold padded_end. simpl. cbv zeta.
  destruct (_ >=? N); [|reflexivity].
  rewrite insert_id by exact Hid. destruct w; reflexivity.
Qed.

(** With room in the arena and a constructor that does not throw,
    [InsertHelper] does not throw. *)
Lemma InsertHelper_no_throw w this it arg o id (s : StackStorage) e w' :
  wf_world N w -> node_fits (T:=T) N ->
  lists w !! this = Some o ->
  stack_storage_ (node_allocator_ o) = Some id -> arenas w !! id = Some s ->
  padded_end s {| req_count := sizeof (Node T);
                  req_alignment := alignof (Node T) |} < N ->
  ctor_throws (ctor_calls w) = false ->
  InsertHelper N ctor_throws default_value this it arg w <> Throw e w'.
Proof.
  intros Hwf Hfit Ho Ha Hid Hroom Hct.
  unfold InsertHelper.
  rewrite (bind_Ok _ _ _ _ _ (get_list_run _ _ _ Ho)).
  pose proof (node_allocate_exact w (node_allocator_ o) id s Hwf Hfit Ha Hid)
    as Hal. cbv zeta in Hal.
  destruct (Z.geb_spec
              (padded_end s {| req_count := sizeof (Node T);
                               req_alignment := alignof (Node T) |}) N);
    [lia|].
  rewrite (bind_Ok _ _ _ _ _ Hal).
  unfold bind at 1. unfold try_catch, construct. simpl ctor_calls.
  rewrite Hct.
  apply (never_throws_splice this it).
Qed.

End Capacity.

Section Keeping.
Context {T : Type} {node_layout : Layout (Node T)}.
Variable N : Z.
Variable ctor_throws : nat -> bool.
Variable default_value : T.
Implicit Types (w : World T) (c : ptr) (p q : arena_ptr) (l : Z)
  (ps qs : list arena_ptr) (vs us : list T).

Lemma keeps_allocators_bind {A B} (m : M T A) (k : A -> M T B) :
  keeps_allocators m -> (forall a, keeps_allocators (k a)) ->
  keeps_allocators (bind m k).
Proof.
  intros Hm Hk w b w' H. unfold bind in H.
  destruct (m w) as [a w1| | |] eqn:E; try discriminate.
  destruct (Hm w a w1 E) as [A1 A2].
  destruct (Hk a w1 b w' H) as [B1 B2].
  split; [congruence|]. intros l. rewrite B2. apply A2.
Qed.

Lemma keeps_allocators_ret {A} (a : A) : keeps_allocators (T:=T) (ret a).
Proof. intros w x w' [= <- <-]. split; reflexivity. Qed.

Lemma keeps_allocators_read_next c : keeps_allocators (T:=T) (read_next c).
Proof.
  intros w x w' H. unfold read_next in H.
  destruct (get_base w c); [|discriminate]. injection H as <- <-.
  split; reflexivity.
Qed.

Lemma keeps_allocators_read_prev c : keeps_allocators (T:=T) (read_prev c).
Proof.
  intros w x w' H. unfold read_prev in H.
  destruct (get_base w c); [|discriminate]. injection H as <- <-.
  split; reflexivity.
Qed.

Lemma keeps_allocators_write_next c v :
  keeps_allocators (T:=T) (write_next c v).
Proof.
  intros w x w' H. unfold write_next in H.
  destruct (get_base w c); [|discriminate]. injection H as <- <-.
  split; [apply arenas_update_base|].
  intros l. apply node_allocator_update_base.
Qed.

Lemma keeps_allocators_write_prev c v :
  keeps_allocators (T:=T) (write_prev c v).
Proof.
  intros w x w' H. unfold write_prev in H.
  destruct (get_base w c); [|discriminate]. injection H as <- <-.
  split; [apply arenas_update_base|].
  intros l. apply node_allocator_update_base.
Qed.

Lemma keeps_allocators_add_size l d : keeps_allocators (T:=T) (add_size l d).
Proof.
  intros w x w' H. unfold add_size, bind, get_list in H.
  destruct (lists w !! l) as [o|] eqn:Ho; [|discriminate].
  injection H as <- <-. split; [reflexivity|].
  intros l'. simpl. destruct (decide (l' = l)) as [->|Hne].
  - rewrite lookup_insert_eq, Ho. reflexivity.
  - rewrite lookup_insert_ne by congruence. reflexivity.
Qed.

Lemma keeps_allocators_swap_prev x y : keeps_allocators (T:=T) (swap_prev x y).
Proof.
  unfold swap_prev.
  repeat first
    [ apply keeps_allocators_write_prev
    | apply keeps_allocators_read_prev
    | apply keeps_allocators_bind; [|intros ?] ].
Qed.

Lemma keeps_allocators_swap_next x y : keeps_allocators (T:=T) (swap_next x y).
Proof.
  unfold swap_next.
  repeat first
    [ apply keeps_allocators_write_next
    | apply keeps_allocators_read_next
    | apply keeps_allocators_bind; [|intros ?] ].
Qed.

Lemma keeps_allocators_get_list l : keeps_allocators (T:=T) (get_list l).
Proof.
  intros w x w' H. unfold get_list in H.
  destruct (lists w !! l); [|discriminate]. injection H as <- <-.
  split; reflexivity.
Qed.

Lemma keeps_allocators_as_node c : keeps_allocators (T:=T) (as_node c).
Proof.
  intros w x w' H. unfold as_node in H.
  destruct c as [| |q]; try discriminate.
  destruct (nodes w !! q); [|discriminate]. injection H as <- <-.
  split; reflexivity.
Qed.

Lemma keeps_allocators_destroy q : keeps_allocators (T:=T) (destroy q).
Proof. intros w x w' [= <- <-]. split; reflexivity. Qed.

Lemma keeps_allocators_node_deallocate a q n :
  keeps_allocators (T:=T) (node_deallocate a q n).
Proof. intros w x w' [= <- <-]. split; reflexivity. Qed.

(** [erase], and so the destructor's loop, moves no cursor. *)
Lemma keeps_allocators_erase l it : keeps_allocators (T:=T) (erase l it).
Proof.
  unfold erase.
  repeat first
    [ apply keeps_allocators_add_size
    | apply keeps_allocators_read_prev
    | apply keeps_allocators_read_next
    | apply keeps_allocators_write_prev
    | apply keeps_allocators_write_next
    | apply keeps_allocators_get_list
    | apply keeps_allocators_as_node
    | apply keeps_allocators_destroy
    | apply keeps_allocators_node_deallocate
    | apply keeps_allocators_bind; [|intros ?] ].
Qed.

Lemma keeps_allocators_repeat_pop_back l n :
  keeps_allocators (T:=T) (repeat_pop_back l n).
Proof.
  induction n as [|n IH]; [apply keeps_allocators_ret|].
  simpl. apply keeps_allocators_bind; [|intros ?; exact IH].
  unfold pop_back, decr.
  apply keeps_allocators_bind; [apply keeps_allocators_read_prev|].
  intros ?. apply keeps_allocators_erase.
Qed.

(** The splice of [InsertHelper] moves no cursor. *)
Lemma keeps_allocators_splice this it new_node :
  keeps_allocators
    (bind (read_prev it)
       (fun prev =>
          bind (write_prev (PNode new_node) prev)
            (fun _ => bind (write_next (PNode new_node) it)
               (fun _ => bind (write_prev it (PNode new_node))
                  (fun _ => bind (write_next prev (PNode new_node))
                     (fun _ => add_size (T:=T) this 1)))))).
Proof.
  repeat first
    [ apply keeps_allocators_add_size
    | apply keeps_allocators_read_prev
    | apply keeps_allocators_write_prev
    | apply keeps_allocators_write_next
    | apply keeps_allocators_bind; [|intros ?] ].
Qed.

(** [Swap] exchanges the node allocators with the list objects. *)
Lemma Swap_node_allocator w a b w' :
  a <> b -> Swap a b w = Ok tt w' ->
  arenas w' = arenas w /\
  node_allocator_ <$> lists w' !! a = node_allocator_ <$> lists w !! b /\
  node_allocator_ <$> lists w' !! b = node_allocator_ <$> lists w !! a.
Proof.
  intros Hab H. unfold Swap in H.
  unfold bind at 1 in H. unfold get_list at 1 in H.
  destruct (lists w !! a) as [oa|] eqn:Hoa; [|discriminate].
  unfold bind at 1 in H. unfold get_list at 1 in H.
  destruct (lists w !! b) as [ob|] eqn:Hob; [|discriminate].
  unfold bind at 1 in H. unfold put_list at 1 in H.
  unfold bind at 1 in H. unfold put_list at 1 in H.
  match type of H with
  | bind ?m ?k ?w1 = _ =>
      assert (keeps_allocators (bind m k)) as Hk; [|set (w1' := w1) in *]
  end.
  { repeat first
      [ apply keeps_allocators_swap_prev
      | apply keeps_allocators_swap_next
      | apply keeps_allocators_read_prev
      | apply keeps_allocators_read_next
      | apply keeps_allocators_bind; [|intros ?] ]. }
  destruct (Hk w1' tt w' H) as [A1 A2].
  split; [rewrite A1; reflexivity|].
  rewrite !A2. unfold w1'. simpl. split.
  - rewrite lookup_insert_ne by congruence.
    rewrite lookup_insert_eq. reflexivity.
  - rewrite lookup_insert_eq. reflexivity.
Qed.

(** Where a successful [InsertHelper] leaves the arenas: the cursor of
    the list's arena stands at the padded end of the node request. *)
Lemma InsertHelper_arenas w this it arg o id (s : StackStorage) w' :
  wf_world N w -> node_fits (T:=T) N ->
  lists w !! this = Some o ->
  stack_storage_ (node_allocator_ o) = Some id -> arenas w !! id = Some s ->
  InsertHelper N ctor_throws default_value this it arg w = Ok tt w' ->
  let at_end := padded_end s {| req_count := sizeof (Node T);
                                req_alignment := alignof (Node T) |} in
  arenas w' = <[id := {| start_index_ := at_end |}]> (arenas w) /\
  start_index_ s + sizeof (Node T) <= at_end < N.
Proof.
  intros Hwf Hfit Ho Ha Hid H at_end.
  unfold InsertHelper in H.
  rewrite (bind_Ok _ _ _ _ _ (get_list_run _ _ _ Ho)) in H.
  pose proof (node_allocate_exact N w (node_allocator_ o) id s Hwf Hfit Ha Hid)
    as Hal. cbv zeta in Hal. fold at_end in Hal.
  destruct (Z.geb_spec at_end N) as [Hge|Hlt].
  { unfold bind in H. rewrite Hal in H. discriminate. }
  rewrite (bind_Ok _ _ _ _ _ Hal) in H.
  unfold bind at 1 in H. unfold try_catch, construct in H.
  match type of H with
  | context [ctor_throws ?n] => destruct (ctor_throws n)
  end; [discriminate|].
  destruct (keeps_allocators_splice this it _ _ _ _ H) as [A1 _].
  split; [rewrite A1; reflexivity|].
  split; [|exact Hlt].
  destruct Hfit as (Hpos & Hc & Hal0 & _). simpl in *.
  unfold at_end, padded_end. simpl.
  pose proof (padding_bounds (start_index_ s + sizeof (Node T))
                (alignof (Node T)) Hal0). lia.
Qed.

End Keeping.

End SpliceFacts.

(** ** The arena *)

Module ArenaProperties.
Import Arena ArenaFacts Scenario.

(** X1: The byte at offset [N - 1] is never handed out: a request that
    reaches the capacity fails, also when it ends exactly at [N], and a
    region that is returned ends strictly below [N]. *)
Theorem allocate_keeps_last_byte N s q :
  0 <= start_index_ s <= N -> in_range N q ->
  (N <= start_index_ s + req_count q ->
     allocate N s (req_count q) (req_alignment q) = BadAlloc s) /\
  (forall off s',
     allocate N s (req_count q) (req_alignment q) = Region off s' ->
     start_index_ s <= off /\ off + req_count q < N).
Proof.
  intros Hs Hq. destruct q as [count alignment]. simpl. split.
  - intros Hfull. rewrite (allocate_in_range N s count alignment Hs Hq).
    destruct Hq as (Hc & Ha & Hb). simpl in *.
    pose proof (padding_bounds (start_index_ s + count) alignment Ha).
    cbv zeta. destruct (Z.geb_spec
      (start_index_ s + count
       + (alignment - (start_index_ s + count) mod alignment) mod alignment) N);
      [reflexivity|lia].
  - intros off s' H.
    destruct (allocate_region N s count alignment off s' Hs Hq H)
      as (H1 & H2 & H3 & _). lia.
Qed.

Lemma allocate_keeps_last_byte_witness :
  allocate 64 fresh 64 1 = BadAlloc fresh /\
  (forall off s', allocate 64 fresh 64 1 = Region off s' ->
     start_index_ fresh <= off /\ off + 64 < 64).
Proof.
  destruct (allocate_keeps_last_byte 64 fresh
              {| req_count := 64; req_alignment := 1 |}) as [H1 H2].
  - simpl. lia.
  - unfold in_range, size_max. simpl. lia.
  - split; [apply H1; simpl; lia|exact H2].
Defined.

(** X2: No padding between aligned blocks: on an arena of capacity [N]
    whose cursor is within [0, N] and aligned, [n] requests of the same
    size, a positive multiple of the positive alignment, with
    [N + size + alignment <= 2^64] (so that the [size_t] arithmetic does
    not wrap), all succeed exactly when the last one ends below [N]; the
    [i]-th region then starts [i] sizes after the cursor. *)
Theorem equal_requests_fill_contiguously N s q (n : nat) :
  0 <= start_index_ s <= N -> in_range N q ->
  0 < req_count q -> req_count q mod req_alignment q = 0 ->
  start_index_ s mod req_alignment q = 0 ->
  (is_Some (allocate_all N s (replicate n q)) <->
     n = 0%nat \/ start_index_ s + Z.of_nat n * req_count q < N) /\
  (forall rs s', allocate_all N s (replicate n q) = Some (rs, s') ->
     start_index_ s' = start_index_ s + Z.of_nat n * req_count q /\
     length rs = n /\
     forall (i : nat) r, rs !! i = Some r ->
       reg_offset r = start_index_ s + Z.of_nat i * req_count q).
Proof.
  intros Hs Hq Hpos Hcm. revert s Hs.
  induction n as [|n IH]; intros s Hs Hsm.
  - simpl. split.
    + split; [intros _; left; reflexivity|intros _; eauto].
    + intros rs s' [= <- <-]. split; [lia|]. split; [reflexivity|].
      intros i r Hi. destruct i; discriminate.
  - destruct q as [count alignment]. simpl in *.
    pose proof Hq as (Hc & Ha & Hb). simpl in *.
    rewrite (allocate_in_range N s count alignment Hs Hq). cbv zeta.
    assert ((start_index_ s + count) mod alignment = 0) as Hal.
    { rewrite Z.add_mod, Hsm, Hcm by lia. reflexivity. }
    rewrite Hal, Z.sub_0_r, Z.mod_same, Z.add_0_r by lia.
    destruct (Z.geb_spec (start_index_ s + count) N) as [Hge|Hlt].
    + split.
      * split; [intros [? ?]; discriminate|]. intros [?|?]; [lia|nia].
      * intros rs s' ?. discriminate.
    + set (s1 := {| start_index_ := start_index_ s + count |}).
      specialize (IH s1 ltac:(simpl; lia) Hal). simpl in IH.
      destruct IH as [IH1 IH2].
      destruct (allocate_all N s1 (replicate n _)) as [[rs1 s1']|] eqn:E.
      * destruct (IH2 rs1 s1' eq_refl) as (Hc1 & Hlen & Hoff).
        split.
        -- split; [|intros _; eauto]. intros _. right.
           destruct (proj1 IH1 ltac:(eauto)) as [->|H]; lia.
        -- intros rs s' [= <- <-]. split; [lia|]. split; [simpl; lia|].
           intros i r Hi. destruct i as [|i]; simpl in Hi.
           ++ injection Hi as <-. simpl. lia.
           ++ rewrite (Hoff i r Hi). lia.
      * split.
        -- split; [intros [? ?]; discriminate|].
           intros [?|H]; [lia|]. exfalso.
           assert (is_Some (None : option (list region * StackStorage))) as [? ?];
             [|discriminate].
           apply IH1. destruct n; [left; reflexivity|right; lia].
        -- intros rs s' ?. discriminate.
Qed.

Lemma equal_requests_fill_contiguously_witness :
  (is_Some (allocate_all 64 fresh
              (replicate 2 {| req_count := 24; req_alignment := 8 |})) <->
     2%nat = 0%nat \/ 0 + Z.of_nat 2 * 24 < 64) /\
  (forall rs s',
     allocate_all 64 fresh
       (replicate 2 {| req_count := 24; req_alignment := 8 |}) = Some (rs, s') ->
     start_index_ s' = 0 + Z.of_nat 2 * 24 /\
     length rs = 2%nat /\
     forall (i : nat) r, rs !! i = Some r ->
       reg_offset r = 0 + Z.of_nat i * 24).
Proof.
  apply (equal_requests_fill_contiguously 64 fresh
           {| req_count := 24; req_alignment := 8 |} 2).
  - simpl. lia.
  - unfold in_range, size_max. simpl. lia.
  - simpl. lia.
  - reflexivity.
  - reflexivity.
Defined.

(** X3: The capacity check does not see an overflow of [size_t]: on an
    arena whose cursor is within [0, N], with [count < 2^64], a positive
    alignment and [N + alignment <= 2^64], when [start_index_ + count]
    reaches or passes [2^64], a call that does not fail returns a region
    that starts at or after the old cursor, less than one alignment
    after it, and runs past the end of the buffer, and it leaves the
    cursor at the start of that region plus [count] minus [2^64], below
    the start of that region. *)
Theorem allocate_overflow_rewinds_cursor N s count alignment off s' :
  0 <= start_index_ s <= N -> 0 <= count < size_max -> 0 < alignment ->
  N + alignment <= size_max ->
  size_max <= start_index_ s + count ->
  allocate N s count alignment = Region off s' ->
  start_index_ s <= off < start_index_ s + alignment /\
  N < off + count /\
  start_index_ s' = off + count - size_max /\
  0 <= start_index_ s' < off.
Proof.
  intros Hs Hc Ha HN Hover. unfold allocate.
  destruct (Z.eqb_spec alignment 0); [lia|].
  assert (wrap (start_index_ s + count) = start_index_ s + count - size_max)
    as Hw1.
  { unfold wrap. symmetry. apply (Z.mod_unique_pos _ _ 1). all: lia. }
  rewrite Hw1.
  pose proof (padding_bounds (start_index_ s + count - size_max) alignment Ha)
    as Hp.
  rewrite wrap_small by lia.
  match goal with
  | |- context [?x >=? N] => destruct (Z.geb_spec x N)
  end; [discriminate|].
  match goal with
  | |- context [wrap (?x - count)] =>
      assert (wrap (x - count) = x - count + size_max) as Hw2
  end.
  { unfold wrap. symmetry. apply (Z.mod_unique_pos _ _ (-1)). all: lia. }
  rewrite Hw2.
  intros [= <- <-]. simpl. lia.
Qed.

Lemma allocate_overflow_rewinds_cursor_witness :
  allocate 16 {| start_index_ := 8 |} (2 ^ 64 - 4) 1
    = Region 8 {| start_index_ := 4 |} /\
  start_index_ {| start_index_ := 8 |} <= 8
    < start_index_ {| start_index_ := 8 |} + 1 /\
  16 < 8 + (2 ^ 64 - 4) /\
  start_index_ {| start_index_ := 4 |} = 8 + (2 ^ 64 - 4) - size_max /\
  0 <= start_index_ {| start_index_ := 4 |} < 8.
Proof.
  assert (allocate 16 {| start_index_ := 8 |} (2 ^ 64 - 4) 1
          = Region 8 {| start_index_ := 4 |}) as Hrun
    by (vm_compute; reflexivity).
  split; [exact Hrun|].
  apply (allocate_overflow_rewinds_cursor 16 {| start_index_ := 8 |}
           (2 ^ 64 - 4) 1 8 {| start_index_ := 4 |}).
  - simpl. lia.
  - unfold size_max. lia.
  - lia.
  - unfold size_max. lia.
  - unfold size_max. simpl. lia.
  - exact Hrun.
Defined.

End ArenaProperties.

(** ** The allocator adaptor *)

Module AllocProperties.
Import Arena Alloc ListModel ArenaFacts Scenario.

(** X4: Two adaptors that compare equal, of any two element types, serve
    from one cursor, and [deallocate] gives nothing back: on arenas whose
    cursors are within [0, N], for two requests with positive alignments
    whose byte sizes, [count * sizeof] taken as a [size_t], satisfy
    [N + size + alignof <= 2^64] (so that the cursor does not wrap),
    after a region has been obtained through one adaptor and released, an
    allocation through the other comes from the same arena and lies
    entirely after it. *)
Theorem equal_adaptors_never_reuse (T U : Type) `{Layout T} `{Layout U}
    (N : Z) (a : StackAllocator T) (b : StackAllocator U) (c1 c2 : Z)
    (m m1 m2 : gmap storage_id StackStorage) (p1 p2 : arena_ptr) :
  op_eq a b = true ->
  (forall id s, m !! id = Some s -> 0 <= start_index_ s <= N) ->
  in_range N {| req_count := wrap (c1 * sizeof T);
                req_alignment := alignof T |} ->
  in_range N {| req_count := wrap (c2 * sizeof U);
                req_alignment := alignof U |} ->
  Alloc.allocate N a c1 m = Returns p1 m1 ->
  Alloc.allocate N b c2 (deallocate a p1 c1 m1) = Returns p2 m2 ->
  p2.1 = p1.1 /\ p1.2 + wrap (c1 * sizeof T) <= p2.2.
Proof.
  intros Heq Hm Hr1 Hr2. unfold op_eq, get_storage in Heq.
  apply bool_decide_eq_true in Heq.
  unfold Alloc.allocate, deallocate. rewrite <- Heq.
  destruct (stack_storage_ a) as [id|]; [|discriminate].
  destruct (m !! id) as [s|] eqn:Hs; [|discriminate].
  destruct (Arena.allocate N s (wrap (c1 * sizeof T)) (alignof T))
    as [off1 s1| |] eqn:E1; try discriminate.
  intros [= <- <-]. rewrite lookup_insert_eq.
  destruct (Arena.allocate N s1 (wrap (c2 * sizeof U)) (alignof U))
    as [off2 s2| |] eqn:E2; try discriminate.
  intros [= <- <-]. simpl. split; [reflexivity|].
  pose proof (Hm id s Hs) as Hcur.
  destruct (allocate_region N s _ _ off1 s1 Hcur Hr1 E1) as (A1 & A2 & A3 & _).
  pose proof Hr1 as (C1 & _ & _). simpl in C1.
  destruct (allocate_region N s1 _ _ off2 s2 ltac:(lia) Hr2 E2)
    as (B1 & _). lia.
Qed.

Lemma equal_adaptors_never_reuse_witness :
  Alloc.allocate (T:=Z) 1024 (from_storage arena) 1 {[ arena := fresh ]}
    = Returns (arena, 0) {[ arena := {| start_index_ := 4 |} ]} /\
  Alloc.allocate (T:=Node Z) 1024 (from_storage arena) 1
      (deallocate (T:=Z) (from_storage arena) (arena, 0) 1
         {[ arena := {| start_index_ := 4 |} ]})
    = Returns (arena, 8) {[ arena := {| start_index_ := 32 |} ]} /\
  (arena, 8).1 = (arena, 0).1 /\
  (arena, 0).2 + wrap (1 * sizeof Z) <= (arena, 8).2.
Proof.
  assert (Alloc.allocate (T:=Z) 1024 (from_storage arena) 1
            {[ arena := fresh ]}
          = Returns (arena, 0) {[ arena := {| start_index_ := 4 |} ]}) as H1
    by (vm_compute; reflexivity).
  assert (Alloc.allocate (T:=Node Z) 1024 (from_storage arena) 1
            (deallocate (T:=Z) (from_storage arena) (arena, 0) 1
               {[ arena := {| start_index_ := 4 |} ]})
          = Returns (arena, 8) {[ arena := {| start_index_ := 32 |} ]}) as H2
    by (vm_compute; reflexivity).
  split; [exact H1|]. split; [exact H2|].
  apply (equal_adaptors_never_reuse Z (Node Z) 1024
           (from_storage arena) (from_storage arena) 1 1
           {[ arena := fresh ]}
           {[ arena := {| start_index_ := 4 |} ]}
           {[ arena := {| start_index_ := 32 |} ]}).
  - reflexivity.
  - intros id s Hs. apply lookup_singleton_Some in Hs as [_ <-]. simpl. lia.
  - vm_compute. repeat split; discriminate.
  - vm_compute. repeat split; discriminate.
  - exact H1.
  - exact H2.
Defined.

(** X5: An allocation touches the arena of its adaptor and no other, and a
    failed one, once [start_index_] is restored, leaves every arena as it
    was. *)
Theorem adaptor_allocate_frames (T : Type) `{Layout T} (N : Z)
    (a : StackAllocator T) (count : Z) (m : gmap storage_id StackStorage) :
  match Alloc.allocate N a count m with
  | Returns p m' =>
      stack_storage_ a = Some p.1 /\
      forall id, id <> p.1 -> m' !! id = m !! id
  | Throws m' => m' = m
  | Alloc.UB =>
      alignof T = 0 \/
      forall id, stack_storage_ a = Some id -> m !! id = None
  end.
Proof.
  unfold Alloc.allocate.
  destruct (stack_storage_ a) as [id|]; [|right; intros ? ?; discriminate].
  destruct (m !! id) as [s|] eqn:Hs.
  2:{ right. intros ? [= <-]. exact Hs. }
  destruct (Arena.allocate N s (wrap (count * sizeof T)) (alignof T))
    as [off s'|s'|] eqn:E.
  - simpl. split; [reflexivity|]. intros id' Hne.
    apply lookup_insert_ne. congruence.
  - apply allocate_bad_alloc in E as ->. apply insert_id. exact Hs.
  - left. unfold Arena.allocate in E.
    destruct (Z.eqb_spec (alignof T) 0); [assumption|].
    destruct (_ >=? N); discriminate.
Qed.

End AllocProperties.

(** ** The list *)

Module ListProperties.
Import Arena Alloc ListModel ArenaFacts ListFacts SpliceFacts Scenario
  ListClaims.

Section Properties.
Context {T : Type} {node_layout : Layout (Node T)}.
Variable N : Z.
Variable ctor_throws : nat -> bool.
Variable default_value : T.
Implicit Types (w : World T) (ps qs : list arena_ptr) (vs : list T).




(** X9: [erase(it)] at any element of a well-formed list always returns: the
    element is gone, its node is destroyed and no longer outstanding, the
    other nodes are where they were and hold what they held, and no arena
    gets a byte back. *)
Theorem erase_unlinks_position w this ps1 q ps2 vs1 v vs2 :
  is_list w this (ps1 ++ q :: ps2) (vs1 ++ v :: vs2) ->
  length ps1 = length vs1 ->
  exists w',
    erase this (PNode q) w = Ok tt w' /\
    is_list w' this (ps1 ++ ps2) (vs1 ++ vs2) /\
    nodes w' !! q = None /\ (q ∉ live w') /\
    arenas w' = arenas w /\
    only_changes [this] (ps1 ++ q :: ps2) w w'.
Proof.
  intros Hl Hlen.
  destruct (erase_at w this ps1 q ps2 vs1 v vs2 Hl Hlen)
    as (w' & H1 & H2 & H3 & H4 & H5 & H6 & _).
  exists w'. split; [exact H1|]. split; [exact H2|]. split; [exact H4|].
  split; [rewrite H5; set_solver|]. split; [exact H6|exact H3].
Qed.

(** X10: [pop_back()] on a list that is not empty removes the last element.
    *)
Theorem pop_back_removes_last w this ps q vs v :
  is_list w this (ps ++ [q]) (vs ++ [v]) ->
  exists w',
    pop_back this w = Ok tt w' /\
    is_list w' this ps vs /\
    nodes w' !! q = None /\ (q ∉ live w') /\
    arenas w' = arenas w.
Proof.
  intros Hl.
  destruct (pop_back_spec w this ps q vs v Hl)
    as (w' & H1 & H2 & H3 & H4 & H5 & H6 & _).
  exists w'. split; [exact H1|]. split; [exact H2|]. split; [exact H4|].
  split; [rewrite H5; set_solver|exact H6].
Qed.

(** X11: [pop_front()] on a list that is not empty removes the first
    element. *)
Theorem pop_front_removes_first w this q ps v vs :
  is_list w this (q :: ps) (v :: vs) ->
  exists w',
    pop_front this w = Ok tt w' /\
    is_list w' this ps vs /\
    nodes w' !! q = None /\ (q ∉ live w') /\
    arenas w' = arenas w.
Proof.
  intros Hl.
  destruct (erase_at w this [] q ps [] v vs Hl eq_refl)
    as (w' & H1 & H2 & H3 & H4 & H5 & H6 & _).
  exists w'. unfold pop_front, begin.
  rewrite (bind_Ok _ _ _ _ _
             (read_next_run _ _ _ (is_list_begin _ _ _ _ Hl))).
  split; [exact H1|]. split; [exact H2|]. split; [exact H4|].
  split; [rewrite H5; set_solver|exact H6].
Qed.

(** X12: Nothing guards the sentinel: [erase(end())] on any well-formed
    list, and so [pop_back()] and [pop_front()] on an empty one, destroy
    [head_] as if it were a payload node, which is undefined. *)
Theorem erase_of_end_is_undefined w this ps vs :
  is_list w this ps vs ->
  erase this (end_ this) w = UB /\
  (ps = [] -> pop_back this w = UB /\ pop_front this w = UB).
Proof.
  intros Hl. pose proof (erase_sentinel w this ps vs Hl) as He.
  split; [exact He|]. intros ->. split.
  - unfold pop_back, decr, end_.
    rewrite (bind_Ok _ _ _ _ _
               (read_prev_run _ _ _ (is_list_last _ _ _ _ Hl))).
    exact He.
  - unfold pop_front, begin.
    rewrite (bind_Ok _ _ _ _ _
               (read_next_run _ _ _ (is_list_begin _ _ _ _ Hl))).
    exact He.
Qed.


(** X14: At every position of a well-formed list, the end included, [++]
    then [--] and [--] then [++] lead back to the position. *)
Theorem increment_and_decrement_are_inverse w this ps vs X :
  is_list w this ps vs -> X ∈ end_ this :: (PNode <$> ps) ->
  (exists n, incr X w = Ok n w /\ decr n w = Ok X w) /\
  (exists p, decr X w = Ok p w /\ incr p w = Ok X w).
Proof.
  intros Hl HX.
  destruct (ring_closed_at w this ps X (il_ring _ _ _ _ Hl) HX)
    as [(n & Hn & Hn') (p & Hp & Hp')].
  split.
  - exists n. split; [apply read_next_run|apply read_prev_run]; assumption.
  - exists p. split; [apply read_prev_run|apply read_next_run]; assumption.
Qed.

(** X15: The destructor of a well-formed list destroys every node of the
    list and gives its region back, ends the list object, and touches no
    other node, no other list and no arena. *)
Theorem destructor_releases_every_node w this ps vs :
  is_list w this ps vs ->
  exists w',
    destructor this w = Ok tt w' /\
    lists w' !! this = None /\
    (forall q, q ∈ ps -> nodes w' !! q = None /\ q ∉ live w') /\
    (forall q, q ∉ ps ->
       nodes w' !! q = nodes w !! q /\ (q ∈ live w' <-> q ∈ live w)) /\
    (forall l, l <> this -> lists w' !! l = lists w !! l) /\
    arenas w' = arenas w.
Proof.
  intros Hl.
  destruct (destructor_spec w this ps vs Hl)
    as (w' & H1 & H2 & H3 & H4 & H5 & H6 & H7 & _).
  exists w'. split; [exact H1|]. split; [exact H3|].
  split; [|split; [|split; [exact H2|exact H7]]].
  - intros q Hq. split; [exact (H5 q Hq)|]. rewrite H6.
    rewrite elem_of_difference, elem_of_list_to_set. tauto.
  - intros q Hq. split; [exact (H4 q Hq)|]. rewrite H6.
    rewrite elem_of_difference, elem_of_list_to_set. tauto.
Qed.







(** X22: Copy assignment of an empty list to a list that is not empty is
    undefined, whatever the two lists: the temporary takes the size of the
    target in [Swap], and its destructor then pops the sentinel of the
    target as if it were a payload node. *)
Theorem copy_assign_from_empty_source_is_undefined
    w fuel this other tmp ps vs :
  lists w !! tmp = None ->
  is_list w this ps vs -> ps <> [] -> is_list w other [] [] ->
  (0 < fuel)%nat ->
  copy_assign N ctor_throws default_value fuel this other tmp w = UB.
Proof.
  intros Hfree Hthis Hnonempty Hsrc Hfuel.
  assert (this <> tmp) as Hne1.
  { intros ->. pose proof (il_size _ _ _ _ Hthis) as E.
    rewrite Hfree in E. discriminate. }
  assert (other <> tmp) as Hne2.
  { intros ->. pose proof (il_size _ _ _ _ Hsrc) as E.
    rewrite Hfree in E. discriminate. }
  pose proof (il_size _ _ _ _ Hthis) as Hsz.
  destruct (lists w !! this) as [o|] eqn:Ho; [|discriminate Hsz].
  assert (get_allocator this w = Ok (convert T (alloc o)) w) as Hga.
  { unfold get_allocator.
    rewrite (bind_Ok _ _ _ _ _ (get_list_run _ _ _ Ho)). reflexivity. }
  unfold copy_assign.
  change (if propagate_on_container_copy_assignment
          then get_allocator other else get_allocator this)
    with (get_allocator (T:=T) this).
  rewrite (bind_Ok _ _ _ _ _ Hga).
  destruct (List_alloc_is_list w tmp (convert T (alloc o)))
    as (w0 & Hrun & Htmp0 & Hn0 & Hl0 & Hls0).
  rewrite (bind_Ok _ _ _ _ _ Hrun).
  pose proof (is_list_after_alloc w w0 tmp this ps vs Hthis Hne1 Hn0 Hl0
                Hls0) as Hthis0.
  pose proof (is_list_after_alloc w w0 tmp other [] [] Hsrc Hne2 Hn0 Hl0
                Hls0) as Hsrc0.
  unfold begin.
  rewrite (bind_Ok _ _ _ _ _
             (read_next_run _ _ _ (is_list_begin _ _ _ _ Hsrc0))).
  change (first_of other []) with (PHead other).
  destruct fuel as [|fuel']; [lia|].
  unfold try_catch at 1. unfold bind at 1.
  simpl copy_elements. unfold end_ at 1.
  rewrite decide_True by reflexivity. simpl snd.
  destruct ps as [|q0 qs]; [contradiction|].
  exact (swap_into_empty_temporary w0 this tmp q0 qs vs Hne1 Htmp0 Hthis0).
Qed.

(** X23: [Swap] of two different well-formed lists that are both empty or
    both non-empty always returns and exchanges them: each list object ends
    up with the nodes, the elements, the size and the node allocator of the
    other, and no arena and no outstanding region changes. *)
Theorem Swap_exchanges_alike_lists w a b ps vs qs us :
  a <> b ->
  is_list w a ps vs -> is_list w b qs us ->
  (forall q, q ∈ ps -> q ∉ qs) ->
  (ps = [] <-> qs = []) ->
  exists w',
    Swap a b w = Ok tt w' /\
    is_list w' a qs us /\ is_list w' b ps vs /\
    node_allocator_ <$> lists w' !! a = node_allocator_ <$> lists w !! b /\
    node_allocator_ <$> lists w' !! b = node_allocator_ <$> lists w !! a /\
    arenas w' = arenas w /\ live w' = live w.
Proof.
  intros Hab Ha Hb Hdis Hsame.
  destruct (Swap_spec w a b ps vs qs us Hab Ha Hb Hdis Hsame)
    as (w' & Hrun & H1 & H2 & _ & Hlive & Har & _).
  destruct (Swap_node_allocator w a b w' Hab Hrun) as (_ & A1 & A2).
  exists w'. split; [exact Hrun|]. split; [exact H1|]. split; [exact H2|].
  split; [exact A1|]. split; [exact A2|]. split; [exact Har|exact Hlive].
Qed.



(** X26: Dereferencing at an element of a well-formed list reads that
    element and changes nothing; the reverse iterator whose [current] is the
    next position reads the same element; dereferencing [end()], or
    [rend()], treats [head_] as a payload node, which is undefined. *)
Theorem dereference_reads_the_element w this ps1 q ps2 vs1 v vs2 :
  is_list w this (ps1 ++ q :: ps2) (vs1 ++ v :: vs2) ->
  length ps1 = length vs1 ->
  deref (PNode q) w = Ok v w /\
  rev_deref {| current := first_of this ps2 |} w = Ok v w /\
  deref (end_ this) w = UB /\
  (exists re, rend this w = Ok re w /\ rev_deref re w = UB).
Proof.
  intros Hl Hlen.
  pose proof (is_list_value_at _ _ _ _ _ _ _ _ Hl Hlen) as Hv.
  assert (is_list w this ((ps1 ++ [q]) ++ ps2) (vs1 ++ v :: vs2)) as Hl'
    by (rewrite <- app_assoc; exact Hl).
  destruct (is_list_junction _ _ _ _ _ Hl') as [_ Hp].
  rewrite last_of_snoc in Hp.
  split; [exact (deref_run _ _ _ Hv)|].
  split.
  { unfold rev_deref, decr. simpl current.
    rewrite (bind_Ok _ _ _ _ _ (read_prev_run _ _ _ Hp)).
    exact (deref_run _ _ _ Hv). }
  split; [reflexivity|].
  pose proof (is_list_begin _ _ _ _ Hl) as Hb.
  destruct (is_list_junction w this [] (ps1 ++ q :: ps2) _ Hl) as [_ Hpb].
  change (last_of this []) with (PHead this) in Hpb.
  exists {| current := first_of this (ps1 ++ q :: ps2) |}. split.
  - unfold rend, begin.
    rewrite (bind_Ok _ _ _ _ _ (read_next_run _ _ _ Hb)). reflexivity.
  - unfold rev_deref, decr. simpl current.
    rewrite (bind_Ok _ _ _ _ _ (read_prev_run _ _ _ Hpb)). reflexivity.
Qed.

End Properties.

(** *** The properties on concrete stores *)

Lemma two_elements_allocates : allocates_from two_elements 100 arena.
Proof. split; [reflexivity|]. exists {| start_index_ := 48 |}. reflexivity. Qed.

Lemma two_lists_well_formed :
  wf_world 1024 two_lists /\
  is_list two_lists 100 [(arena, 0)] [5] /\
  is_list two_lists 200 [(arena, 24)] [7].
Proof.
  split; [|split].
  - apply wf_world_checked. apply (bool_decide_unpack _). vm_compute. exact I.
  - apply is_list_checked. apply (bool_decide_unpack _). vm_compute. exact I.
  - apply is_list_checked. apply (bool_decide_unpack _). vm_compute. exact I.
Qed.




Lemma erase_unlinks_position_witness :
  exists w',
    erase 100 (PNode (arena, 0)) two_elements = Ok tt w' /\
    is_list w' 100 ([] ++ [(arena, 24)]) ([] ++ [10]) /\
    nodes w' !! (arena, 0) = None /\ ((arena, 0) ∉ live w') /\
    arenas w' = arenas two_elements /\
    only_changes [100] ([] ++ (arena, 0) :: [(arena, 24)]) two_elements w'.
Proof.
  apply (erase_unlinks_position two_elements 100 [] (arena, 0) [(arena, 24)]
           [] 5 [10]).
  - exact (proj2 (two_elements_well_formed 1024 ltac:(lia))).
  - reflexivity.
Defined.

Lemma pop_back_removes_last_witness :
  exists w',
    pop_back 100 two_elements = Ok tt w' /\
    is_list w' 100 [(arena, 0)] [5] /\
    nodes w' !! (arena, 24) = None /\ ((arena, 24) ∉ live w') /\
    arenas w' = arenas two_elements.
Proof.
  apply (pop_back_removes_last two_elements 100 [(arena, 0)] (arena, 24)
           [5] 10).
  exact (proj2 (two_elements_well_formed 1024 ltac:(lia))).
Defined.

Lemma pop_front_removes_first_witness :
  exists w',
    pop_front 100 two_elements = Ok tt w' /\
    is_list w' 100 [(arena, 24)] [10] /\
    nodes w' !! (arena, 0) = None /\ ((arena, 0) ∉ live w') /\
    arenas w' = arenas two_elements.
Proof.
  apply (pop_front_removes_first two_elements 100 (arena, 0) [(arena, 24)]
           5 [10]).
  exact (proj2 (two_elements_well_formed 1024 ltac:(lia))).
Defined.

Lemma erase_of_end_is_undefined_witness :
  erase 100 (end_ 100) empty_and_one = UB /\
  pop_back 100 empty_and_one = UB /\ pop_front 100 empty_and_one = UB.
Proof.
  destruct (erase_of_end_is_undefined empty_and_one 100 [] []
              (proj1 (proj2 empty_and_one_well_formed))) as [H1 H2].
  split; [exact H1|exact (H2 eq_refl)].
Defined.


Lemma increment_and_decrement_are_inverse_witness :
  (exists n, incr (PNode (arena, 24)) two_elements = Ok n two_elements /\
             decr n two_elements = Ok (PNode (arena, 24)) two_elements) /\
  (exists p, decr (PNode (arena, 24)) two_elements = Ok p two_elements /\
             incr p two_elements = Ok (PNode (arena, 24)) two_elements).
Proof.
  apply (increment_and_decrement_are_inverse two_elements 100
           [(arena, 0); (arena, 24)] [5; 10]).
  - exact (proj2 (two_elements_well_formed 1024 ltac:(lia))).
  - right. right. left.
Defined.

Lemma destructor_releases_every_node_witness :
  exists w',
    destructor 100 two_elements = Ok tt w' /\
    lists w' !! 100 = None /\
    (forall q, q ∈ [(arena, 0); (arena, 24)] ->
       nodes w' !! q = None /\ q ∉ live w') /\
    (forall q, q ∉ [(arena, 0); (arena, 24)] ->
       nodes w' !! q = nodes two_elements !! q /\
       (q ∈ live w' <-> q ∈ live two_elements)) /\
    (forall l, l <> 100 -> lists w' !! l = lists two_elements !! l) /\
    arenas w' = arenas two_elements.
Proof.
  apply (destructor_releases_every_node two_elements 100
           [(arena, 0); (arena, 24)] [5; 10]).
  exact (proj2 (two_elements_well_formed 1024 ltac:(lia))).
Defined.






Lemma empty_and_two_well_formed :
  wf_world 1024 empty_and_two /\
  is_list empty_and_two 100 [] [] /\
  is_list empty_and_two 200 [(arena, 0); (arena, 24)] [5; 10].
Proof.
  split; [|split].
  - apply wf_world_checked. apply (bool_decide_unpack _). vm_compute. exact I.
  - apply is_list_checked. apply (bool_decide_unpack _). vm_compute. exact I.
  - apply is_list_checked. apply (bool_decide_unpack _). vm_compute. exact I.
Qed.


Lemma copy_assign_from_empty_source_is_undefined_witness :
  copy_assign 1024 never 0 3 200 100 300 empty_and_one = UB.
Proof.
  destruct empty_and_one_well_formed as (Hwf & H1 & H2).
  apply (copy_assign_from_empty_source_is_undefined 1024 never 0
           empty_and_one 3 200 100 300 [(arena, 0)] [7]).
  - reflexivity.
  - exact H2.
  - discriminate.
  - exact H1.
  - lia.
Defined.

Lemma Swap_exchanges_alike_lists_witness :
  exists w',
    Swap 100 200 two_lists = Ok tt w' /\
    is_list w' 100 [(arena, 24)] [7] /\ is_list w' 200 [(arena, 0)] [5] /\
    node_allocator_ <$> lists w' !! 100
      = node_allocator_ <$> lists two_lists !! 200 /\
    node_allocator_ <$> lists w' !! 200
      = node_allocator_ <$> lists two_lists !! 100 /\
    arenas w' = arenas two_lists /\ live w' = live two_lists.
Proof.
  destruct two_lists_well_formed as (Hwf & H1 & H2).
  apply (Swap_exchanges_alike_lists two_lists 100 200 [(arena, 0)] [5]
           [(arena, 24)] [7]).
  - discriminate.
  - exact H1.
  - exact H2.
  - intros q Hq Hq'. apply list_elem_of_singleton in Hq.
    apply list_elem_of_singleton in Hq'. congruence.
  - split; discriminate.
Defined.

Lemma two_arenas_well_formed :
  wf_world 1024 two_arenas /\
  is_list two_arenas 100 [(arena, 0)] [5] /\
  is_list two_arenas 200 [(arena_b, 0)] [7].
Proof.
  split; [|split].
  - apply wf_world_checked. apply (bool_decide_unpack _). vm_compute. exact I.
  - apply is_list_checked. apply (bool_decide_unpack _). vm_compute. exact I.
  - apply is_list_checked. apply (bool_decide_unpack _). vm_compute. exact I.
Qed.



Lemma dereference_reads_the_element_witness :
  deref (PNode (arena, 0)) two_elements = Ok 5 two_elements /\
  rev_deref {| current := first_of 100 [(arena, 24)] |} two_elements
    = Ok 5 two_elements /\
  deref (end_ 100) two_elements = UB /\
  (exists re, rend 100 two_elements = Ok re two_elements /\
              rev_deref re two_elements = UB).
Proof.
  apply (dereference_reads_the_element two_elements 100 [] (arena, 0)
           [(arena, 24)] [] 5 [10]).
  - exact (proj2 (two_elements_well_formed 1024 ltac:(lia))).
  - reflexivity.
Defined.

End ListProperties.
